(** * Vakya: the matching and reversible-rewrite core of the content script

    A shallow embedding of the content script (the version carrying the
    Readability-based matcher) and of the background translation worker,
    together with the properties the specification states about them.

    Conventions.
    - A JavaScript string is the list of its UTF-16 code units ([jstring]).
    - A JavaScript number that the code computes as a quotient of two
      small non-negative integers is kept as the exact rational ([Q]);
      the comparisons the code makes between such quotients (and with
      the literal 0.85) agree with the rational ones as long as the word
      sets stay below 2^26 entries.
    - The page is a tree of elements and text nodes.  A live element is
      named by its position in that tree (the child indices leading to
      it, innermost first).  The script never moves an element: it only
      replaces all the children of an element by nodes of its own, so a
      position keeps naming the same element object, also once the
      rewrite of an ancestor has detached it.  What the script changes
      on an element (its children, classes, data attributes, listeners)
      is kept in a map from positions, next to the tree.
    - The Unicode tables of the host (general categories, lower-casing)
      are a parameter ([UnicodeData]).
    - What comes from outside (the parser's article, the replies of the
      translation requests and the order in which they end, the element
      under the pointer) is an argument of the function that consumes
      it.  So are the nodes the script itself has appended to the body
      (overlay, notice, tooltip) when the document is searched: they are
      passed as they stand and put after the children of the body.
    - A block of a reply is kept as it arrives: its [original] may be
      missing or no string.  The statements about the rewrite of given
      blocks of two strings are linked to it by [asBlock]. *)

From Stdlib Require Import ZArith NArith QArith Lia Ascii String.
From stdpp Require Import base option list gmap strings sets.

Set Warnings "-register-all".
Local Open Scope N_scope.

(** ** JavaScript strings *)

Module JsString.

Definition jstring := list N.

(** An ASCII literal as a JavaScript string. *)
Definition utf16 (s : string) : jstring :=
  map N_of_ascii (list_ascii_of_string s).

(** The characters matched by [\s] (WhiteSpace and LineTerminator). *)
Definition isWhiteSpace (c : N) : bool :=
  ((9 <=? c) && (c <=? 13))
  || (c =? 32) || (c =? 160) || (c =? 5760)
  || ((8192 <=? c) && (c <=? 8202))
  || (c =? 8232) || (c =? 8233) || (c =? 8239) || (c =? 8287)
  || (c =? 12288) || (c =? 65279).

(** The longest prefix whose characters satisfy [p], and what follows it. *)
Fixpoint span (p : N -> bool) (s : jstring) : jstring * jstring :=
  match s with
  | [] => ([], [])
  | c :: s' =>
      if p c then let '(a, b) := span p s' in (c :: a, b) else ([], s)
  end.

Definition notWhiteSpace (c : N) : bool := negb (isWhiteSpace c).

(** [text.split(/(\s+)/)]: the substring before the next match, the
    captured whitespace run, and so on; the last substring closes the
    array.  [fuel] bounds the number of matches. *)
Fixpoint splitCapture (fuel : nat) (s : jstring) : list jstring :=
  let '(piece, rest) := span notWhiteSpace s in
  match rest with
  | [] => [piece]
  | _ :: _ =>
      let '(run, rest') := span isWhiteSpace rest in
      match fuel with
      | O => [piece; run]
      | S fuel' => piece :: run :: splitCapture fuel' rest'
      end
  end.

Definition split_ws_capture (s : jstring) : list jstring :=
  splitCapture (length s) s.

(** [a.split(/\s+/)]: the same scan without the capture group. *)
Fixpoint splitPlain (fuel : nat) (s : jstring) : list jstring :=
  let '(piece, rest) := span notWhiteSpace s in
  match rest with
  | [] => [piece]
  | _ :: _ =>
      let '(_, rest') := span isWhiteSpace rest in
      match fuel with
      | O => [piece]
      | S fuel' => piece :: splitPlain fuel' rest'
      end
  end.

Definition split_ws (s : jstring) : list jstring :=
  splitPlain (length s) s.

(** [text.replace(/\s+/g, ' ')]. *)
Fixpoint collapseWs (fuel : nat) (s : jstring) : jstring :=
  let '(piece, rest) := span notWhiteSpace s in
  match rest with
  | [] => piece
  | _ :: _ =>
      let '(_, rest') := span isWhiteSpace rest in
      match fuel with
      | O => piece
      | S fuel' => piece ++ 32 :: collapseWs fuel' rest'
      end
  end.

Definition replace_ws_space (s : jstring) : jstring :=
  collapseWs (length s) s.

(** [String.prototype.trim]. *)
Definition trimStart (s : jstring) : jstring := snd (span isWhiteSpace s).
Definition trim (s : jstring) : jstring := rev (trimStart (rev (trimStart s))).

(** The entries at even positions. *)
Fixpoint everyOther (l : list jstring) : list jstring :=
  match l with
  | [] => []
  | x :: l' => x :: match l' with [] => [] | _ :: l'' => everyOther l'' end
  end.

Definition startsWithSpace (s : jstring) : bool :=
  match s with
  | [] => false
  | c :: _ => isWhiteSpace c
  end.

Fixpoint startsWith (p s : jstring) : bool :=
  match p, s with
  | [], _ => true
  | a :: p', b :: s' => (a =? b) && startsWith p' s'
  | _ :: _, [] => false
  end.

(** [hay.includes(needle)]. *)
Fixpoint includes (needle hay : jstring) : bool :=
  startsWith needle hay
  || match hay with
     | [] => false
     | _ :: hay' => includes needle hay'
     end.

Definition isDigit (c : N) : bool := (48 <=? c) && (c <=? 57).

(** *** Code points (what a [u]-flagged regular expression iterates over) *)

Definition isLead (c : N) : bool := (55296 <=? c) && (c <=? 56319).
Definition isTrail (c : N) : bool := (56320 <=? c) && (c <=? 57343).
Definition pairValue (hi lo : N) : N :=
  65536 + (hi - 55296) * 1024 + (lo - 56320).

(** The characters of a string, each as the one or two code units that
    spell it: a lead surrogate followed by a trail surrogate is one
    character, any other code unit (a lone surrogate too) is one. *)
Fixpoint characters (s : jstring) : list jstring :=
  match s with
  | [] => []
  | hi :: s' =>
      match s' with
      | lo :: s'' =>
          if isLead hi && isTrail lo
          then [hi; lo] :: characters s''
          else [hi] :: characters s'
      | [] => [[hi]]
      end
  end.

Definition charCode (ch : jstring) : N :=
  match ch with
  | [c] => c
  | [hi; lo] => pairValue hi lo
  | _ => 0
  end.

Definition codePoints (s : jstring) : list N := charCode <$> characters s.

(** The tables of the host the code relies on. *)
Record UnicodeData := {
  gc_L : N -> bool;             (* \p{L} *)
  gc_M : N -> bool;             (* \p{M} *)
  gc_Pd : N -> bool;            (* \p{Pd} *)
  toLowerCase : jstring -> jstring
}.

(** What the Unicode Character Database says of Basic Latin. *)
Definition asciiLetter (c : N) : bool :=
  ((65 <=? c) && (c <=? 90)) || ((97 <=? c) && (c <=? 122)).

Definition asciiLower (c : N) : N :=
  if (65 <=? c) && (c <=? 90) then c + 32 else c.

Definition BasicLatin (u : UnicodeData) : Prop :=
  forall c, c < 128 ->
    gc_L u c = asciiLetter c /\ gc_M u c = false /\ gc_Pd u c = (c =? 45).

(** A table that knows Basic Latin only. *)
Definition latin_ucd : UnicodeData := {|
  gc_L := fun c => (c <? 128) && asciiLetter c;
  gc_M := fun _ => false;
  gc_Pd := fun c => c =? 45;
  toLowerCase := map asciiLower
|}.

Section Regex.
Variable u : UnicodeData.

(** [/[\p{L}]/u.test(s)]. *)
Definition hasLetter (s : jstring) : bool := existsb (gc_L u) (codePoints s).

(** A code point outside the class [[^\p{L}\p{Pd}\p{M}']]. *)
Definition isWordChar (cp : N) : bool :=
  gc_L u cp || gc_Pd u cp || gc_M u cp || (cp =? 39).

(** [s.replace(/[^\p{L}\p{Pd}\p{M}']/gu, '')]: the scan goes code point
    by code point; a match is dropped, anything else is copied. *)
Fixpoint stripNonWord (s : jstring) : jstring :=
  match s with
  | [] => []
  | hi :: s' =>
      match s' with
      | lo :: s'' =>
          if isLead hi && isTrail lo
          then (if isWordChar (pairValue hi lo)
                then hi :: lo :: stripNonWord s''
                else stripNonWord s'')
          else (if isWordChar hi then hi :: stripNonWord s'
                else stripNonWord s')
      | [] => if isWordChar hi then [hi] else []
      end
  end.
End Regex.

End JsString.

Import JsString.

(** ** Rendering a translated block as word units *)

Module Render.

Inductive Handler := handleWordClick | handleSentenceClick.

#[global] Instance Handler_eq_dec : EqDecision Handler.
Proof. solve_decision. Defined.

(** The nodes [renderTranslatedBlock] creates under the element. *)
Record WordSpan := {
  span_textContent : jstring;
  span_className : string;
  span_word : jstring;                       (* dataset.word *)
  span_listeners : list (string * Handler)
}.

Inductive Child :=
| SpanNode (sp : WordSpan)
| TextNode (data : jstring).

Definition childText (k : Child) : jstring :=
  match k with
  | SpanNode sp => span_textContent sp
  | TextNode d => d
  end.

Section Render.
Variable u : UnicodeData.

Definition makeSpan (fragment : jstring) : WordSpan := {|
  span_textContent := fragment;
  span_className := "vakya-word";
  span_word := stripNonWord u fragment;
  span_listeners := [("click"%string, handleWordClick)]
|}.

(** One turn of the loop over the fragments: [kids] are the children
    appended so far. *)
Definition renderStep (kids : list Child) (fragment : jstring) : list Child :=
  match fragment with
  | [] => kids
  | _ :: _ =>
      if hasLetter u fragment
      then kids ++ [SpanNode (makeSpan fragment)]
      else kids ++ [TextNode fragment]
  end.

(** The children of [element] once [renderTranslatedBlock(element, text)]
    has run ([element.textContent = ''] empties it first). *)
Definition renderTranslatedBlock (text : jstring) : list Child :=
  foldl renderStep [] (split_ws_capture text).

(** The node a non-empty fragment becomes. *)
Definition classify (fragment : jstring) : Child :=
  if hasLetter u fragment then SpanNode (makeSpan fragment)
  else TextNode fragment.

(** The claim's words for the lookup key: the fragment without the
    characters that are no letter, mark, dash or apostrophe. *)
Definition keepWordChars (fragment : jstring) : jstring :=
  concat (filter (fun ch => isWordChar u (charCode ch) = true)
                 (characters fragment)).
End Render.

(** A whitespace run, and a fragment free of whitespace. *)
Definition isRun (f : jstring) : bool := forallb isWhiteSpace f.
Definition isWordLike (f : jstring) : bool := forallb notWhiteSpace f.

(** Non-empty fragments that alternate between runs and the rest;
    [true] when the first is due to be a run. *)
Inductive Alternate : bool -> list jstring -> Prop :=
| Alternate_nil b : Alternate b []
| Alternate_run f l :
    f <> [] -> isRun f = true -> Alternate false l -> Alternate true (f :: l)
| Alternate_word f l :
    f <> [] -> isWordLike f = true -> Alternate true l -> Alternate false (f :: l).

End Render.

Import Render.

(** ** Normalisation and similarity of texts *)

Module Similarity.

(** A JavaScript [Set] of strings: insertion-ordered, without repeats. *)
Definition StrSet := list jstring.

Definition set_has (s : StrSet) (w : jstring) : bool := bool_decide (w ∈ s).

Definition set_add (s : StrSet) (w : jstring) : StrSet :=
  if set_has s w then s else s ++ [w].

(** [new Set(iterable)]. *)
Definition set_from (l : list jstring) : StrSet := foldl set_add [] l.

(** [s.split(/\s+/).filter(w => w.length > 2)]. *)
Definition longWords (s : jstring) : list jstring :=
  filter (fun w => (2 < length w)%nat) (split_ws s).

(** The loop counting the words of [wordsA] that [wordsB] has. *)
Definition countShared (wordsA wordsB : StrSet) : nat :=
  foldl (fun n w => if set_has wordsB w then S n else n) 0%nat wordsA.

Definition textSimilarity (a b : jstring) : Q :=
  let wordsA := set_from (longWords a) in
  let wordsB := set_from (longWords b) in
  if ((length wordsA =? 0) || (length wordsB =? 0))%nat then 0%Q
  else
    let intersection := countShared wordsA wordsB in
    let union := (length wordsA + length wordsB - intersection)%nat in
    (inject_Z (Z.of_nat intersection) / inject_Z (Z.of_nat union))%Q.

(** [text.replace(/\s+/g, ' ').trim().toLowerCase()]. *)
Definition normalizeText (u : UnicodeData) (text : jstring) : jstring :=
  toLowerCase u (trim (replace_ws_space text)).

(** The claim's words: the two word sets as finite sets, and the Jaccard
    index of two finite sets. *)
Definition wordSet (s : jstring) : gset jstring := list_to_set (longWords s).

(** The claim's words, apart from the code: [w] is a whitespace-separated
    token of [s] when it is a run of characters of [s] that are no
    whitespace, not empty, with whitespace or an end of [s] before it
    and after it. *)
Definition isToken (s w : jstring) : Prop :=
  w <> [] /\ forallb notWhiteSpace w = true
  /\ exists pre post : jstring,
       s = pre ++ w ++ post
       /\ (pre = [] \/ startsWithSpace (rev pre) = true)
       /\ (post = [] \/ startsWithSpace post = true).

(** A token of length greater than 2. *)
Definition longToken (s w : jstring) : Prop :=
  isToken s w /\ (2 < length w)%nat.

Definition jaccard (A B : gset jstring) : Q :=
  (inject_Z (Z.of_nat (size (A ∩ B)))
   / inject_Z (Z.of_nat (size A + size B - size (A ∩ B))))%Q.

End Similarity.

Import Similarity.

(** ** The live page as a tree *)

Module Dom.

Inductive Node :=
| TextN (data : jstring)
| Elem (tagName : string) (childNodes : list Node).

(** The identity of an element of the page: the child indices that lead
    to it from the document element, innermost first. *)
Abbreviation ElemRef := (list nat).

Record Element := { ref : ElemRef; node : Node }.

(** Going through the children with their indices, from index [i] on. *)
Section Indexed.
Context {A B : Type}.

Fixpoint flatMapFrom (f : nat -> A -> list B) (i : nat) (l : list A) : list B :=
  match l with
  | [] => []
  | x :: l' => f i x ++ flatMapFrom f (S i) l'
  end.

Fixpoint mapFrom (f : nat -> A -> B) (i : nat) (l : list A) : list B :=
  match l with
  | [] => []
  | x :: l' => f i x :: mapFrom f (S i) l'
  end.
End Indexed.

Fixpoint textContent (n : Node) : jstring :=
  match n with
  | TextN d => d
  | Elem _ kids => flat_map textContent kids
  end.

Definition tagOf (n : Node) : option string :=
  match n with
  | TextN _ => None
  | Elem t _ => Some t
  end.

Definition hasTag (tags : list string) (n : Node) : bool :=
  match n with
  | TextN _ => false
  | Elem t _ => bool_decide (t ∈ tags)
  end.

(** [el.parentElement]; the document element has none. *)
Definition parentElement (r : ElemRef) : option ElemRef :=
  match r with
  | [] => None
  | _ :: up => Some up
  end.

(** The node a reference designates in the tree below [n]; [path] is
    read outermost first. *)
Fixpoint nodeAtPath (n : Node) (path : list nat) : option Node :=
  match path with
  | [] => Some n
  | i :: path' =>
      match n with
      | TextN _ => None
      | Elem _ kids =>
          match kids !! i with
          | Some k => nodeAtPath k path'
          | None => None
          end
      end
  end.

Definition nodeAt (doc : Node) (r : ElemRef) : option Node :=
  nodeAtPath doc (rev r).

(** [querySelectorAll] for a list of tag names: the matching elements at
    or below [n] (which sits at [r]) in document order. *)
Fixpoint selectAll (tags : list string) (r : ElemRef) (n : Node) : list Element :=
  match n with
  | TextN _ => []
  | Elem t kids =>
      (if bool_decide (t ∈ tags) then [{| ref := r; node := n |}] else [])
      ++ flatMapFrom (fun i k => selectAll tags (i :: r) k) 0%nat kids
  end.

Definition querySelectorAll (tags : list string) (doc : Node) : list Element :=
  selectAll tags [] doc.

(** [el.children]: the child nodes that are elements. *)
Definition children (n : Node) : list Node :=
  match n with
  | TextN _ => []
  | Elem _ kids => filter (fun k => is_Some (tagOf k)) kids
  end.

Fixpoint firstIndex (p : Node -> bool) (i : nat) (ks : list Node) : option nat :=
  match ks with
  | [] => None
  | k :: ks' => if p k then Some i else firstIndex p (S i) ks'
  end.

(** [document.body]: the first [body] or [frameset] child of the
    document element, when that element is [html]. *)
Definition body (doc : Node) : option ElemRef :=
  match doc with
  | Elem t kids =>
      if bool_decide (t = "HTML"%string)
      then (fun i => [i]) <$>
             firstIndex (hasTag ["BODY"; "FRAMESET"]%string) 0%nat kids
      else None
  | TextN _ => None
  end.

End Dom.

(** ** Finding the live elements of the extracted blocks *)

Module Matcher.
Import Dom.

Definition candidateTags : list string :=
  ["P"; "H1"; "H2"; "H3"; "H4"; "H5"; "H6"; "LI"; "BLOCKQUOTE"; "TD"; "TH";
   "FIGCAPTION"; "DIV"; "SPAN"]%string.

Definition blockTags : list string :=
  ["P"; "H1"; "H2"; "H3"; "H4"; "H5"; "H6"; "LI"; "BLOCKQUOTE"; "DIV";
   "ARTICLE"; "SECTION"]%string.

(** [x > y] on the numbers the matcher compares. *)
Definition Qgtb (x y : Q) : bool := (Qnum y * QDen x <? Qnum x * QDen y)%Z.

Definition threshold : Q := 85 # 100.

Definition isContainerElement (el : Element) : bool :=
  existsb (fun child =>
             hasTag blockTags child
             && bool_decide (30 < length (trim (textContent child)))%nat)
          (children (node el)).

Section Matcher.
Variable u : UnicodeData.
Variable doc : Node.

Definition candidates : list Element := querySelectorAll candidateTags doc.

(** The inner loop over the candidates that are left, with the best
    match and score so far; an exact match breaks out of the loop. *)
Fixpoint scanCandidates (usedElements : gset ElemRef) (normalizedTarget : jstring)
    (cands : list Element) (bestMatch : option Element) (bestScore : Q)
    : option Element * Q :=
  match cands with
  | [] => (bestMatch, bestScore)
  | el :: rest =>
      if bool_decide (ref el ∈ usedElements)
      then scanCandidates usedElements normalizedTarget rest bestMatch bestScore
      else if isContainerElement el
      then scanCandidates usedElements normalizedTarget rest bestMatch bestScore
      else
        let elText := normalizeText u (textContent (node el)) in
        if bool_decide (elText = normalizedTarget) then (Some el, 1%Q)
        else
          let similarity := textSimilarity elText normalizedTarget in
          if Qgtb similarity threshold && Qgtb similarity bestScore
          then scanCandidates usedElements normalizedTarget rest (Some el) similarity
          else scanCandidates usedElements normalizedTarget rest bestMatch bestScore
  end.

(** The [while (parent && parent !== document.body)] loop, entered with
    a non-null [parent]. *)
Fixpoint markAncestors (parent : ElemRef) (usedElements : gset ElemRef)
    : gset ElemRef :=
  if bool_decide (body doc = Some parent) then usedElements
  else
    match parent with
    | [] => {[ parent ]} ∪ usedElements
    | _ :: up => markAncestors up ({[ parent ]} ∪ usedElements)
    end.

Definition markMatched (bestMatch : Element) (usedElements : gset ElemRef)
    : gset ElemRef :=
  let used := {[ ref bestMatch ]} ∪ usedElements in
  match parentElement (ref bestMatch) with
  | None => used
  | Some parent => markAncestors parent used
  end.

(** One turn of the loop over the text blocks. *)
Definition matchBlock (st : list Element * gset ElemRef) (targetText : jstring)
    : list Element * gset ElemRef :=
  let '(found, usedElements) := st in
  let normalizedTarget := normalizeText u targetText in
  match fst (scanCandidates usedElements normalizedTarget candidates None 0%Q) with
  | Some bestMatch => (found ++ [bestMatch], markMatched bestMatch usedElements)
  | None => (found, usedElements)
  end.

Definition findOriginalElementsByText (textBlocks : list jstring) : list Element :=
  fst (foldl matchBlock ([], ∅) textBlocks).

(** The two tests of the scan, for a candidate and a normalized target. *)
Definition exactMatch (target : jstring) (el : Element) : Prop :=
  normalizeText u (textContent (node el)) = target.

Definition scoreOf (target : jstring) (el : Element) : Q :=
  textSimilarity (normalizeText u (textContent (node el))) target.
End Matcher.

#[global] Instance exactMatch_dec u target el : Decision (exactMatch u target el).
Proof. unfold exactMatch. apply _. Defined.

(** The ancestors of an element: the elements strictly above it. *)
Definition isAncestorOf (a d : ElemRef) : Prop :=
  exists down, down <> [] /\ d = down ++ a.

(** [a] is an ancestor of [d] up to (excluding) the body: no element from
    the parent of [d] up to [a] is the body of the document. *)
Definition ancestorBelowBody (doc : Node) (a d : ElemRef) : Prop :=
  isAncestorOf a d
  /\ forall x, isAncestorOf x d -> x = a \/ isAncestorOf a x -> body doc <> Some x.

(** A candidate the scan does not skip. *)
Definition eligible (usedElements : gset ElemRef) (el : Element) : bool :=
  negb (bool_decide (ref el ∈ usedElements)) && negb (isContainerElement el).

(** What holds of the elements found and of the set of used elements
    between two turns of the loop over the blocks. *)
Record MatchInv (doc : Node) (found : list Element) (used : gset ElemRef)
    : Prop := {
  inv_candidate : forall d, d ∈ found -> d ∈ candidates doc;
  inv_nodup : NoDup (ref <$> found);
  inv_used : forall d, d ∈ found ->
      ref d ∈ used /\ forall a, ancestorBelowBody doc a (ref d) -> a ∈ used;
  inv_order : forall i j d a, (i < j)%nat ->
      found !! i = Some d -> found !! j = Some a ->
      ~ isAncestorOf (ref a) (ref d)
}.

(** A small page: two paragraphs in a wrapper, and the text of the first
    once more in a span of its own wrapper. *)
Definition sampleText1 : jstring :=
  utf16 "Der Hund lauft schnell durch den grossen Park.".
Definition sampleText2 : jstring :=
  utf16 "Die Katze schlaft den ganzen Tag auf dem Sofa.".
Definition samplePage : Node :=
  Elem "HTML" [Elem "HEAD" [];
    Elem "BODY" [
      Elem "DIV" [Elem "P" [TextN sampleText1]; Elem "P" [TextN sampleText2]];
      Elem "DIV" [Elem "SPAN" [TextN sampleText1]]]].

End Matcher.

(** ** The page state and the reversible rewrite *)

Module Page.
Import Dom Render.

(** A block whose two fields are strings.  What the message of the
    worker may hold instead is [ReceivedBlock], below. *)
Record Block := { original : jstring; translated : jstring }.

(** What the script can change on an element.  [content = None] means
    the element still has the children the page tree gives it;
    [Some kids] are children the script has put in their place. *)
Record ElState := {
  content : option (list Child);
  classList : list string;
  dataset : gmap string jstring;
  listeners : list (string * Handler)
}.

Definition pristine : ElState :=
  {| content := None; classList := []; dataset := ∅; listeners := [] |}.

Record Session := { elements : list ElemRef; originals : list jstring }.

Inductive BarType := info | success | warning.

Inductive Notice :=
| PageAlreadyTranslated
| TranslatedParagraphs (n : nat)
| TranslatedWithFailures (n failedBatches totalBatches : nat)
| OriginalRestored.

Record FloatingBar := {
  bar_message : Notice;
  bar_type : BarType;
  bar_restoreButton : bool
}.

Inductive ErrorHint := TryAgainLater | AddApiKey | RateLimited | KeyMayBeInvalid.

Inductive OverlayText :=
| NoContentFound
| NoReadableContent
| CouldNotMatchContent
| Translating (paragraphs : nat)
| TranslationError (message : jstring) (hint : ErrorHint) (showSettings : bool).

Record Tooltip := { tooltip_anchor : ElemRef; tooltip_html : jstring }.

Inductive TimerAction := HideFloatingBar.

Record State := {
  doc : Node;
  dom : gmap ElemRef ElState;
  translationState : option Session;
  activeTooltip : option Tooltip;
  activeOverlay : option OverlayText;
  activeFloatingBar : option FloatingBar;
  currentClickedWord : option (ElemRef * nat);
  browserTranslator : option nat;
  browserTranslatorInitialized : bool;
  translatorLanguages : option (jstring * jstring);
  isModifierHeld : bool;
  hoveredSentence : option ElemRef;
  timers : list (nat * TimerAction)
}.

Definition set_dom (d : gmap ElemRef ElState) (st : State) : State :=
  {| doc := doc st; dom := d; translationState := translationState st;
     activeTooltip := activeTooltip st; activeOverlay := activeOverlay st;
     activeFloatingBar := activeFloatingBar st;
     currentClickedWord := currentClickedWord st;
     browserTranslator := browserTranslator st;
     browserTranslatorInitialized := browserTranslatorInitialized st;
     translatorLanguages := translatorLanguages st;
     isModifierHeld := isModifierHeld st;
     hoveredSentence := hoveredSentence st; timers := timers st |}.

Definition set_translationState (s : option Session) (st : State) : State :=
  {| doc := doc st; dom := dom st; translationState := s;
     activeTooltip := activeTooltip st; activeOverlay := activeOverlay st;
     activeFloatingBar := activeFloatingBar st;
     currentClickedWord := currentClickedWord st;
     browserTranslator := browserTranslator st;
     browserTranslatorInitialized := browserTranslatorInitialized st;
     translatorLanguages := translatorLanguages st;
     isModifierHeld := isModifierHeld st;
     hoveredSentence := hoveredSentence st; timers := timers st |}.

Definition set_tooltip (t : option Tooltip) (w : option (ElemRef * nat))
    (st : State) : State :=
  {| doc := doc st; dom := dom st; translationState := translationState st;
     activeTooltip := t; activeOverlay := activeOverlay st;
     activeFloatingBar := activeFloatingBar st;
     currentClickedWord := w;
     browserTranslator := browserTranslator st;
     browserTranslatorInitialized := browserTranslatorInitialized st;
     translatorLanguages := translatorLanguages st;
     isModifierHeld := isModifierHeld st;
     hoveredSentence := hoveredSentence st; timers := timers st |}.

Definition set_overlay (o : option OverlayText) (st : State) : State :=
  {| doc := doc st; dom := dom st; translationState := translationState st;
     activeTooltip := activeTooltip st; activeOverlay := o;
     activeFloatingBar := activeFloatingBar st;
     currentClickedWord := currentClickedWord st;
     browserTranslator := browserTranslator st;
     browserTranslatorInitialized := browserTranslatorInitialized st;
     translatorLanguages := translatorLanguages st;
     isModifierHeld := isModifierHeld st;
     hoveredSentence := hoveredSentence st; timers := timers st |}.

Definition set_floatingBar (b : option FloatingBar) (st : State) : State :=
  {| doc := doc st; dom := dom st; translationState := translationState st;
     activeTooltip := activeTooltip st; activeOverlay := activeOverlay st;
     activeFloatingBar := b;
     currentClickedWord := currentClickedWord st;
     browserTranslator := browserTranslator st;
     browserTranslatorInitialized := browserTranslatorInitialized st;
     translatorLanguages := translatorLanguages st;
     isModifierHeld := isModifierHeld st;
     hoveredSentence := hoveredSentence st; timers := timers st |}.

Definition set_translator (t : option nat) (initialized : bool)
    (languages : option (jstring * jstring)) (st : State) : State :=
  {| doc := doc st; dom := dom st; translationState := translationState st;
     activeTooltip := activeTooltip st; activeOverlay := activeOverlay st;
     activeFloatingBar := activeFloatingBar st;
     currentClickedWord := currentClickedWord st;
     browserTranslator := t;
     browserTranslatorInitialized := initialized;
     translatorLanguages := languages;
     isModifierHeld := isModifierHeld st;
     hoveredSentence := hoveredSentence st; timers := timers st |}.

Definition set_hoveredSentence (h : option ElemRef) (st : State) : State :=
  {| doc := doc st; dom := dom st; translationState := translationState st;
     activeTooltip := activeTooltip st; activeOverlay := activeOverlay st;
     activeFloatingBar := activeFloatingBar st;
     currentClickedWord := currentClickedWord st;
     browserTranslator := browserTranslator st;
     browserTranslatorInitialized := browserTranslatorInitialized st;
     translatorLanguages := translatorLanguages st;
     isModifierHeld := isModifierHeld st;
     hoveredSentence := h; timers := timers st |}.

Definition set_timers (ts : list (nat * TimerAction)) (st : State) : State :=
  {| doc := doc st; dom := dom st; translationState := translationState st;
     activeTooltip := activeTooltip st; activeOverlay := activeOverlay st;
     activeFloatingBar := activeFloatingBar st;
     currentClickedWord := currentClickedWord st;
     browserTranslator := browserTranslator st;
     browserTranslatorInitialized := browserTranslatorInitialized st;
     translatorLanguages := translatorLanguages st;
     isModifierHeld := isModifierHeld st;
     hoveredSentence := hoveredSentence st; timers := ts |}.

Definition set_modifier (held : bool) (st : State) : State :=
  {| doc := doc st; dom := dom st; translationState := translationState st;
     activeTooltip := activeTooltip st; activeOverlay := activeOverlay st;
     activeFloatingBar := activeFloatingBar st;
     currentClickedWord := currentClickedWord st;
     browserTranslator := browserTranslator st;
     browserTranslatorInitialized := browserTranslatorInitialized st;
     translatorLanguages := translatorLanguages st;
     isModifierHeld := held;
     hoveredSentence := hoveredSentence st; timers := timers st |}.

(** *** Element operations *)

Definition getEl (d : gmap ElemRef ElState) (el : ElemRef) : ElState :=
  default pristine (d !! el).

Definition setChildren (el : ElemRef) (kids : list Child)
    (d : gmap ElemRef ElState) : gmap ElemRef ElState :=
  let e := getEl d el in
  <[el := {| content := Some kids; classList := classList e;
             dataset := dataset e; listeners := listeners e |}]> d.

(** [el.textContent = s]: the children give way to one text node, or to
    none when [s] is empty. *)
Definition setTextContent (el : ElemRef) (s : jstring)
    (d : gmap ElemRef ElState) : gmap ElemRef ElState :=
  setChildren el (match s with [] => [] | _ :: _ => [TextNode s] end) d.

Definition setClassList (el : ElemRef) (f : list string -> list string)
    (d : gmap ElemRef ElState) : gmap ElemRef ElState :=
  let e := getEl d el in
  <[el := {| content := content e; classList := f (classList e);
             dataset := dataset e; listeners := listeners e |}]> d.

Definition classList_add (c : string) (l : list string) : list string :=
  if bool_decide (c ∈ l) then l else l ++ [c].

Definition classList_remove (c : string) (l : list string) : list string :=
  filter (fun x => x <> c) l.

Definition setDataset (el : ElemRef)
    (f : gmap string jstring -> gmap string jstring)
    (d : gmap ElemRef ElState) : gmap ElemRef ElState :=
  let e := getEl d el in
  <[el := {| content := content e; classList := classList e;
             dataset := f (dataset e); listeners := listeners e |}]> d.

Definition setListeners (el : ElemRef)
    (f : list (string * Handler) -> list (string * Handler))
    (d : gmap ElemRef ElState) : gmap ElemRef ElState :=
  let e := getEl d el in
  <[el := {| content := content e; classList := classList e;
             dataset := dataset e; listeners := f (listeners e) |}]> d.

Definition addEventListener (type : string) (h : Handler)
    (l : list (string * Handler)) : list (string * Handler) :=
  if bool_decide ((type, h) ∈ l) then l else l ++ [(type, h)].

Definition removeEventListener (type : string) (h : Handler)
    (l : list (string * Handler)) : list (string * Handler) :=
  filter (fun x => x <> (type, h)) l.

(** [el.textContent] read on the live page: the text of the children the
    script has put under an element, else the text of the children the
    tree gives it, each read the same way. *)
Fixpoint liveText (d : gmap ElemRef ElState) (r : ElemRef) (n : Node) : jstring :=
  match n with
  | TextN s => s
  | Elem _ kids =>
      match d !! r ≫= content with
      | Some cs => flat_map childText cs
      | None => flatMapFrom (fun i k => liveText d (i :: r) k) 0%nat kids
      end
  end.

Definition textContent (page : Node) (d : gmap ElemRef ElState)
    (el : ElemRef) : jstring :=
  match nodeAt page el with
  | Some n => liveText d el n
  | None => []
  end.

Section Rewriter.
Variable u : UnicodeData.

(** The body of the loop of [applyTranslations] for one index. *)
Definition applyStep (page : Node)
    (acc : gmap ElemRef ElState * list jstring) (p : ElemRef * Block)
    : gmap ElemRef ElState * list jstring :=
  let '(d, originals) := acc in
  let '(el, block) := p in
  let originals := originals ++ [textContent page d el] in
  let d := setDataset el (insert "vakyaOriginal"%string (textContent page d el)) d in
  let d := setDataset el (insert "vakyaContext"%string (original block)) d in
  let d := setClassList el (classList_add "vakya-translated") d in
  let text := match translated block with
              | [] => original block
              | _ :: _ => translated block
              end in
  let d := setChildren el (renderTranslatedBlock u text) d in
  let d := setListeners el (addEventListener "click" handleSentenceClick) d in
  (d, originals).

Definition applyTranslations (els : list ElemRef) (blocks : list Block)
    (st : State) : State :=
  let count := min (length els) (length blocks) in
  let '(d, originals) :=
    foldl (applyStep (doc st)) (dom st, [])
          (zip (take count els) (take count blocks)) in
  set_translationState
    (Some {| elements := take count els; originals := originals |})
    (set_dom d st).
End Rewriter.

Definition hideTooltip (st : State) : State := set_tooltip None None st.

Definition hideFloatingBar (st : State) : State := set_floatingBar None st.

Definition hideOverlay (st : State) : State := set_overlay None st.

Definition showOverlay (o : OverlayText) (st : State) : State :=
  set_overlay (Some o) (hideOverlay st).

Definition showFloatingBar (message : Notice) (type : BarType) (st : State) : State :=
  let st := hideFloatingBar st in
  let hasTranslation := bool_decide (is_Some (translationState st)) in
  let st := set_floatingBar
              (Some {| bar_message := message; bar_type := type;
                       bar_restoreButton := hasTranslation |}) st in
  match type with
  | success =>
      if hasTranslation then st
      else set_timers (timers st ++ [(3000%nat, HideFloatingBar)]) st
  | _ => st
  end.

Definition clearSentenceHover (st : State) : State :=
  match hoveredSentence st with
  | Some el =>
      set_hoveredSentence None
        (set_dom (setClassList el (classList_remove "vakya-sentence-hover") (dom st)) st)
  | None => st
  end.

(** [updateSentenceHoverAtPoint]; [translatedEl] is what
    [elementFromPoint(x, y)?.closest('.vakya-translated')] finds. *)
Definition updateSentenceHoverAtPoint (translatedEl : option ElemRef)
    (st : State) : State :=
  match translatedEl with
  | Some el =>
      if bool_decide (hoveredSentence st = Some el) then st
      else
        let st := clearSentenceHover st in
        set_hoveredSentence (Some el)
          (set_dom (setClassList el (classList_add "vakya-sentence-hover") (dom st)) st)
  | None => clearSentenceHover st
  end.

(** The [keydown] listener for the Meta and Control keys. *)
Definition onModifierKeyDown (translatedEl : option ElemRef) (st : State) : State :=
  if isModifierHeld st then st
  else updateSentenceHoverAtPoint translatedEl (set_modifier true st).

(** The [keyup] listener for these keys, and the [blur] listener. *)
Definition onModifierRelease (st : State) : State :=
  clearSentenceHover (set_modifier false st).

(** The stored original of the nearest element, from [r] upwards, that
    has one: [el.dataset?.vakyaOriginal ||
    el.closest('[data-vakya-original]')?.dataset.vakyaOriginal || '']. *)
Fixpoint closestOriginal (d : gmap ElemRef ElState) (r : ElemRef) : jstring :=
  match dataset (getEl d r) !! "vakyaOriginal"%string with
  | Some v => v
  | None =>
      match r with
      | [] => []
      | _ :: up => closestOriginal d up
      end
  end.

(** [showOriginalTooltip]; the tooltip is kept as its anchor and the
    text it shows. *)
Definition showOriginalTooltip (el : ElemRef) (st : State) : State :=
  let st := hideTooltip st in
  set_tooltip (Some {| tooltip_anchor := el;
                       tooltip_html := closestOriginal (dom st) el |})
              (currentClickedWord st) st.

(** The click listener [handleSentenceClick] of a translated element. *)
Definition onSentenceClick (el : ElemRef) (st : State) : State :=
  if isModifierHeld st then showOriginalTooltip el st else st.

(** The callback of [translationState.elements.forEach]. *)
Definition restoreStep (sess : Session) (d : gmap ElemRef ElState)
    (p : nat * ElemRef) : gmap ElemRef ElState :=
  let '(i, el) := p in
  let d := setListeners el (removeEventListener "click" handleSentenceClick) d in
  let d := setTextContent el (default [] (originals sess !! i)) d in
  let d := setClassList el (classList_remove "vakya-translated") d in
  let d := setDataset el (delete "vakyaOriginal"%string) d in
  setDataset el (delete "vakyaContext"%string) d.

Definition restoreOriginal (st : State) : State :=
  match translationState st with
  | None => st
  | Some sess =>
      let d := foldl (restoreStep sess) (dom st) (imap pair (elements sess)) in
      let st := set_dom d st in
      let st := set_translationState None st in
      let st := set_translator None false None st in
      let st := hideTooltip st in
      let st := hideFloatingBar st in
      let st := showFloatingBar OriginalRestored info st in
      set_timers (timers st ++ [(2000%nat, HideFloatingBar)]) st
  end.

(** *** Translating the page *)

(** The page as it stands, for the functions that only read it. *)
Definition childNode (k : Child) : Node :=
  match k with
  | SpanNode sp => Elem "SPAN" [TextN (span_textContent sp)]
  | TextNode s => TextN s
  end.

Fixpoint liveTree (d : gmap ElemRef ElState) (r : ElemRef) (n : Node) : Node :=
  match n with
  | TextN _ => n
  | Elem t kids =>
      match d !! r ≫= content with
      | Some cs => Elem t (childNode <$> cs)
      | None => Elem t (mapFrom (fun i k => liveTree d (i :: r) k) 0%nat kids)
      end
  end.

(** What [Readability.parse] hands back: the article's markup, parsed,
    and its length. *)
Record Article := { article_content : option Node; article_length : nat }.

Record Settings := { nativeLanguage : jstring; targetLanguage : jstring }.

(** The field [original] of a block of the reply, as the script reads
    it. *)
Inductive ReceivedOriginal :=
| OriginalText (text : jstring)      (* a string *)
| OriginalAbsent                     (* missing, [null] or another falsy value *)
| OriginalOther (shown : jstring).   (* a truthy value that is no string;
                                        [shown] is what it converts to *)

(** A block of the reply.  The worker always sets [translated] to a
    string; [original] is whatever the model has answered. *)
Record ReceivedBlock := {
  received_original : ReceivedOriginal;
  received_translated : jstring
}.

(** [block.original || ''], as [dataset.vakyaContext] keeps it. *)
Definition contextOf (block : ReceivedBlock) : jstring :=
  match received_original block with
  | OriginalText text => text
  | OriginalAbsent => []
  | OriginalOther shown => shown
  end.

(** [block.translated || block.original] when that is a string; [None]
    when it is not, so that [text.split] throws. *)
Definition textToRender (block : ReceivedBlock) : option jstring :=
  match received_translated block with
  | _ :: _ => Some (received_translated block)
  | [] =>
      match received_original block with
      | OriginalText text => Some text
      | _ => None
      end
  end.

(** A block of the reply read as a block of two strings. *)
Definition asBlock (block : ReceivedBlock) : Block :=
  {| original := contextOf block; translated := received_translated block |}.

Inductive Response :=
| ResponseOk (blocks : list ReceivedBlock) (failedBatches totalBatches : nat)
| ResponseNotOk (error : jstring)
| SendThrows (message : jstring).

Inductive Outcome :=
| Finished
| AwaitingTranslation (originalElements : list Element)
                      (textsToTranslate : list jstring).

Definition readableTags : list string :=
  ["P"; "H1"; "H2"; "H3"; "H4"; "H5"; "H6"; "LI"; "BLOCKQUOTE"]%string.

(** [parsed] is [None] when the parser returns null or throws. *)
Definition extractWithReadability (parsed : option Article) : option Node :=
  match parsed with
  | None => None
  | Some article =>
      match article_content article with
      | None => None
      | Some content =>
          if (article_length article <? 100)%nat then None else Some content
      end
  end.

Definition extractTextBlocksFromReadability (content : Node) : list jstring :=
  filter (fun text => (30 < length text)%nat)
         ((fun el => trim (Dom.textContent (node el)))
            <$> querySelectorAll readableTags content).

Definition handleTranslationError (message : jstring) (st : State) : State :=
  let message := match message with
                 | [] => utf16 "Translation failed"
                 | _ :: _ => message
                 end in
  if includes (utf16 "API key") message
  then showOverlay (TranslationError message AddApiKey true) st
  else if includes (utf16 "429") message || includes (utf16 "rate") message
  then showOverlay (TranslationError message RateLimited false) st
  else if includes (utf16 "401") message || includes (utf16 "Invalid") message
  then showOverlay (TranslationError message KeyMayBeInvalid true) st
  else showOverlay (TranslationError message TryAgainLater false) st.

(** The nodes the script has appended to [document.body] (the overlay,
    the notice, the tooltip), put after the children of the body of
    [page]. *)
Definition appendChildren (nodes : list Node) (n : Node) : Node :=
  match n with
  | TextN _ => n
  | Elem t kids => Elem t (kids ++ nodes)
  end.

Definition appendToBody (page : Node) (nodes : list Node) : Node :=
  match page, body page with
  | Elem t kids, Some [i] => Elem t (alter (appendChildren nodes) i kids)
  | _, _ => page
  end.

Section TranslatePage.
Variable u : UnicodeData.

(** The loop of [applyTranslations] on the blocks of the reply, from
    some index on; the flag tells whether [renderTranslatedBlock] has
    thrown, which it does after it has emptied the element. *)
Fixpoint applyLoop (page : Node) (ps : list (ElemRef * ReceivedBlock))
    (acc : gmap ElemRef ElState * list jstring)
    : gmap ElemRef ElState * list jstring * bool :=
  match ps with
  | [] => (acc, false)
  | (el, block) :: rest =>
      let '(d, originals) := acc in
      let originals := originals ++ [textContent page d el] in
      let d := setDataset el (insert "vakyaOriginal"%string (textContent page d el)) d in
      let d := setDataset el (insert "vakyaContext"%string (contextOf block)) d in
      let d := setClassList el (classList_add "vakya-translated") d in
      match textToRender block with
      | None => (setTextContent el [] d, originals, true)
      | Some text =>
          let d := setChildren el (renderTranslatedBlock u text) d in
          let d := setListeners el (addEventListener "click" handleSentenceClick) d in
          applyLoop page rest (d, originals)
      end
  end.

(** [applyTranslations] on the blocks of the reply.  When the loop
    throws, the session is not assigned. *)
Definition applyTranslationsOrThrow (els : list ElemRef)
    (blocks : list ReceivedBlock) (st : State) : State * bool :=
  let count := min (length els) (length blocks) in
  let '(d, originals, threw) :=
    applyLoop (doc st) (zip (take count els) (take count blocks)) (dom st, []) in
  if threw then (set_dom d st, true)
  else (set_translationState
          (Some {| elements := take count els; originals := originals |})
          (set_dom d st), false).

(** [translatePage] up to its first suspension; [scriptNodes] are the
    nodes the script has in the body of the document at that time, which
    [document.querySelectorAll] finds like any other. *)
Definition translatePage (parsed : option Article) (scriptNodes : list Node)
    (st : State) : State * Outcome :=
  if bool_decide (is_Some (translationState st))
  then (showFloatingBar PageAlreadyTranslated info st, Finished)
  else
    match extractWithReadability parsed with
    | None => (showOverlay NoContentFound st, Finished)
    | Some content =>
        let textBlocks := extractTextBlocksFromReadability content in
        if (length textBlocks =? 0)%nat
        then (showOverlay NoReadableContent st, Finished)
        else
          let originalElements :=
            Matcher.findOriginalElementsByText u
              (appendToBody (liveTree (dom st) [] (doc st)) scriptNodes)
              textBlocks in
          if (length originalElements =? 0)%nat
          then (showOverlay CouldNotMatchContent st, Finished)
          else
            (showOverlay (Translating (length originalElements)) st,
             AwaitingTranslation originalElements
               ((fun el => trim (Dom.textContent (node el)))
                  <$> originalElements))
    end.

(** [translatePage] from the reply of the background worker on; the
    settings read after the rewrite are passed in, and so is the message
    of the error the engine throws for [text.split] on a value without
    that method.  The state keeps the texts of the elements of the page
    only: what is said of the text of a matched element is said of
    those. *)
Definition translatePageResume (response : Response) (settings : Settings)
    (splitError : jstring) (originalElements : list Element) (st : State)
    : State :=
  match response with
  | ResponseOk blocks failedBatches totalBatches =>
      let st := hideOverlay st in
      let '(st, threw) :=
        applyTranslationsOrThrow (ref <$> originalElements) blocks st in
      if threw then handleTranslationError splitError st
      else
        let st := set_translator (browserTranslator st)
                    (browserTranslatorInitialized st)
                    (Some (targetLanguage settings, nativeLanguage settings)) st in
        if (0 <? failedBatches)%nat
        then showFloatingBar
               (TranslatedWithFailures (length originalElements)
                  failedBatches totalBatches) warning st
        else showFloatingBar
               (TranslatedParagraphs (length originalElements)) success st
  | ResponseNotOk error => handleTranslationError error st
  | SendThrows message => handleTranslationError message st
  end.
End TranslatePage.

(** *** Notions used in the statements *)

(** The element as one turn of the loop of [applyTranslations] leaves it;
    [text] is its text content before the turn. *)
Definition appliedElement (u : UnicodeData) (block : Block) (text : jstring)
    (e : ElState) : ElState :=
  {| content := Some (renderTranslatedBlock u
                        (match translated block with
                         | [] => original block
                         | _ :: _ => translated block
                         end));
     classList := classList_add "vakya-translated" (classList e);
     dataset := <["vakyaContext"%string := original block]>
                  (<["vakyaOriginal"%string := text]> (dataset e));
     listeners := addEventListener "click" handleSentenceClick (listeners e) |}.

(** The element as the callback of [restoreOriginal] leaves it. *)
Definition restoredElement (orig : jstring) (e : ElState) : ElState :=
  {| content := Some (match orig with [] => [] | _ :: _ => [TextNode orig] end);
     classList := classList_remove "vakya-translated" (classList e);
     dataset := delete "vakyaContext"%string
                  (delete "vakyaOriginal"%string (dataset e));
     listeners := removeEventListener "click" handleSentenceClick (listeners e) |}.

(** The element as the turn of the loop that throws leaves it: marked
    and emptied, without the listener. *)
Definition strandedElement (block : ReceivedBlock) (text : jstring)
    (e : ElState) : ElState :=
  {| content := Some [];
     classList := classList_add "vakya-translated" (classList e);
     dataset := <["vakyaContext"%string := contextOf block]>
                  (<["vakyaOriginal"%string := text]> (dataset e));
     listeners := listeners e |}.

(** Each of the first [count] blocks has a text to render. *)
Definition rendersText (count : nat) (blocks : list ReceivedBlock) : Prop :=
  Forall (fun block => is_Some (textToRender block)) (take count blocks).

(** No element of the list is an element listed before it, nor an
    ancestor of one. *)
Definition laterNotAbove (els : list ElemRef) : Prop :=
  forall i j a b, (i < j)%nat -> els !! i = Some a -> els !! j = Some b ->
    b <> a /\ ~ Matcher.isAncestorOf b a.

(** The sample page before any translation, its first paragraph, and two
    translated blocks. *)
Definition sampleState : State :=
  {| doc := Matcher.samplePage; dom := ∅; translationState := None;
     activeTooltip := None; activeOverlay := None; activeFloatingBar := None;
     currentClickedWord := None; browserTranslator := None;
     browserTranslatorInitialized := false; translatorLanguages := None;
     isModifierHeld := false; hoveredSentence := None; timers := [] |}.

Definition sampleParagraph : ElemRef := [0; 0; 1]%nat.
Definition sampleParagraph2 : ElemRef := [1; 0; 1]%nat.

Definition sampleBlock1 : Block :=
  {| original := Matcher.sampleText1;
     translated := utf16 "The dog runs quickly through the large park." |}.
Definition sampleBlock2 : Block :=
  {| original := Matcher.sampleText2;
     translated := utf16 "The cat sleeps on the sofa all day." |}.

Definition translatedState : State :=
  applyTranslations latin_ucd [sampleParagraph; sampleParagraph2]
    [sampleBlock1; sampleBlock2] sampleState.

(** The sample page translated, then the modifier key pressed while the
    pointer is over the first paragraph, then that paragraph clicked. *)
Definition hoveringState : State :=
  onSentenceClick sampleParagraph
    (onModifierKeyDown (Some sampleParagraph) translatedState).

End Page.

(** ** The background worker: translating the blocks in batches *)

Module Background.

(** A block as the worker returns it. *)
Record TBlock := { original : option jstring; translated : jstring }.

(** An entry of [parsed.blocks]; [reply_translated] is [None] when the
    field is missing or empty. *)
Record ReplyBlock := {
  reply_original : option jstring;
  reply_translated : option jstring
}.

(** How the request of one batch ends. *)
Inductive FetchOutcome :=
| FetchRejects                 (* network failure, or the abort after 120 s *)
| HttpError (status : nat)     (* [!response.ok] *)
| BodyUnreadable               (* [response.json()] rejects *)
| EmptyContent                 (* no [choices[0].message.content] *)
| ContentNotJson               (* [JSON.parse] throws *)
| BlocksUnusable               (* [parsed.blocks] cannot be mapped *)
| Reply (blocks : list ReplyBlock).

(** [s.replace(/^#\d+:\s*/, '')]. *)
Definition stripNumberPrefix (s : jstring) : jstring :=
  match s with
  | 35 :: r =>
      let '(digits, r') := span isDigit r in
      match digits, r' with
      | _ :: _, 58 :: r'' => snd (span isWhiteSpace r'')
      | _, _ => s
      end
  | _ => s
  end.

Record BatchResult := { blocks : list TBlock; failed : bool }.

Definition cleanBlock (block : ReplyBlock) : TBlock :=
  {| original := reply_original block;
     translated := stripNumberPrefix (default [] (reply_translated block)) |}.

(** [translateBatch]: every way the request can go wrong ends in the
    [catch], which hands the batch back untranslated. *)
Definition translateBatch (batch : list jstring) (outcome : FetchOutcome)
    : BatchResult :=
  match outcome with
  | Reply replyBlocks =>
      {| blocks := cleanBlock <$> replyBlocks; failed := false |}
  | _ =>
      {| blocks := (fun b => {| original := Some b; translated := b |}) <$> batch;
         failed := true |}
  end.

(** The loop [for (i = 0; i < blocks.length; i += 2) batches.push(blocks.slice(i, i + 2))]. *)
Fixpoint makeBatches (blocks : list jstring) : list (list jstring) :=
  match blocks with
  | [] => []
  | [a] => [[a]]
  | a :: b :: rest => [a; b] :: makeBatches rest
  end.

Record TranslationResult := {
  result_blocks : list TBlock;
  failedBatches : nat;
  totalBatches : nat
}.

(** The state the callbacks of [Promise.all] share: the counter, and the
    slot of each batch. *)
Record Progress := {
  failedCount : nat;
  results : list (option (list TBlock))
}.

(** The callback of batch [index] runs to its end once its request has. *)
Definition settle (batches : list (list jstring)) (outcome : nat -> FetchOutcome)
    (pr : Progress) (index : nat) : Progress :=
  match batches !! index with
  | None => pr
  | Some batch =>
      let result := translateBatch batch (outcome index) in
      {| failedCount := if failed result then S (failedCount pr)
                        else failedCount pr;
         results := <[index := Some (blocks result)]> (results pr) |}
  end.

Inductive Completion :=
| Throws (message : string)
| Pending
| Returns (r : TranslationResult).

(** [handleTranslationRequest]; [order] is the order in which the
    requests of the batches end. *)
Definition handleTranslationRequest (apiKey : jstring) (blocks : list jstring)
    (outcome : nat -> FetchOutcome) (order : list nat) : Completion :=
  match apiKey with
  | [] => Throws "Missing OpenAI API key. Set it in the options page."
  | _ :: _ =>
      let batches := makeBatches blocks in
      let totalBatches := length batches in
      let pr := foldl (settle batches outcome)
                      {| failedCount := 0; results := replicate totalBatches None |}
                      order in
      match mapM id (results pr) with
      | None => Pending
      | Some rs =>
          Returns {| result_blocks := concat rs;
                     failedBatches := failedCount pr;
                     totalBatches := totalBatches |}
      end
  end.

(** The batches that end in the [catch]. *)
Definition batchFails (o : FetchOutcome) : bool :=
  match o with
  | Reply _ => false
  | _ => true
  end.

(** A failed batch, as handed back: each block with itself as its
    translation. *)
Definition untranslated (batch : list jstring) : list TBlock :=
  (fun b => {| original := Some b; translated := b |}) <$> batch.

(** Three blocks, hence two batches; the first request is answered, the
    second is rejected, and the second ends first. *)
Definition sampleBlocks : list jstring :=
  [utf16 "Erster Absatz"; utf16 "Zweiter Absatz"; utf16 "Dritter Absatz"].

Definition sampleOutcome (index : nat) : FetchOutcome :=
  match index with
  | O => Reply [ {| reply_original := Some (utf16 "Erster Absatz");
                    reply_translated := Some (utf16 "#1: First paragraph") |};
                 {| reply_original := Some (utf16 "Zweiter Absatz");
                    reply_translated := Some (utf16 "Second paragraph") |} ]
  | _ => FetchRejects
  end.

End Background.


(** ** Clicking a word *)

Module Interaction.
Import Dom Render Page.

(** A word span of the page: the translated element it lies in and its
    index among the children of that element. *)
Abbreviation SpanRef := (list nat * nat)%type.

Definition spanAt (d : gmap ElemRef ElState) (span : SpanRef) : option WordSpan :=
  match content (getEl d span.1) with
  | Some kids =>
      match kids !! span.2 with
      | Some (SpanNode sp) => Some sp
      | _ => None
      end
  | None => None
  end.

(** [span.dataset.word || span.textContent]. *)
Definition wordOf (d : gmap ElemRef ElState) (span : SpanRef) : jstring :=
  match spanAt d span with
  | Some sp =>
      match span_word sp with
      | [] => span_textContent sp
      | _ :: _ => span_word sp
      end
  | None => []
  end.

(** What the tooltip of a word shows; as for [showOriginalTooltip] the
    markup is kept as the texts the template is filled with, one per
    line. *)
Inductive TooltipView :=
| SettingUpTranslator (word : jstring)
| TranslatingWord (word : jstring)
| WordTranslation (word translation : jstring)
| AnalyzeOnly (word : jstring).

Definition viewText (v : TooltipView) : jstring :=
  match v with
  | SettingUpTranslator w => w ++ 10 :: utf16 "Setting up translator..."
  | TranslatingWord w => w ++ 10 :: utf16 "Translating..."
  | WordTranslation w t => w ++ 10 :: t ++ 10 :: utf16 "Analyze Word"
  | AnalyzeOnly w => w ++ 10 :: utf16 "Analyze Word"
  end.

(** [createTooltip(content, span)]. *)
Definition createTooltip (content : jstring) (span : SpanRef) (st : State) : State :=
  set_tooltip (Some {| tooltip_anchor := span.1; tooltip_html := content |})
              (currentClickedWord st) st.

(** [activeTooltip.innerHTML = content], with a tooltip open. *)
Definition setTooltipHtml (content : jstring) (st : State) : State :=
  match activeTooltip st with
  | Some t =>
      set_tooltip (Some {| tooltip_anchor := tooltip_anchor t;
                           tooltip_html := content |})
                  (currentClickedWord st) st
  | None => st
  end.

(** Where [showWordTooltip] stands when it gives control back. *)
Inductive WordFlow :=
| FlowDone
| AwaitInit (span : SpanRef) (word : jstring)
| AwaitTranslate (span : SpanRef) (word : jstring).

(** The end of [showWordTooltip]: the word with the Analyze button only. *)
Definition offerAnalysis (span : SpanRef) (word : jstring) (st : State) : State :=
  match activeTooltip st with
  | Some _ => setTooltipHtml (viewText (AnalyzeOnly word)) st
  | None => createTooltip (viewText (AnalyzeOnly word)) span st
  end.

(** [showWordTooltip] from [if (browserTranslator)] to the next
    suspension. *)
Definition translateOrOffer (span : SpanRef) (word : jstring) (st : State)
    : State * WordFlow :=
  match browserTranslator st with
  | Some _ =>
      (match activeTooltip st with
       | None => createTooltip (viewText (TranslatingWord word)) span st
       | Some _ => setTooltipHtml (viewText (TranslatingWord word)) st
       end,
       AwaitTranslate span word)
  | None => (offerAnalysis span word st, FlowDone)
  end.

(** [showWordTooltip] up to its first suspension. *)
Definition showWordTooltip (span : SpanRef) (st : State) : State * WordFlow :=
  let st := hideTooltip st in
  let word := wordOf (dom st) span in
  if negb (browserTranslatorInitialized st)
     && bool_decide (is_Some (translatorLanguages st))
  then
    let st := set_translator (browserTranslator st) true (translatorLanguages st) st in
    (createTooltip (viewText (SettingUpTranslator word)) span st,
     AwaitInit span word)
  else translateOrOffer span word st.

(** After [await initBrowserTranslator(...)]; [translator] is the
    translator it has stored, if it got one. *)
Definition resumeInit (translator : option nat) (span : SpanRef) (word : jstring)
    (st : State) : State * WordFlow :=
  let st := match translator with
            | Some t => set_translator (Some t) (browserTranslatorInitialized st)
                          (translatorLanguages st) st
            | None => st
            end in
  match activeTooltip st with
  | None => (st, FlowDone)
  | Some _ => translateOrOffer span word st
  end.

(** After [await translateWithBrowser(word)]; [translation] is [None]
    when the translator failed. *)
Definition resumeTranslate (translation : option jstring) (span : SpanRef)
    (word : jstring) (st : State) : State :=
  match activeTooltip st with
  | None => st
  | Some _ =>
      match translation with
      | Some (c :: t) => setTooltipHtml (viewText (WordTranslation word (c :: t))) st
      | _ => offerAnalysis span word st
      end
  end.

(** [handleWordClick]; the flag tells whether the handler has stopped the
    propagation of the event. *)
Definition handleWordClick (span : SpanRef) (st : State) : State * WordFlow * bool :=
  if isModifierHeld st then (st, FlowDone, false)
  else if bool_decide (currentClickedWord st = Some span)
          && bool_decide (is_Some (activeTooltip st))
  then (hideTooltip st, FlowDone, true)
  else (showWordTooltip span (set_tooltip (activeTooltip st) (Some span) st), true).

(** [handleSentenceClick], with the same flag. *)
Definition handleSentenceClick (el : ElemRef) (st : State) : State * bool :=
  (onSentenceClick el st, isModifierHeld st).

(** The [click] listener of the document. *)
Definition onDocumentClick (inTooltip inWord inTranslated : bool) (st : State) : State :=
  match activeTooltip st with
  | Some _ =>
      if negb inTooltip && negb inWord && negb inTranslated
      then hideTooltip st else st
  | None => st
  end.

(** The event going up from [el]: each element on the way that listens
    with [handleSentenceClick] runs it, until one stops the event. *)
Fixpoint bubble (el : ElemRef) (st : State) : State * bool :=
  let '(st1, stopped) :=
    if bool_decide (("click"%string, Render.handleSentenceClick)
                      ∈ listeners (getEl (dom st) el))
    then handleSentenceClick el st else (st, false) in
  if stopped then (st1, true)
  else
    match el with
    | [] => (st1, false)
    | _ :: up => bubble up st1
    end.

(** A click on a word span: the listener of the span, then, unless
    stopped, the listeners of the elements above it, then, unless
    stopped, the listener of the document. *)
Definition clickOnWord (span : SpanRef) (st : State) : State * WordFlow :=
  match spanAt (dom st) span with
  | None => (st, FlowDone)
  | Some sp =>
      let '(st1, flow, stopped) :=
        if bool_decide (("click"%string, Render.handleWordClick)
                          ∈ span_listeners sp)
        then handleWordClick span st else (st, FlowDone, false) in
      if stopped then (st1, flow)
      else
        let '(st2, stopped2) := bubble span.1 st1 in
        if stopped2 then (st2, flow)
        else (onDocumentClick false true true st2, flow)
  end.

(** At most the hovered sentence carries the highlight. *)
Definition HoverInv (st : State) : Prop :=
  forall e : ElemRef,
    "vakya-sentence-hover"%string ∈ classList (getEl (dom st) e) ->
    hoveredSentence st = Some e.

End Interaction.

(** ** Sending a message to the background worker *)

Module Messaging.

Section Retry.
Context {A : Type}.

(** How one [chrome.runtime.sendMessage] ends: with a response, or
    rejected with an error whose message may be missing. *)
Inductive SendOutcome :=
| Answers (response : A)
| Rejects (message : option jstring).

Inductive Completion :=
| Returns (response : A)
| Throws (message : option jstring)
| ReturnsUndefined.

Definition isConnectionError (message : option jstring) : bool :=
  match message with
  | Some m =>
      includes (utf16 "Could not establish connection") m
      || includes (utf16 "Receiving end does not exist") m
  | None => false
  end.

(** The loop [for (attempt = 0; attempt <= retries; attempt++)] from
    [attempt] on, with [remaining] turns left; the second component
    lists the delays waited, in milliseconds. *)
Fixpoint attemptFrom (send : nat -> SendOutcome) (retries attempt remaining : nat)
    : Completion * list nat :=
  match remaining with
  | O => (ReturnsUndefined, [])
  | S remaining' =>
      match send attempt with
      | Answers response => (Returns response, [])
      | Rejects message =>
          if isConnectionError message && (attempt <? retries)%nat
          then
            let '(c, waits) := attemptFrom send retries (S attempt) remaining' in
            (c, (100 * (attempt + 1))%nat :: waits)
          else (Throws message, [])
      end
  end.

Definition sendMessageWithRetry (send : nat -> SendOutcome) (retries : nat)
    : Completion * list nat :=
  attemptFrom send retries 0 (S retries).

Definition rejectsWithConnectionError (o : SendOutcome) : bool :=
  match o with
  | Answers _ => false
  | Rejects message => isConnectionError message
  end.

Definition completionOf (o : SendOutcome) : Completion :=
  match o with
  | Answers response => Returns response
  | Rejects message => Throws message
  end.
End Retry.

Arguments SendOutcome : clear implicits.
Arguments Completion : clear implicits.

End Messaging.

(** ** The prompt of a batch *)

Module Prompt.

Record WorkerSettings := {
  targetLanguage : jstring;
  nativeLanguage : jstring;
  cefrLevel : jstring
}.

(** The decimal digits of a number, as [`${n}`] writes them. *)
Fixpoint decimalDigits (fuel n : nat) : jstring :=
  match fuel with
  | O => []
  | S fuel' =>
      (if (n <? 10)%nat then [] else decimalDigits fuel' (n / 10))
      ++ [48 + N.of_nat (n mod 10)]
  end.

Definition decimal (n : nat) : jstring := decimalDigits (S n) n.

(** [`#${index + 1}: ${block}`]. *)
Definition numberBlock (index : nat) (block : jstring) : jstring :=
  35 :: decimal (index + 1) ++ utf16 ": " ++ block.

(** [pieces.join(sep)]. *)
Fixpoint join (sep : jstring) (pieces : list jstring) : jstring :=
  match pieces with
  | [] => []
  | [x] => x
  | x :: rest => x ++ sep ++ join sep rest
  end.

Definition buildPrompt (blocks : list jstring) (settings : WorkerSettings) : jstring :=
  let numbered := join [10; 10] (imap numberBlock blocks) in
  utf16 "Translate to " ++ targetLanguage settings
  ++ utf16 " (Level " ++ cefrLevel settings
  ++ utf16 ") for a " ++ nativeLanguage settings
  ++ utf16 " speaker." ++ [10; 10] ++ numbered.

End Prompt.

(** ** Notions used in the further statements *)

Module Notions.
Import Dom.

(** Every whitespace character is one space between two others. *)
Fixpoint spaced (t : jstring) : bool :=
  match t with
  | [] => true
  | c :: t' =>
      (if isWhiteSpace c then (c =? 32) && negb (startsWithSpace t') else true)
      && spaced t'
  end.

(** A block accepts an element: their normalized texts are equal, or
    similar above the threshold. *)
Definition accepts (u : UnicodeData) (block : jstring) (m : Element) : Prop :=
  Matcher.exactMatch u (normalizeText u block) m
  \/ (Matcher.threshold < Matcher.scoreOf u (normalizeText u block) m)%Q.

(** The sample page as the article the parser hands back, the elements
    the matcher finds for it on the untouched page, and the settings. *)
Definition sampleArticle : Page.Article :=
  {| Page.article_content := Some Matcher.samplePage;
     Page.article_length := 200 |}.

Definition sampleMatched : list Element :=
  Matcher.findOriginalElementsByText latin_ucd
    (Page.liveTree ∅ [] Matcher.samplePage)
    (Page.extractTextBlocksFromReadability Matcher.samplePage).

(** The overlay shown while the translation is awaited, reduced to its
    elements and texts. *)
Definition sampleOverlay : Node :=
  Elem "DIV"
    [Elem "DIV"
       [Elem "DIV" [];
        Elem "DIV" [TextN (utf16 "Translating...")];
        Elem "DIV" [TextN (utf16 "Processing 2 paragraphs")]]].

(** The elements matched with that overlay in the document. *)
Definition sampleMatchedAgain : list Element :=
  Matcher.findOriginalElementsByText latin_ucd
    (Page.appendToBody (Page.liveTree ∅ [] Matcher.samplePage) [sampleOverlay])
    (Page.extractTextBlocksFromReadability Matcher.samplePage).

(** Two replies: the two sample blocks, and a first block with a
    translation followed by one without translation or original. *)
Definition sampleReply : list Page.ReceivedBlock :=
  [ {| Page.received_original := Page.OriginalText Matcher.sampleText1;
       Page.received_translated := Page.translated Page.sampleBlock1 |};
    {| Page.received_original := Page.OriginalText Matcher.sampleText2;
       Page.received_translated := Page.translated Page.sampleBlock2 |} ].


Definition sampleBrokenReply : list Page.ReceivedBlock :=
  [ {| Page.received_original := Page.OriginalText Matcher.sampleText1;
       Page.received_translated := Page.translated Page.sampleBlock1 |};
    {| Page.received_original := Page.OriginalAbsent;
       Page.received_translated := [] |} ].

Definition sampleSettings : Page.Settings :=
  {| Page.nativeLanguage := utf16 "English";
     Page.targetLanguage := utf16 "German" |}.

End Notions.


(** * Properties *)

(** ** Strings *)

Section StringFacts.

Lemma span_spec p s a b :
  span p s = (a, b) ->
  s = a ++ b /\ forallb p a = true /\
  match b with [] => True | c :: _ => p c = false end.
Proof.
  revert a b. induction s as [|c s IH]; intros a b; simpl.
  - intros [= <- <-]. done.
  - destruct (p c) eqn:Hc.
    + destruct (span p s) as [a' b'] eqn:E. intros [= <- <-].
      destruct (IH a' b' eq_refl) as (-> & Ha & Hb).
      simpl. rewrite Hc. done.
    + intros [= <- <-]. simpl. by rewrite Hc.
Qed.

Lemma span_head_true p c s a b :
  p c = true -> span p (c :: s) = (a, b) -> a <> [] /\ (length b <= length s)%nat.
Proof.
  simpl. intros ->. destruct (span p s) as [a' b'] eqn:E. intros [= <- <-].
  split; [done|]. apply span_spec in E as (-> & _). rewrite length_app. lia.
Qed.

Lemma span_head_false p c s : p c = false -> span p (c :: s) = ([], c :: s).
Proof. simpl. by intros ->. Qed.

Lemma notWhiteSpace_false c : notWhiteSpace c = false -> isWhiteSpace c = true.
Proof. unfold notWhiteSpace. by destruct (isWhiteSpace c). Qed.

Lemma splitCapture_concat fuel s :
  (length s <= fuel)%nat -> concat (splitCapture fuel s) = s.
Proof.
  revert s. induction fuel as [|fuel IH]; intros s Hlen.
  - destruct s; [done | simpl in Hlen; lia].
  - simpl. destruct (span notWhiteSpace s) as [piece rest] eqn:E1.
    pose proof (span_spec _ _ _ _ E1) as (-> & _ & Hrest).
    destruct rest as [|c rest]; [simpl; by rewrite app_nil_r|].
    apply notWhiteSpace_false in Hrest.
    destruct (span isWhiteSpace (c :: rest)) as [run rest'] eqn:E2.
    pose proof (span_head_true _ _ _ _ _ Hrest E2) as [_ Hle].
    pose proof (span_spec _ _ _ _ E2) as (-> & _).
    simpl. rewrite IH; [done|].
    rewrite length_app in Hlen. simpl in Hlen. lia.
Qed.

(** More fuel than the length of the string changes nothing: the scans
    below never run out of it. *)
Lemma span_rest_shorter c rest run rest' :
  isWhiteSpace c = true -> span isWhiteSpace (c :: rest) = (run, rest') ->
  (length rest' <= length rest)%nat.
Proof. intros Hc E. by destruct (span_head_true _ _ _ _ _ Hc E). Qed.

Ltac fuel_induction f1 f2 s :=
  revert f2 s; induction f1 as [|f1 IH]; intros [|f2] s H1 H2;
  try (destruct s; [reflexivity | simpl in *; lia]).

Lemma splitCapture_fuel f1 f2 s :
  (length s <= f1)%nat -> (length s <= f2)%nat ->
  splitCapture f1 s = splitCapture f2 s.
Proof.
  fuel_induction f1 f2 s. simpl.
  destruct (span notWhiteSpace s) as [piece rest] eqn:E1.
  pose proof (span_spec _ _ _ _ E1) as (-> & _ & Hrest).
  destruct rest as [|c rest]; [done|]. apply notWhiteSpace_false in Hrest.
  destruct (span isWhiteSpace (c :: rest)) as [run rest'] eqn:E2.
  pose proof (span_rest_shorter _ _ _ _ Hrest E2) as Hle.
  rewrite length_app in H1, H2. simpl in H1, H2.
  f_equal. f_equal. apply IH; lia.
Qed.

Lemma splitPlain_fuel f1 f2 s :
  (length s <= f1)%nat -> (length s <= f2)%nat ->
  splitPlain f1 s = splitPlain f2 s.
Proof.
  fuel_induction f1 f2 s. simpl.
  destruct (span notWhiteSpace s) as [piece rest] eqn:E1.
  pose proof (span_spec _ _ _ _ E1) as (-> & _ & Hrest).
  destruct rest as [|c rest]; [done|]. apply notWhiteSpace_false in Hrest.
  destruct (span isWhiteSpace (c :: rest)) as [run rest'] eqn:E2.
  pose proof (span_rest_shorter _ _ _ _ Hrest E2) as Hle.
  rewrite length_app in H1, H2. simpl in H1, H2.
  f_equal. apply IH; lia.
Qed.

Lemma collapseWs_fuel f1 f2 s :
  (length s <= f1)%nat -> (length s <= f2)%nat ->
  collapseWs f1 s = collapseWs f2 s.
Proof.
  fuel_induction f1 f2 s. simpl.
  destruct (span notWhiteSpace s) as [piece rest] eqn:E1.
  pose proof (span_spec _ _ _ _ E1) as (-> & _ & Hrest).
  destruct rest as [|c rest]; [done|]. apply notWhiteSpace_false in Hrest.
  destruct (span isWhiteSpace (c :: rest)) as [run rest'] eqn:E2.
  pose proof (span_rest_shorter _ _ _ _ Hrest E2) as Hle.
  rewrite length_app in H1, H2. simpl in H1, H2.
  f_equal. f_equal. apply IH; lia.
Qed.

(** The words of [split(/\s+/)] are the pieces that [split(/(\s+)/)]
    puts between the whitespace runs. *)
Lemma split_ws_everyOther s : split_ws s = everyOther (split_ws_capture s).
Proof.
  unfold split_ws, split_ws_capture.
  assert (H : forall fuel s, (length s <= fuel)%nat ->
                splitPlain fuel s = everyOther (splitCapture fuel s)).
  { clear s. induction fuel as [|fuel IH]; intros s Hlen.
    - destruct s; [reflexivity | simpl in Hlen; lia].
    - simpl. destruct (span notWhiteSpace s) as [piece rest] eqn:E1.
      pose proof (span_spec _ _ _ _ E1) as (-> & _ & Hrest).
      destruct rest as [|c rest]; [done|]. apply notWhiteSpace_false in Hrest.
      destruct (span isWhiteSpace (c :: rest)) as [run rest'] eqn:E2.
      pose proof (span_rest_shorter _ _ _ _ Hrest E2) as Hle.
      rewrite length_app in Hlen. simpl in Hlen.
      change (everyOther (piece :: run :: splitCapture fuel rest'))
        with (piece :: everyOther (splitCapture fuel rest')).
      f_equal. apply IH. lia. }
  by apply H.
Qed.

Lemma split_ws_capture_concat s : concat (split_ws_capture s) = s.
Proof. by apply splitCapture_concat. Qed.

Lemma isWordLike_cons c s :
  isWhiteSpace c = false -> isWordLike s = true -> isWordLike (c :: s) = true.
Proof. intros Hc Hs. simpl. unfold notWhiteSpace at 1. by rewrite Hc. Qed.

Lemma splitCapture_alternate fuel s :
  (length s <= fuel)%nat ->
  Alternate (startsWithSpace s) (filter (fun f => f <> []) (splitCapture fuel s)).
Proof.
  revert s. induction fuel as [|fuel IH]; intros s Hlen.
  - destruct s; [|simpl in Hlen; lia]. simpl. constructor.
  - simpl. destruct (span notWhiteSpace s) as [piece rest] eqn:E1.
    pose proof (span_spec _ _ _ _ E1) as (Hs & Hpiece & Hrest).
    assert (Hfirst : piece <> [] -> startsWithSpace s = false).
    { subst s. destruct piece as [|c0 piece]; [done|]. intros _. simpl.
      simpl in Hpiece. apply andb_prop in Hpiece as [Hc _].
      unfold notWhiteSpace in Hc. by destruct (isWhiteSpace c0). }
    destruct rest as [|c rest].
    + destruct piece as [|c0 piece].
      * rewrite filter_cons_False by (intros H; by apply H). simpl. constructor.
      * rewrite filter_cons_True by done. simpl. rewrite Hfirst by done.
        constructor; [done|done|constructor].
    + apply notWhiteSpace_false in Hrest.
      destruct (span isWhiteSpace (c :: rest)) as [run rest'] eqn:E2.
      pose proof (span_head_true _ _ _ _ _ Hrest E2) as [Hrun Hle].
      pose proof (span_spec _ _ _ _ E2) as (Hcr & Hall & Hnext).
      assert (Hlen' : (length rest' <= fuel)%nat).
      { subst s. rewrite length_app in Hlen. simpl in Hlen. lia. }
      specialize (IH rest' Hlen').
      assert (Hstart : startsWithSpace rest' = false).
      { destruct rest'; [done|]. simpl. done. }
      rewrite Hstart in IH.
      assert (Htail : Alternate true
                (filter (fun f => f <> []) (run :: splitCapture fuel rest'))).
      { rewrite filter_cons_True by done. by constructor. }
      destruct piece as [|c0 piece].
      * rewrite filter_cons_False by (intros H; by apply H).
        subst s. simpl. rewrite Hrest. exact Htail.
      * rewrite filter_cons_True by done. rewrite Hfirst by done.
        by constructor.
Qed.

Lemma split_ws_capture_alternate s :
  exists b, Alternate b (filter (fun f => f <> []) (split_ws_capture s)).
Proof. eexists. by apply splitCapture_alternate. Qed.

Lemma Alternate_homogeneous b l :
  Alternate b l ->
  Forall (fun f => f <> [] /\ (isRun f = true \/ isWordLike f = true)) l.
Proof. induction 1; constructor; auto. Qed.

Lemma run_not_wordLike f : f <> [] -> isRun f = true -> isWordLike f = false.
Proof.
  destruct f as [|c f]; [done|]. intros _. simpl.
  unfold notWhiteSpace. intros [-> _]%andb_prop. done.
Qed.

Lemma Alternate_head b f l : Alternate b (f :: l) -> isRun f = b.
Proof.
  inversion 1; subst; [done|].
  destruct (isRun f) eqn:E; [|done].
  by rewrite run_not_wordLike in H4.
Qed.

Lemma Alternate_adjacent b l i f g :
  Alternate b l -> l !! i = Some f -> l !! S i = Some g -> isRun f <> isRun g.
Proof.
  intros H. revert i. induction H as [b|f0 l Hne Hr Ht IH|f0 l Hne Hw Ht IH];
    intros i Hi HSi; [done| |].
  - destruct i as [|i]; [|by eapply IH].
    simpl in Hi. injection Hi as ->. destruct l as [|g0 l]; [done|].
    simpl in HSi. injection HSi as ->.
    apply Alternate_head in Ht. rewrite Hr, Ht. done.
  - destruct i as [|i]; [|by eapply IH].
    simpl in Hi. injection Hi as ->. destruct l as [|g0 l]; [done|].
    simpl in HSi. injection HSi as ->.
    apply Alternate_head in Ht. rewrite Ht.
    destruct (isRun f) eqn:E; [|done].
    by rewrite run_not_wordLike in Hw.
Qed.

(** Induction over a string one character at a time. *)
Lemma characters_ind (P : jstring -> Prop) :
  P [] ->
  (forall c, P [c]) ->
  (forall hi lo s, isLead hi && isTrail lo = true -> P s -> P (hi :: lo :: s)) ->
  (forall c lo s, isLead c && isTrail lo = false -> P (lo :: s) -> P (c :: lo :: s)) ->
  forall s, P s.
Proof.
  intros Hnil Hone Hpair Hunit s.
  assert (H : forall n s, (length s <= n)%nat -> P s).
  { clear s. induction n as [|n IH]; intros s Hlen.
    - destruct s; [done | simpl in Hlen; lia].
    - destruct s as [|c [|lo s]]; [done..|].
      simpl in Hlen.
      destruct (isLead c && isTrail lo) eqn:E.
      + apply Hpair; [done|]. apply IH. lia.
      + apply Hunit; [done|]. apply IH. simpl. lia. }
  by apply (H (length s)).
Qed.

Lemma stripNonWord_keepWordChars u s : stripNonWord u s = keepWordChars u s.
Proof.
  unfold keepWordChars.
  induction s as [|c|hi lo s E IH|c lo s E IH] using characters_ind.
  - done.
  - simpl. destruct (isWordChar u c) eqn:Hc.
    + rewrite filter_cons_True by done. done.
    + rewrite filter_cons_False by (simpl; by rewrite Hc). done.
  - change (characters (hi :: lo :: s)) with
      (if isLead hi && isTrail lo then [hi; lo] :: characters s
       else [hi] :: characters (lo :: s)).
    change (stripNonWord u (hi :: lo :: s)) with
      (if isLead hi && isTrail lo
       then (if isWordChar u (pairValue hi lo)
             then hi :: lo :: stripNonWord u s else stripNonWord u s)
       else (if isWordChar u hi then hi :: stripNonWord u (lo :: s)
             else stripNonWord u (lo :: s))).
    rewrite E. destruct (isWordChar u (pairValue hi lo)) eqn:Hc.
    + rewrite filter_cons_True by done. simpl. by rewrite IH.
    + rewrite filter_cons_False by (simpl; by rewrite Hc). done.
  - change (characters (c :: lo :: s)) with
      (if isLead c && isTrail lo then [c; lo] :: characters s
       else [c] :: characters (lo :: s)).
    change (stripNonWord u (c :: lo :: s)) with
      (if isLead c && isTrail lo
       then (if isWordChar u (pairValue c lo)
             then c :: lo :: stripNonWord u s else stripNonWord u s)
       else (if isWordChar u c then c :: stripNonWord u (lo :: s)
             else stripNonWord u (lo :: s))).
    rewrite E. destruct (isWordChar u c) eqn:Hc.
    + rewrite filter_cons_True by done. rewrite IH. reflexivity.
    + rewrite filter_cons_False by (simpl; by rewrite Hc). done.
Qed.

Lemma concat_nonempty (l : list jstring) ch : ch ∈ l -> ch <> [] -> concat l <> [].
Proof.
  induction 1 as [ch l|ch x l _ IH]; intros Hne; simpl.
  - destruct ch; [done|]. done.
  - intros [_ H]%app_eq_nil. by apply IH.
Qed.

Lemma characters_nonempty s : Forall (fun ch => ch <> []) (characters s).
Proof.
  induction s as [|c|hi lo s E IH|c lo s E IH] using characters_ind.
  - constructor.
  - by repeat constructor.
  - change (characters (hi :: lo :: s)) with
      (if isLead hi && isTrail lo then [hi; lo] :: characters s
       else [hi] :: characters (lo :: s)).
    rewrite E. by constructor.
  - change (characters (c :: lo :: s)) with
      (if isLead c && isTrail lo then [c; lo] :: characters s
       else [c] :: characters (lo :: s)).
    rewrite E. by constructor.
Qed.

Lemma characters_concat s : concat (characters s) = s.
Proof.
  induction s as [|c|hi lo s E IH|c lo s E IH] using characters_ind.
  - done.
  - done.
  - change (characters (hi :: lo :: s)) with
      (if isLead hi && isTrail lo then [hi; lo] :: characters s
       else [hi] :: characters (lo :: s)).
    rewrite E. simpl. by rewrite IH.
  - change (characters (c :: lo :: s)) with
      (if isLead c && isTrail lo then [c; lo] :: characters s
       else [c] :: characters (lo :: s)).
    rewrite E. change (concat ([c] :: characters (lo :: s)))
      with (c :: concat (characters (lo :: s))). by rewrite IH.
Qed.

Lemma hasLetter_key_nonempty u s :
  hasLetter u s = true -> stripNonWord u s <> [].
Proof.
  rewrite stripNonWord_keepWordChars. unfold hasLetter, codePoints, keepWordChars.
  intros H. apply existsb_exists in H as (cp & Hin & Hcp).
  apply list_elem_of_In, list_elem_of_fmap in Hin as (ch & -> & Hch).
  assert (Hne : ch <> []).
  { pose proof (characters_nonempty s) as Hall.
    rewrite Forall_forall in Hall. by apply Hall. }
  assert (Hkeep : ch ∈ filter (fun ch => isWordChar u (charCode ch) = true)
                              (characters s)).
  { apply list_elem_of_filter. split; [|done].
    unfold isWordChar. by rewrite Hcp. }
  by apply (concat_nonempty _ ch).
Qed.

End StringFacts.

(** ** The functions on small inputs *)

Example split_keeps_runs :
  split_ws_capture (utf16 " Das  ist ein Wort. ")
  = [[]; utf16 " "; utf16 "Das"; utf16 "  "; utf16 "ist"; utf16 " ";
     utf16 "ein"; utf16 " "; utf16 "Wort."; utf16 " "; []].
Proof. reflexivity. Qed.

Example split_drops_runs :
  split_ws (utf16 " Das  ist ein Wort. ")
  = [[]; utf16 "Das"; utf16 "ist"; utf16 "ein"; utf16 "Wort."; []].
Proof. reflexivity. Qed.

Example normalize_sample :
  normalizeText latin_ucd (utf16 "  Der   HUND bellt ") = utf16 "der hund bellt".
Proof. reflexivity. Qed.

Example render_sample :
  renderTranslatedBlock latin_ucd (utf16 "The dog -- 42!")
  = [SpanNode (makeSpan latin_ucd (utf16 "The")); TextNode (utf16 " ");
     SpanNode (makeSpan latin_ucd (utf16 "dog")); TextNode (utf16 " ");
     TextNode (utf16 "--"); TextNode (utf16 " "); TextNode (utf16 "42!")].
Proof. reflexivity. Qed.

Example similarity_sample :
  textSimilarity (utf16 "the quick brown fox is red")
                 (utf16 "the quick brown cat is red too") = 4 # 7.
Proof. reflexivity. Qed.

Example candidates_sample :
  Dom.ref <$> Matcher.candidates Matcher.samplePage
  = [[0; 1]; [0; 0; 1]; [1; 0; 1]; [1; 1]; [0; 1; 1]]%nat.
Proof. reflexivity. Qed.

Example matcher_sample :
  Dom.ref <$> Matcher.findOriginalElementsByText latin_ucd Matcher.samplePage
                [Matcher.sampleText1; Matcher.sampleText2;
                 Matcher.sampleText1; Matcher.sampleText1; Matcher.sampleText1]
  = [[0; 0; 1]; [1; 0; 1]; [1; 1]; [0; 1; 1]]%nat.
Proof. vm_compute. reflexivity. Qed.

(** ** Rendering *)

Section RenderFacts.
Variable u : UnicodeData.

Lemma childText_classify f : childText (classify u f) = f.
Proof. unfold classify. by destruct (hasLetter u f). Qed.

Lemma renderStep_fold kids frags :
  foldl (renderStep u) kids frags
  = kids ++ (classify u <$> filter (fun f => f <> []) frags).
Proof.
  revert kids. induction frags as [|f frags IH]; intros kids; simpl.
  - by rewrite app_nil_r.
  - rewrite IH. destruct f as [|c f].
    + by rewrite filter_cons_False by (intros H; by apply H).
    + rewrite filter_cons_True by done. simpl. unfold classify.
      destruct (hasLetter u (c :: f)); by rewrite <- app_assoc.
Qed.

Lemma render_classify text :
  renderTranslatedBlock u text
  = classify u <$> filter (fun f => f <> []) (split_ws_capture text).
Proof. unfold renderTranslatedBlock. by rewrite renderStep_fold. Qed.

Lemma render_texts text :
  childText <$> renderTranslatedBlock u text
  = filter (fun f => f <> []) (split_ws_capture text).
Proof.
  rewrite render_classify, <- list_fmap_compose.
  rewrite <- (list_fmap_id (filter _ _)) at 2.
  apply list_fmap_ext. intros _ f _. apply childText_classify.
Qed.

Lemma concat_filter_nonempty (l : list jstring) :
  concat (filter (fun f => f <> []) l) = concat l.
Proof.
  induction l as [|f l IH]; [done|]. destruct f as [|c f].
  - by rewrite filter_cons_False by (intros H; by apply H).
  - rewrite filter_cons_True by done. rewrite !concat_cons. f_equal. exact IH.
Qed.

Lemma render_span_inv text sp :
  SpanNode sp ∈ renderTranslatedBlock u text ->
  exists f, sp = makeSpan u f /\ f ∈ split_ws_capture text
            /\ f <> [] /\ hasLetter u f = true.
Proof.
  rewrite render_classify. intros (f & Hsp & Hf)%list_elem_of_fmap.
  apply list_elem_of_filter in Hf as [Hne Hin].
  unfold classify in Hsp. destruct (hasLetter u f) eqn:E; [|done].
  injection Hsp as ->. by exists f.
Qed.

Lemma isLead_ascii c : c < 128 -> isLead c = false.
Proof. intros H. unfold isLead. apply andb_false_iff. left. apply N.leb_gt. lia. Qed.

Lemma characters_ascii s :
  Forall (fun c => c < 128) s -> characters s = (fun c => [c]) <$> s.
Proof.
  induction 1 as [|c s Hc Hs IH]; [done|].
  destruct s as [|lo s]; [done|].
  change (characters (c :: lo :: s)) with
    (if isLead c && isTrail lo then [c; lo] :: characters s
     else [c] :: characters (lo :: s)).
  rewrite (isLead_ascii c Hc). simpl andb. cbv iota. by rewrite IH.
Qed.

Lemma hasLetter_ascii v s :
  Forall (fun c => c < 128) s -> hasLetter v s = existsb (gc_L v) s.
Proof.
  intros Hs. unfold hasLetter, codePoints. rewrite (characters_ascii s Hs).
  clear Hs. induction s as [|c s IH]; [done|].
  rewrite !fmap_cons. simpl existsb. by rewrite IH.
Qed.

Lemma keepWordChars_ascii v s :
  Forall (fun c => c < 128) s ->
  keepWordChars v s = filter (fun c => isWordChar v c = true) s.
Proof.
  intros Hs. unfold keepWordChars. rewrite (characters_ascii s Hs).
  clear Hs. induction s as [|c s IH]; [done|].
  rewrite fmap_cons. destruct (isWordChar v c) eqn:E.
  - rewrite !filter_cons_True by done. rewrite concat_cons.
    simpl app. f_equal. exact IH.
  - rewrite !filter_cons_False by (simpl; congruence). exact IH.
Qed.

Lemma ascii_agree s :
  BasicLatin u -> Forall (fun c => c < 128) s ->
  hasLetter u s = hasLetter latin_ucd s
  /\ keepWordChars u s = keepWordChars latin_ucd s.
Proof.
  intros Hu Hs.
  rewrite !hasLetter_ascii, !keepWordChars_ascii by done.
  induction Hs as [|c s Hc Hs [IH1 IH2]]; [done|].
  destruct (Hu c Hc) as (HL & HM & HPd).
  assert (HL' : gc_L latin_ucd c = gc_L u c).
  { simpl. rewrite HL. apply N.ltb_lt in Hc. by rewrite Hc. }
  assert (Hw : isWordChar u c = isWordChar latin_ucd c).
  { unfold isWordChar. rewrite HL', HM, HPd. done. }
  split.
  - cbn [existsb]. rewrite IH1. f_equal. symmetry. exact HL'.
  - destruct (isWordChar u c) eqn:E.
    + rewrite !filter_cons_True by congruence. f_equal. exact IH2.
    + rewrite !filter_cons_False by congruence. exact IH2.
Qed.
End RenderFacts.

(** C3. The children that [renderTranslatedBlock] puts under the element
    spell the translated text: their texts, joined in order, are the
    input; every child is a non-empty fragment that is either a
    whitespace run or free of whitespace, and neighbours are never of the
    same kind (a run is kept whole and apart); a fragment with a letter is
    a word span carrying the fragment verbatim, any other fragment is a
    plain text node. *)
Theorem tokenizer_round_trip (u : UnicodeData) (text : jstring) :
  hasLetter u text = true ->
  let kids := renderTranslatedBlock u text in
  concat (childText <$> kids) = text
  /\ Forall (fun k => childText k <> []
                      /\ (isRun (childText k) = true
                          \/ isWordLike (childText k) = true)) kids
  /\ (forall i a b, kids !! i = Some a -> kids !! S i = Some b ->
                    isRun (childText a) <> isRun (childText b))
  /\ Forall (fun k => match k with
                      | SpanNode sp =>
                          hasLetter u (span_textContent sp) = true
                          /\ sp = makeSpan u (span_textContent sp)
                      | TextNode d => hasLetter u d = false
                      end) kids.
Proof.
  intros _ kids.
  destruct (split_ws_capture_alternate text) as [b Halt].
  assert (Htexts : childText <$> kids
                   = filter (fun f => f <> []) (split_ws_capture text))
    by apply render_texts.
  split; [|split; [|split]].
  - rewrite Htexts, concat_filter_nonempty. apply split_ws_capture_concat.
  - apply Alternate_homogeneous in Halt. rewrite <- Htexts in Halt.
    by apply Forall_fmap in Halt.
  - intros i x y Hx Hy. rewrite <- Htexts in Halt.
    eapply (Alternate_adjacent _ _ i); [exact Halt| |].
    + by rewrite list_lookup_fmap, Hx.
    + by rewrite list_lookup_fmap, Hy.
  - subst kids. rewrite render_classify. apply Forall_fmap, Forall_forall.
    intros f _. simpl. unfold classify.
    destruct (hasLetter u f) eqn:E; [|done]. done.
Qed.

Lemma tokenizer_round_trip_witness :
  concat (childText <$> renderTranslatedBlock latin_ucd (utf16 "Das  Wort. "))
  = utf16 "Das  Wort. ".
Proof.
  apply (tokenizer_round_trip latin_ucd (utf16 "Das  Wort. ")). reflexivity.
Defined.

(** C7. The lookup key of a word span is its fragment without the
    characters that are no letter, mark, dash or apostrophe, while the
    span shows the fragment as it stands; whenever the host's tables
    agree with Unicode on Basic Latin, "Wort." becomes one span showing
    "Wort." under the key "Wort". *)
Theorem lookup_key_strips_punctuation (u : UnicodeData) :
  (forall text sp,
      SpanNode sp ∈ renderTranslatedBlock u text ->
      span_word sp = keepWordChars u (span_textContent sp)
      /\ span_textContent sp ∈ split_ws_capture text
      /\ hasLetter u (span_textContent sp) = true)
  /\ (BasicLatin u ->
      exists sp, renderTranslatedBlock u (utf16 "Wort.") = [SpanNode sp]
                 /\ span_textContent sp = utf16 "Wort."
                 /\ span_word sp = utf16 "Wort").
Proof.
  split.
  - intros text sp (f & -> & Hin & _ & HL)%render_span_inv. simpl.
    by rewrite stripNonWord_keepWordChars.
  - intros Hu. exists (makeSpan u (utf16 "Wort.")).
    assert (Hascii : Forall (fun c => c < 128) (utf16 "Wort.")).
    { repeat constructor. }
    destruct (ascii_agree u _ Hu Hascii) as [HL HK].
    split; [|split; [done|]].
    + rewrite render_classify.
      change (split_ws_capture (utf16 "Wort.")) with [utf16 "Wort."].
      rewrite filter_cons_True by done. rewrite filter_nil. simpl.
      unfold classify. by rewrite HL.
    + cbn [span_word makeSpan]. by rewrite stripNonWord_keepWordChars, HK.
Qed.

Lemma BasicLatin_latin_ucd : BasicLatin latin_ucd.
Proof.
  intros c Hc. simpl. apply N.ltb_lt in Hc. by rewrite Hc.
Qed.

Lemma lookup_key_strips_punctuation_witness :
  keepWordChars latin_ucd (utf16 "'Wort'.") = utf16 "'Wort'"
  /\ exists sp, renderTranslatedBlock latin_ucd (utf16 "Wort.") = [SpanNode sp]
                /\ span_textContent sp = utf16 "Wort."
                /\ span_word sp = utf16 "Wort".
Proof.
  destruct (lookup_key_strips_punctuation latin_ucd) as [Hkey Hwort].
  split.
  - destruct (Hkey (utf16 "das 'Wort'.") (makeSpan latin_ucd (utf16 "'Wort'.")))
      as (H & _).
    + vm_compute. apply list_elem_of_further, list_elem_of_further,
        list_elem_of_here.
    + simpl span_textContent in H. rewrite <- H. reflexivity.
  - apply Hwort. exact BasicLatin_latin_ucd.
Defined.

(** C10. A word span never has an empty lookup key: its fragment holds a
    letter, every letter of the fragment is among the characters the key
    keeps, and so the key is not the empty string. *)
Theorem word_unit_key_nonempty (u : UnicodeData) (text : jstring) (sp : WordSpan) :
  SpanNode sp ∈ renderTranslatedBlock u text ->
  hasLetter u (span_textContent sp) = true
  /\ (forall ch, ch ∈ characters (span_textContent sp) ->
                 gc_L u (charCode ch) = true ->
                 ch ∈ filter (fun ch => isWordChar u (charCode ch) = true)
                             (characters (span_textContent sp)))
  /\ span_word sp <> [].
Proof.
  intros (f & -> & _ & _ & HL)%render_span_inv. simpl.
  split; [done|]. split.
  - intros ch Hin Hch. apply list_elem_of_filter. split; [|done].
    unfold isWordChar. by rewrite Hch.
  - by apply hasLetter_key_nonempty.
Qed.

Lemma word_unit_key_nonempty_witness :
  span_word (makeSpan latin_ucd (utf16 "(z.B.)")) <> [].
Proof.
  apply (word_unit_key_nonempty latin_ucd (utf16 "Siehe (z.B.) hier")).
  vm_compute. apply list_elem_of_further, list_elem_of_further,
    list_elem_of_here.
Defined.

(** ** Similarity *)

Section SimilarityFacts.

Lemma set_add_elem (s : StrSet) w x : x ∈ set_add s w <-> x ∈ s \/ x = w.
Proof.
  unfold set_add, set_has. case_bool_decide as Hw.
  - split; [by left|]. intros [H| ->]; done.
  - rewrite elem_of_app, list_elem_of_singleton. done.
Qed.

Lemma set_add_NoDup (s : StrSet) w : NoDup s -> NoDup (set_add s w).
Proof.
  intros Hs. unfold set_add, set_has. case_bool_decide as Hw; [done|].
  apply NoDup_app. split; [done|]. split; [|apply NoDup_singleton].
  intros x Hx ->%list_elem_of_singleton. done.
Qed.

Lemma set_fold_spec (l : list jstring) (s : StrSet) :
  NoDup s ->
  NoDup (foldl set_add s l)
  /\ forall x, x ∈ foldl set_add s l <-> x ∈ s \/ x ∈ l.
Proof.
  revert s. induction l as [|w l IH]; intros s Hs; simpl.
  - split; [done|]. intros x. rewrite elem_of_nil. tauto.
  - destruct (IH (set_add s w) (set_add_NoDup s w Hs)) as [Hnd Hin].
    split; [done|]. intros x. rewrite Hin, set_add_elem, elem_of_cons. tauto.
Qed.

Lemma set_from_NoDup l : NoDup (set_from l).
Proof. apply set_fold_spec, NoDup_nil_2. Qed.

Lemma set_from_elem l x : x ∈ set_from l <-> x ∈ l.
Proof.
  unfold set_from. destruct (set_fold_spec l [] (NoDup_nil_2)) as [_ H].
  rewrite H, elem_of_nil. tauto.
Qed.

Lemma set_from_gset l : list_to_set (C := gset jstring) (set_from l) = list_to_set l.
Proof.
  apply set_eq. intros x. rewrite !elem_of_list_to_set. apply set_from_elem.
Qed.

Lemma set_from_size s : length (set_from (longWords s)) = size (wordSet s).
Proof.
  unfold wordSet. rewrite <- set_from_gset.
  symmetry. apply size_list_to_set, set_from_NoDup.
Qed.

Lemma countShared_fold (B : StrSet) (l : list jstring) n :
  foldl (fun n w => if set_has B w then S n else n) n l
  = (n + length (filter (fun w => w ∈ B) l))%nat.
Proof.
  revert n. induction l as [|w l IH]; intros n; simpl; [lia|].
  rewrite IH. unfold set_has. case_bool_decide as Hw.
  - rewrite filter_cons_True by done. simpl. lia.
  - rewrite filter_cons_False by done. done.
Qed.

Lemma countShared_size a b :
  countShared (set_from (longWords a)) (set_from (longWords b))
  = size (wordSet a ∩ wordSet b).
Proof.
  unfold countShared. rewrite countShared_fold. simpl.
  rewrite <- (size_list_to_set (C := gset jstring))
    by apply NoDup_filter, set_from_NoDup.
  f_equal. apply set_eq. intros x.
  rewrite elem_of_list_to_set, list_elem_of_filter, elem_of_intersection.
  unfold wordSet. rewrite !elem_of_list_to_set, !set_from_elem. tauto.
Qed.

(** The function, with its sets read as finite sets. *)
Lemma textSimilarity_unfold a b :
  textSimilarity a b
  = if ((size (wordSet a) =? 0) || (size (wordSet b) =? 0))%nat then 0%Q
    else jaccard (wordSet a) (wordSet b).
Proof.
  unfold textSimilarity, jaccard. cbv zeta.
  rewrite countShared_size, !set_from_size. done.
Qed.

Lemma ratio_bounds (i n : nat) :
  (i <= n)%nat -> (0 < n)%nat ->
  (0 <= inject_Z (Z.of_nat i) / inject_Z (Z.of_nat n)
   /\ inject_Z (Z.of_nat i) / inject_Z (Z.of_nat n) <= 1)%Q.
Proof.
  intros Hi Hn.
  assert (Hpos : (0 < inject_Z (Z.of_nat n))%Q).
  { change 0%Q with (inject_Z 0). rewrite <- Zlt_Qlt. lia. }
  split.
  - apply Qle_shift_div_l; [done|]. rewrite Qmult_0_l.
    change 0%Q with (inject_Z 0). rewrite <- Zle_Qle. lia.
  - apply Qle_shift_div_r; [done|]. rewrite Qmult_1_l.
    rewrite <- Zle_Qle. lia.
Qed.

Lemma ratio_one (n : nat) :
  (0 < n)%nat -> (inject_Z (Z.of_nat n) / inject_Z (Z.of_nat n) == 1)%Q.
Proof.
  intros Hn. apply Qmult_inv_r. intros H.
  assert (Hz : (inject_Z 0 < inject_Z (Z.of_nat n))%Q) by (rewrite <- Zlt_Qlt; lia).
  rewrite H in Hz. by apply Qlt_irrefl in Hz.
Qed.

Lemma wordSet_empty_size s : wordSet s = ∅ <-> size (wordSet s) = 0%nat.
Proof.
  split; [intros ->; apply size_empty|].
  intros H. apply leibniz_equiv. by apply size_empty_inv.
Qed.

Lemma wordSet_nonempty s : longWords s <> [] -> size (wordSet s) <> 0%nat.
Proof.
  intros Hne Hsz. apply wordSet_empty_size in Hsz.
  destruct (longWords s) as [|w l] eqn:E; [done|].
  assert (Hw : w ∈ wordSet s).
  { unfold wordSet. rewrite E. apply elem_of_list_to_set. left. }
  rewrite Hsz in Hw. by apply not_elem_of_empty in Hw.
Qed.
End SimilarityFacts.

Section TokenFacts.

Lemma span_app (p : N -> bool) (a b : jstring) :
  forallb p a = true ->
  match b with [] => True | c :: _ => p c = false end ->
  span p (a ++ b) = (a, b).
Proof.
  intros Ha Hb. induction a as [|c a IH]; simpl in *.
  - destruct b as [|c b]; [done|]. simpl. by rewrite Hb.
  - apply andb_true_iff in Ha as [Hc Ha]. by rewrite Hc, IH.
Qed.

Lemma splitPlain_unfold (fuel : nat) (s : jstring) :
  splitPlain fuel s
  = let '(piece, rest) := span notWhiteSpace s in
    match rest with
    | [] => [piece]
    | _ :: _ =>
        let '(_, rest') := span isWhiteSpace rest in
        match fuel with
        | O => [piece]
        | S fuel' => piece :: splitPlain fuel' rest'
        end
    end.
Proof. by destruct fuel. Qed.

Lemma startsWithSpace_app (a b : jstring) :
  a <> [] -> startsWithSpace (a ++ b) = startsWithSpace a.
Proof. by destruct a. Qed.

Lemma run_ends_with_space (run : jstring) :
  run <> [] -> forallb isWhiteSpace run = true ->
  startsWithSpace (rev run) = true.
Proof.
  intros Hne Hall. rewrite <- (rev_involutive run) in Hall.
  assert (Hrev : rev run <> []).
  { intros H. apply Hne. by rewrite <- (rev_involutive run), H. }
  destruct (rev run) as [|c r]; [done|].
  simpl in Hall. rewrite forallb_app in Hall.
  apply andb_true_iff in Hall as [_ Hc]. simpl in Hc.
  by apply andb_true_iff in Hc as [Hc _].
Qed.

Lemma ends_with_space_exists (pre : jstring) :
  startsWithSpace (rev pre) = true -> existsb isWhiteSpace pre = true.
Proof.
  intros H. rewrite <- (rev_involutive pre).
  destruct (rev pre) as [|c r]; [done|].
  simpl. rewrite existsb_app. simpl in *. rewrite H.
  by rewrite orb_true_r.
Qed.

Lemma span_stops_within (pre tail a b : jstring) :
  existsb isWhiteSpace pre = true ->
  span notWhiteSpace (pre ++ tail) = (a, b) ->
  exists pre1 : jstring,
    pre = a ++ pre1 /\ b = pre1 ++ tail /\ startsWithSpace pre1 = true.
Proof.
  revert a. induction pre as [|c pre IH]; intros a Hex Hspan; [done|].
  simpl in Hspan. unfold notWhiteSpace at 1 in Hspan.
  destruct (isWhiteSpace c) eqn:Hc; simpl in Hspan.
  - injection Hspan as <- <-. exists (c :: pre). simpl. by rewrite Hc.
  - simpl in Hex. rewrite Hc in Hex. simpl in Hex.
    destruct (span notWhiteSpace (pre ++ tail)) as [a' b'] eqn:Hrec.
    injection Hspan as <- <-.
    destruct (IH a' Hex eq_refl) as (pre1 & -> & -> & Hs).
    by exists pre1.
Qed.

Lemma span_run_within (pre1 w post run rest' : jstring) :
  w <> [] -> forallb notWhiteSpace w = true ->
  span isWhiteSpace (pre1 ++ w ++ post) = (run, rest') ->
  exists pre2 : jstring, pre1 = run ++ pre2 /\ rest' = pre2 ++ w ++ post.
Proof.
  intros Hne Hall. revert run.
  induction pre1 as [|c pre1 IH]; intros run Hspan.
  - destruct w as [|x w]; [done|]. simpl in Hall.
    apply andb_true_iff in Hall as [Hx _].
    unfold notWhiteSpace in Hx. apply negb_true_iff in Hx.
    simpl in Hspan. rewrite Hx in Hspan. injection Hspan as <- <-.
    by exists [].
  - simpl in Hspan. destruct (isWhiteSpace c) eqn:Hc.
    + destruct (span isWhiteSpace (pre1 ++ w ++ post)) as [run' r'] eqn:Hrec.
      injection Hspan as <- <-.
      destruct (IH run' eq_refl) as (pre2 & -> & ->). by exists pre2.
    + injection Hspan as <- <-. by exists (c :: pre1).
Qed.

Lemma split_gives_tokens (fuel : nat) :
  forall s : jstring, (length s <= fuel)%nat ->
    forall w : jstring, w ∈ splitPlain fuel s -> w <> [] -> isToken s w.
Proof.
  induction fuel as [|fuel IH]; intros s Hlen w Hin Hne;
    rewrite splitPlain_unfold in Hin;
    destruct (span notWhiteSpace s) as [piece rest] eqn:Hp;
    apply span_spec in Hp as (Hs & Hpiece & Hrest);
    (destruct rest as [|c rest];
     [apply list_elem_of_singleton in Hin as ->;
      split; [done|]; split; [done|]; exists [], []; rewrite Hs; auto|]).
  - subst s. rewrite length_app in Hlen. simpl in Hlen. lia.
  - apply notWhiteSpace_false in Hrest.
    destruct (span isWhiteSpace (c :: rest)) as [run rest'] eqn:Hr.
    pose proof (span_head_true _ _ _ _ _ Hrest Hr) as [Hrun Hshort].
    apply span_spec in Hr as (Hrest' & Hallrun & _).
    apply elem_of_cons in Hin as [->|Hin].
    + split; [done|]. split; [done|]. exists [], (c :: rest).
      rewrite Hs. split; [done|]. split; [by left|]. right. exact Hrest.
    + assert (Hlen' : (length rest' <= fuel)%nat).
      { subst s. rewrite length_app in Hlen. simpl in Hlen. lia. }
      destruct (IH rest' Hlen' w Hin Hne)
        as (_ & Hall & pre & post & Heq & Hb1 & Hb2).
      split; [done|]. split; [done|].
      exists (piece ++ run ++ pre), post. split; [|split; [right|exact Hb2]].
      * rewrite Hs, Hrest', Heq. by rewrite <- !app_assoc.
      * rewrite !rev_app_distr, <- !app_assoc. destruct Hb1 as [->|Hb1].
        -- simpl. rewrite startsWithSpace_app.
           ++ by apply run_ends_with_space.
           ++ intros H. apply Hrun. by rewrite <- (rev_involutive run), H.
        -- rewrite startsWithSpace_app; [done|].
           intros H. by rewrite H in Hb1.
Qed.

Lemma tokens_are_split (fuel : nat) :
  forall s : jstring, (length s <= fuel)%nat ->
    forall w : jstring, isToken s w -> w ∈ splitPlain fuel s.
Proof.
  induction fuel as [|fuel IH];
    intros s Hlen w (Hne & Hall & pre & post & Heq & Hb1 & Hb2);
    rewrite splitPlain_unfold.
  - destruct s; [|simpl in Hlen; lia].
    destruct pre; [|done]. destruct w; done.
  - destruct Hb1 as [->|Hb1].
    + simpl in Heq. rewrite Heq, span_app; [| done |].
      * destruct post as [|c post]; [apply elem_of_cons; by left|].
        destruct (span isWhiteSpace (c :: post)). apply elem_of_cons. by left.
      * destruct Hb2 as [->|Hb2]; [done|]. destruct post as [|c post]; [done|].
        simpl in Hb2. unfold notWhiteSpace. by rewrite Hb2.
    + destruct (span notWhiteSpace s) as [piece rest] eqn:Hp.
      rewrite Heq in Hp.
      destruct (span_stops_within pre (w ++ post) piece rest
                  (ends_with_space_exists pre Hb1) Hp)
        as (pre1 & Hpre & Hrest & Hs1).
      destruct pre1 as [|c pre1]; [done|]. simpl in Hs1.
      rewrite Hrest. rewrite <- app_comm_cons.
      destruct (span isWhiteSpace (c :: pre1 ++ w ++ post))
        as [run rest'] eqn:Hr.
      pose proof (span_head_true _ _ _ _ _ Hs1 Hr) as [Hrun Hshort].
      rewrite app_comm_cons in Hr.
      destruct (span_run_within (c :: pre1) w post run rest' Hne Hall Hr)
        as (pre2 & Hpre1 & Hrest').
      apply elem_of_cons. right. apply IH.
      * assert (Hs : length s
                     = (length piece + S (length (pre1 ++ w ++ post)))%nat).
        { rewrite Heq, Hpre, <- !app_assoc, length_app. done. }
        lia.
      * split; [done|]. split; [done|]. exists pre2, post.
        split; [done|]. split; [|done].
        destruct pre2 as [|x pre2]; [by left|]. right.
        rewrite Hpre, Hpre1, !rev_app_distr, <- !app_assoc in Hb1.
        rewrite startsWithSpace_app in Hb1; [done|].
        intros H. apply (f_equal length) in H. rewrite length_rev in H.
        simpl in H. lia.
Qed.

(** The words the code compares are the long tokens of the text. *)
Lemma wordSet_tokens (s w : jstring) : w ∈ wordSet s <-> longToken s w.
Proof.
  unfold wordSet, longWords, longToken, split_ws.
  rewrite elem_of_list_to_set, list_elem_of_filter. split.
  - intros [Hlen Hin]. split; [|done].
    apply (split_gives_tokens (length s) s); [lia|done|].
    intros ->. simpl in Hlen. lia.
  - intros [Htok Hlen]. split; [done|].
    by apply tokens_are_split.
Qed.

End TokenFacts.

(** C6. [textSimilarity a b] is the Jaccard index of the two sets of
    whitespace-separated tokens longer than two characters, where a
    token is a non-empty run of characters that are no whitespace with
    whitespace or an end of the text on either side; it is 0 when
    either set is empty, it does not depend on the order of its
    arguments, it lies between 0 and 1, and it is 1 for a text compared
    with itself as soon as the text has one such token. *)
Theorem textSimilarity_jaccard (a b : jstring) :
  (forall s w : jstring, w ∈ wordSet s <-> longToken s w)
  /\ (wordSet a <> ∅ -> wordSet b <> ∅ ->
      textSimilarity a b = jaccard (wordSet a) (wordSet b))
  /\ (wordSet a = ∅ \/ wordSet b = ∅ -> textSimilarity a b = 0%Q)
  /\ textSimilarity a b = textSimilarity b a
  /\ (0 <= textSimilarity a b /\ textSimilarity a b <= 1)%Q
  /\ (a = b -> (exists w : jstring, longToken a w) ->
      textSimilarity a b == 1)%Q.
Proof.
  split; [exact wordSet_tokens|].
  rewrite !textSimilarity_unfold.
  pose proof (subseteq_size _ _
                (intersection_subseteq_l (wordSet a) (wordSet b))) as HiA.
  pose proof (subseteq_size _ _
                (intersection_subseteq_r (wordSet a) (wordSet b))) as HiB.
  split; [|split; [|split; [|split]]].
  - intros Ha Hb. rewrite wordSet_empty_size in Ha, Hb.
    destruct (size (wordSet a)); [done|]. destruct (size (wordSet b)); done.
  - intros [Ha|Hb].
    + apply wordSet_empty_size in Ha. by rewrite Ha.
    + apply wordSet_empty_size in Hb. rewrite Hb. by rewrite orb_true_r.
  - rewrite (orb_comm (size (wordSet b) =? 0)%nat).
    destruct ((size (wordSet a) =? 0) || (size (wordSet b) =? 0))%nat; [done|].
    unfold jaccard.
    rewrite (comm_L (∩) (wordSet b) (wordSet a)).
    by rewrite (Nat.add_comm (size (wordSet b))).
  - destruct ((size (wordSet a) =? 0) || (size (wordSet b) =? 0))%nat eqn:E.
    + split; [apply Qle_refl | done].
    + apply orb_false_iff in E as [Ea Eb].
      apply Nat.eqb_neq in Ea, Eb.
      unfold jaccard. apply ratio_bounds; lia.
  - intros <- [w Hw]. apply wordSet_tokens in Hw.
    assert (Hne : size (wordSet a) <> 0%nat).
    { intros H0. apply wordSet_empty_size in H0. rewrite H0 in Hw.
      by apply not_elem_of_empty in Hw. }
    rewrite orb_diag. destruct (Nat.eqb_spec (size (wordSet a)) 0); [done|].
    unfold jaccard.
    rewrite (idemp_L (∩) (wordSet a)).
    replace (size (wordSet a) + size (wordSet a) - size (wordSet a))%nat
      with (size (wordSet a)) by lia.
    apply ratio_one. lia.
Qed.

Lemma textSimilarity_jaccard_witness :
  (textSimilarity (utf16 "der Hund bellt laut") (utf16 "der Hund bellt laut") == 1)%Q
  /\ textSimilarity (utf16 "der Hund bellt") (utf16 "der Hund schweigt nun")
     = jaccard (wordSet (utf16 "der Hund bellt"))
               (wordSet (utf16 "der Hund schweigt nun")).
Proof.
  split.
  - destruct (textSimilarity_jaccard (utf16 "der Hund bellt laut")
                (utf16 "der Hund bellt laut")) as (_ & _ & _ & _ & _ & H).
    apply H; [reflexivity|]. exists (utf16 "Hund").
    split; [|vm_compute; lia].
    split; [discriminate|]. split; [reflexivity|].
    exists (utf16 "der "), (utf16 " bellt laut").
    split; [reflexivity|]. split; right; reflexivity.
  - destruct (textSimilarity_jaccard (utf16 "der Hund bellt")
                (utf16 "der Hund schweigt nun")) as (_ & H & _).
    apply H.
    + intros E. apply (f_equal size) in E. vm_compute in E. discriminate.
    + intros E. apply (f_equal size) in E. vm_compute in E. discriminate.
Defined.

(** ** The matcher *)

Section MatcherFacts.
Import Dom Matcher.
Variable u : UnicodeData.
Variable doc : Node.

Lemma Qgtb_true x y : Qgtb x y = true <-> (y < x)%Q.
Proof. unfold Qgtb, Qlt. apply Z.ltb_lt. Qed.

Lemma Qgtb_false x y : Qgtb x y = false <-> (x <= y)%Q.
Proof. unfold Qgtb, Qle. apply Z.ltb_ge. Qed.

Lemma scan_skip used target el rest best bs :
  eligible used el = false ->
  scanCandidates u used target (el :: rest) best bs
  = scanCandidates u used target rest best bs.
Proof.
  unfold eligible. simpl. intros H.
  destruct (bool_decide (ref el ∈ used)); [done|].
  destruct (isContainerElement el); done.
Qed.

Lemma scan_visit used target el rest best bs :
  eligible used el = true ->
  scanCandidates u used target (el :: rest) best bs
  = if bool_decide (exactMatch u target el) then (Some el, 1%Q)
    else if Qgtb (scoreOf u target el) threshold && Qgtb (scoreOf u target el) bs
         then scanCandidates u used target rest (Some el) (scoreOf u target el)
         else scanCandidates u used target rest best bs.
Proof.
  unfold eligible. simpl. intros H.
  destruct (bool_decide (ref el ∈ used)); [done|].
  destruct (isContainerElement el); done.
Qed.

(** The first exact match ends the scan, whatever was seen before. *)
Lemma scan_exact used target cands best bs pre el post :
  filter (fun e => eligible used e = true) cands = pre ++ el :: post ->
  exactMatch u target el ->
  Forall (fun e => ~ exactMatch u target e) pre ->
  scanCandidates u used target cands best bs = (Some el, 1%Q).
Proof.
  revert best bs pre. induction cands as [|c cands IH]; intros best bs pre Hf Hel Hpre.
  - by destruct pre.
  - destruct (eligible used c) eqn:Ec.
    + rewrite filter_cons_True in Hf by done. rewrite scan_visit by done.
      destruct pre as [|p pre].
      * injection Hf as -> _. by rewrite bool_decide_eq_true_2.
      * injection Hf as -> Hf. apply Forall_cons in Hpre as [Hp Hpre].
        rewrite bool_decide_eq_false_2 by done.
        destruct (_ && _); by eapply IH.
    + rewrite filter_cons_False in Hf by congruence.
      rewrite scan_skip by done. by eapply IH.
Qed.

(** Without an exact match the scan keeps the best score above the
    threshold. *)
Lemma scan_best used target cands best bs :
  Forall (fun e => ~ exactMatch u target e)
         (filter (fun e => eligible used e = true) cands) ->
  let r := scanCandidates u used target cands best bs in
  (bs <= snd r)%Q
  /\ Forall (fun e => (threshold < scoreOf u target e)%Q ->
                      (scoreOf u target e <= snd r)%Q)
            (filter (fun e => eligible used e = true) cands)
  /\ (r = (best, bs)
      \/ exists el, r = (Some el, scoreOf u target el)
                    /\ el ∈ filter (fun e => eligible used e = true) cands
                    /\ (threshold < scoreOf u target el)%Q).
Proof.
  revert best bs. induction cands as [|c cands IH]; intros best bs Hne.
  - simpl. split; [apply Qle_refl|]. split; [constructor|by left].
  - destruct (eligible used c) eqn:Ec.
    + rewrite filter_cons_True in Hne |- * by done.
      apply Forall_cons in Hne as [Hc Hne].
      cbv zeta. rewrite scan_visit by done.
      rewrite bool_decide_eq_false_2 by done.
      destruct (Qgtb (scoreOf u target c) threshold) eqn:E1;
        [destruct (Qgtb (scoreOf u target c) bs) eqn:E2|]; simpl andb; cbv iota.
      * apply Qgtb_true in E1, E2.
        destruct (IH (Some c) (scoreOf u target c) Hne) as (Hle & Hall & Hres).
        split; [eapply Qle_trans; [apply Qlt_le_weak, E2|exact Hle]|].
        split; [constructor; [done|exact Hall]|].
        right. destruct Hres as [->|(el & -> & Hin & Hth)].
        -- exists c. split; [done|]. split; [left|done].
        -- exists el. split; [done|]. split; [by right|done].
      * apply Qgtb_false in E2.
        destruct (IH best bs Hne) as (Hle & Hall & Hres).
        split; [done|].
        split; [constructor; [intros _; by eapply Qle_trans|exact Hall]|].
        destruct Hres as [->|(el & -> & Hin & Hth)]; [by left|].
        right. exists el. split; [done|]. split; [by right|done].
      * apply Qgtb_false in E1.
        destruct (IH best bs Hne) as (Hle & Hall & Hres).
        split; [done|].
        split; [constructor; [|exact Hall]|].
        { intros Hth. exfalso. eapply Qlt_irrefl, Qlt_le_trans; eauto. }
        destruct Hres as [->|(el & -> & Hin & Hth)]; [by left|].
        right. exists el. split; [done|]. split; [by right|done].
    + rewrite filter_cons_False in Hne |- * by congruence.
      cbv zeta. rewrite scan_skip by done. by apply IH.
Qed.

(** What the scan returns, if anything new, is an eligible candidate. *)
Lemma scan_result used target cands best bs m s :
  scanCandidates u used target cands best bs = (Some m, s) ->
  Some m = best \/ (m ∈ cands /\ eligible used m = true).
Proof.
  revert best bs. induction cands as [|c cands IH]; intros best bs.
  - simpl. intros [= <- <-]. by left.
  - destruct (eligible used c) eqn:Ec.
    + rewrite scan_visit by done. case_bool_decide as Hex.
      * intros [= <- <-]. right. split; [left|done].
      * destruct (_ && _); intros [H|[H1 H2]]%IH.
        -- injection H as ->. right. split; [left|done].
        -- right. split; [by right|done].
        -- by left.
        -- right. split; [by right|done].
    + rewrite scan_skip by done. intros [H|[H1 H2]]%IH; [by left|].
      right. split; [by right|done].
Qed.

(** *** The page tree *)

Lemma Node_induction (P : Node -> Prop) :
  (forall d, P (TextN d)) ->
  (forall t kids, Forall P kids -> P (Elem t kids)) ->
  forall n, P n.
Proof.
  intros Htext Helem. fix IH 1. intros [d|t kids]; [apply Htext|].
  apply Helem. induction kids as [|k kids IHk]; constructor; [apply IH|exact IHk].
Qed.

Lemma elem_of_flatMapFrom {A B} (f : nat -> A -> list B) i l x :
  x ∈ flatMapFrom f i l <-> exists j y, l !! j = Some y /\ x ∈ f (i + j)%nat y.
Proof.
  revert i. induction l as [|a l IH]; intros i; simpl.
  - rewrite elem_of_nil. split; [done|]. by intros (j & y & ? & _).
  - rewrite elem_of_app, IH. split.
    + intros [H|(j & y & Hj & Hx)].
      * exists 0%nat, a. by rewrite Nat.add_0_r.
      * exists (S j), y. by rewrite Nat.add_succ_r.
    + intros ([|j] & y & Hj & Hx).
      * left. simpl in Hj. injection Hj as ->. by rewrite Nat.add_0_r in Hx.
      * right. exists j, y. by rewrite Nat.add_succ_r in Hx.
Qed.

Lemma selectAll_spec tags n :
  forall r el, el ∈ selectAll tags r n ->
    exists path, ref el = rev path ++ r
                 /\ nodeAtPath n path = Some (node el)
                 /\ hasTag tags (node el) = true.
Proof.
  induction n as [d|t kids IH] using Node_induction; intros r el; simpl.
  - by rewrite elem_of_nil.
  - rewrite elem_of_app. intros [Hhere|Hbelow].
    + case_bool_decide as Ht; [|by apply elem_of_nil in Hhere].
      apply list_elem_of_singleton in Hhere as ->. exists []. simpl.
      by rewrite bool_decide_eq_true_2.
    + apply elem_of_flatMapFrom in Hbelow as (j & k & Hj & Hel).
      rewrite Forall_forall in IH.
      destruct (IH k (list_elem_of_lookup_2 _ _ _ Hj) _ _ Hel)
        as (path & Href & Hnode & Htag).
      exists (j :: path). simpl. rewrite Hj, <- app_assoc. done.
Qed.

Lemma candidates_spec el :
  el ∈ candidates doc ->
  nodeAt doc (ref el) = Some (node el)
  /\ hasTag candidateTags (node el) = true.
Proof.
  intros (path & Href & Hnode & Htag)%selectAll_spec.
  rewrite app_nil_r in Href. unfold nodeAt. by rewrite Href, rev_involutive.
Qed.

Lemma firstIndex_spec p i ks j :
  firstIndex p i ks = Some j ->
  exists k, (i <= j)%nat /\ ks !! (j - i)%nat = Some k /\ p k = true.
Proof.
  revert i. induction ks as [|k ks IH]; intros i; simpl; [done|].
  destruct (p k) eqn:Hk.
  - intros [= <-]. exists k. by rewrite Nat.sub_diag.
  - intros (k' & Hle & Hl & Hp)%IH. exists k'. split; [lia|].
    replace (j - i)%nat with (S (j - S i)) by lia. done.
Qed.

Lemma body_spec b :
  body doc = Some b ->
  exists i k kids, b = [i] /\ doc = Elem "HTML" kids
                   /\ nodeAt doc [i] = Some k
                   /\ hasTag ["BODY"; "FRAMESET"]%string k = true.
Proof.
  unfold body. destruct doc as [|t kids]; [done|].
  case_bool_decide as Ht; [|done]. subst t.
  destruct (firstIndex _ 0%nat kids) as [i|] eqn:E; [|done].
  intros [= <-]. apply firstIndex_spec in E as (k & _ & Hk & Htag).
  rewrite Nat.sub_0_r in Hk. exists i, k, kids.
  unfold nodeAt. simpl. by rewrite Hk.
Qed.

(** Neither the body nor the document element above it is a candidate. *)
Lemma candidate_not_body el x :
  el ∈ candidates doc -> body doc = Some x ->
  ~ (ref el = x \/ isAncestorOf (ref el) x).
Proof.
  intros [Hnode Htag]%candidates_spec
         (i & k & kids & -> & Hdoc & Hk & Hbody)%body_spec Hcase.
  assert (Href : ref el = [i] \/ ref el = []).
  { destruct Hcase as [H|(down & Hne & H)]; [by left|right].
    destruct down as [|j down]; [done|].
    injection H as -> H. symmetry in H. by apply app_eq_nil in H as [_ H]. }
  destruct Href as [Href|Href]; rewrite Href in Hnode.
  - rewrite Hk in Hnode. injection Hnode as Hkn. rewrite <- Hkn in Htag.
    destruct k as [|t ks]; [done|]. simpl in Hbody, Htag.
    apply bool_decide_eq_true_1 in Hbody.
    apply bool_decide_eq_true_1 in Htag.
    apply elem_of_cons in Hbody as [->|Hbody].
    + apply (bool_decide_eq_true_2 _) in Htag. vm_compute in Htag. done.
    + apply list_elem_of_singleton in Hbody as ->.
      apply (bool_decide_eq_true_2 _) in Htag. vm_compute in Htag. done.
  - unfold nodeAt in Hnode. simpl in Hnode. injection Hnode as Hdn.
    rewrite <- Hdn, Hdoc in Htag. vm_compute in Htag. done.
Qed.

(** *** Ancestors and the marking loop *)

Lemma ancestor_cons a i up :
  isAncestorOf a (i :: up) <-> a = up \/ isAncestorOf a up.
Proof.
  split.
  - intros (down & Hne & H). destruct down as [|j down]; [done|].
    injection H as -> ->. destruct down as [|j' down]; [by left|].
    right. by exists (j' :: down).
  - intros [->|(down & Hne & ->)].
    + by exists [i].
    + by exists (i :: down).
Qed.

Lemma ancestor_nil a : ~ isAncestorOf a [].
Proof.
  intros (down & Hne & H). symmetry in H. by apply app_eq_nil in H as [-> _].
Qed.

Lemma markAncestors_unfold parent used :
  markAncestors doc parent used
  = if bool_decide (body doc = Some parent) then used
    else match parent with
         | [] => {[ parent ]} ∪ used
         | _ :: up => markAncestors doc up ({[ parent ]} ∪ used)
         end.
Proof. by destruct parent. Qed.

Lemma markAncestors_spec parent used :
  used ⊆ markAncestors doc parent used
  /\ forall a,
      a = parent \/ isAncestorOf a parent ->
      (forall x, x = parent \/ isAncestorOf x parent ->
                 x = a \/ isAncestorOf a x -> body doc <> Some x) ->
      a ∈ markAncestors doc parent used.
Proof.
  revert used. induction parent as [|i up IH]; intros used;
    rewrite markAncestors_unfold; case_bool_decide as Hb.
  - split; [done|]. intros a Ha Hfree. exfalso.
    apply (Hfree []); [by left| |done].
    destruct Ha as [->|Ha]; [by left|by apply ancestor_nil in Ha].
  - split; [apply union_subseteq_r|]. intros a [->|Ha] _.
    + apply elem_of_union_l, elem_of_singleton. done.
    + by apply ancestor_nil in Ha.
  - split; [done|]. intros a Ha Hfree. exfalso.
    apply (Hfree (i :: up)); [by left| |done].
    destruct Ha as [->|Ha]; [by left|by right].
  - destruct (IH ({[i :: up]} ∪ used)) as [Hsub Hin].
    split; [etrans; [apply union_subseteq_r|exact Hsub]|].
    intros a [->|Ha] Hfree.
    + apply Hsub, elem_of_union_l, elem_of_singleton. done.
    + apply Hin.
      * by apply ancestor_cons in Ha.
      * intros x Hx. apply Hfree. right. by apply ancestor_cons.
Qed.

Lemma markMatched_spec m used :
  used ⊆ markMatched doc m used
  /\ ref m ∈ markMatched doc m used
  /\ forall a, ancestorBelowBody doc a (ref m) -> a ∈ markMatched doc m used.
Proof.
  unfold markMatched, ancestorBelowBody. destruct (ref m) as [|i up]; simpl.
  - split; [apply union_subseteq_r|].
    split; [by apply elem_of_union_l, elem_of_singleton|].
    intros a [Ha _]. by apply ancestor_nil in Ha.
  - destruct (markAncestors_spec up ({[i :: up]} ∪ used)) as [Hsub Hin].
    split; [etrans; [apply union_subseteq_r|exact Hsub]|].
    split; [by apply Hsub, elem_of_union_l, elem_of_singleton|].
    intros a [Ha Hfree]. apply Hin.
    + by apply ancestor_cons in Ha.
    + intros x Hx. apply Hfree. by apply ancestor_cons.
Qed.

(** *** The loop over the blocks *)

Lemma matchBlock_cases found used text :
  (matchBlock u doc (found, used) text = (found, used)
   /\ fst (scanCandidates u used (normalizeText u text) (candidates doc)
                          None 0%Q) = None)
  \/ exists m s,
      scanCandidates u used (normalizeText u text) (candidates doc) None 0%Q
      = (Some m, s)
      /\ matchBlock u doc (found, used) text
         = (found ++ [m], markMatched doc m used)
      /\ m ∈ candidates doc /\ ref m ∉ used.
Proof.
  unfold matchBlock.
  destruct (scanCandidates _ _ _ _ _ _) as [[m|] s] eqn:E; simpl.
  - right. exists m, s. split; [done|]. split; [done|].
    apply scan_result in E as [E|[Hin Hel]]; [done|]. split; [done|].
    unfold eligible in Hel. apply andb_prop in Hel as [Hel _].
    apply negb_true_iff, bool_decide_eq_false_1 in Hel. done.
  - by left.
Qed.

Lemma matchBlock_inv found used text :
  MatchInv doc found used ->
  MatchInv doc (matchBlock u doc (found, used) text).1
               (matchBlock u doc (found, used) text).2.
Proof.
  intros [Hcand Hnd Hused Hord].
  destruct (matchBlock_cases found used text)
    as [[E _]|(m & s & _ & E & Hm & Hfresh)]; rewrite E; [done|].
  destruct (markMatched_spec m used) as (Hsub & Hself & Hanc). simpl.
  split.
  - intros d [Hd| ->%list_elem_of_singleton]%elem_of_app; [by apply Hcand|done].
  - rewrite fmap_app. apply NoDup_app. split; [done|]. split.
    + intros x (d & -> & Hd)%list_elem_of_fmap Hx. simpl in Hx.
      apply list_elem_of_singleton in Hx. apply Hfresh. rewrite <- Hx.
      by apply Hused.
    + apply NoDup_singleton.
  - intros d [Hd| ->%list_elem_of_singleton]%elem_of_app.
    + destruct (Hused d Hd) as [H1 H2]. split; [by apply Hsub|].
      intros a Ha. by apply Hsub, H2.
    + done.
  - intros i j d a Hij Hi Hj.
    destruct (decide (j < length found)%nat) as [Hlt|Hge].
    + rewrite lookup_app_l in Hi, Hj by lia. exact (Hord i j d a Hij Hi Hj).
    + assert (Hd : d ∈ found).
      { apply lookup_lt_Some in Hj as Hjlen. rewrite length_app in Hjlen.
        simpl in Hjlen. rewrite lookup_app_l in Hi by lia.
        by eapply list_elem_of_lookup_2. }
      rewrite lookup_app_r in Hj by lia.
      apply list_lookup_singleton_Some in Hj as [_ <-].
      intros Hanc'. apply Hfresh. apply (Hused d Hd).
      split; [done|]. intros x _ Hx Hbody.
      apply (candidate_not_body m x Hm Hbody).
      destruct Hx as [->|Hx]; [by left|by right].
Qed.

Lemma matchBlocks_inv blocks found used :
  MatchInv doc found used ->
  let r := foldl (matchBlock u doc) (found, used) blocks in
  MatchInv doc r.1 r.2
  /\ used ⊆ r.2
  /\ exists rest, r.1 = found ++ rest /\ forall m, m ∈ rest -> ref m ∉ used.
Proof.
  revert found used. induction blocks as [|text blocks IH]; intros found used Hinv.
  - simpl. split; [done|]. split; [done|]. exists []. rewrite app_nil_r.
    split; [done|]. intros m Hm. by apply elem_of_nil in Hm.
  - pose proof (matchBlock_inv found used text Hinv) as Hinv'.
    change (foldl (matchBlock u doc) (found, used) (text :: blocks))
      with (foldl (matchBlock u doc) (matchBlock u doc (found, used) text) blocks).
    destruct (matchBlock_cases found used text)
      as [[E _]|(m & s & _ & E & Hm & Hfresh)]; rewrite E in Hinv' |- *.
    + by apply IH.
    + simpl in Hinv'. destruct (markMatched_spec m used) as (Hsub & _).
      destruct (IH _ _ Hinv') as (Hfinal & Hsub' & rest & Hrest & Hnew).
      split; [done|]. split; [by etrans|].
      exists (m :: rest). split; [by rewrite Hrest, <- app_assoc|].
      intros m' [-> |Hm']%elem_of_cons; [done|].
      intros Hin. by apply (Hnew m' Hm'), Hsub.
Qed.

Lemma MatchInv_start : MatchInv doc [] ∅.
Proof.
  split.
  - intros d Hd. by apply elem_of_nil in Hd.
  - constructor.
  - intros d Hd. by apply elem_of_nil in Hd.
  - intros i j d a _ Hi. done.
Qed.
End MatcherFacts.

(** C1. The matcher never returns the same live element for two blocks,
    and never an element that is an ancestor of one matched for an
    earlier block.  Whatever the loop has matched after some of the
    blocks is in the set of used elements, together with all its
    ancestors up to (excluding) the body, and no element matched for a
    later block is in that set. *)
Theorem matcher_never_repeats_nor_matches_ancestor
    (u : UnicodeData) (doc : Dom.Node) (textBlocks : list jstring) :
  let found := Matcher.findOriginalElementsByText u doc textBlocks in
  NoDup (Dom.ref <$> found)
  /\ (forall i j d a, (i < j)%nat ->
        found !! i = Some d -> found !! j = Some a ->
        ~ Matcher.isAncestorOf (Dom.ref a) (Dom.ref d))
  /\ (forall earlier later, textBlocks = earlier ++ later ->
        let st := foldl (Matcher.matchBlock u doc) ([], ∅) earlier in
        (forall d, d ∈ st.1 ->
           Dom.ref d ∈ st.2
           /\ forall a, Matcher.ancestorBelowBody doc a (Dom.ref d) -> a ∈ st.2)
        /\ exists rest, found = st.1 ++ rest
                        /\ forall m, m ∈ rest -> Dom.ref m ∉ st.2).
Proof.
  intros found. subst found. unfold Matcher.findOriginalElementsByText.
  destruct (matchBlocks_inv u doc textBlocks [] ∅ (MatchInv_start doc))
    as ([_ Hnd _ Hord] & _ & _).
  split; [done|]. split; [done|].
  intros earlier later ->. rewrite foldl_app. cbv zeta.
  destruct (matchBlocks_inv u doc earlier [] ∅ (MatchInv_start doc))
    as (Hinv & _ & _).
  destruct (foldl (Matcher.matchBlock u doc) ([], ∅) earlier) as [found1 used1].
  simpl in Hinv |- *.
  split; [by destruct Hinv|].
  destruct (matchBlocks_inv u doc later found1 used1 Hinv) as (_ & _ & Hrest).
  exact Hrest.
Qed.

Lemma matcher_never_repeats_nor_matches_ancestor_witness :
  ~ Matcher.isAncestorOf [1; 1]%nat [0; 0; 1]%nat.
Proof.
  destruct (matcher_never_repeats_nor_matches_ancestor latin_ucd
              Matcher.samplePage
              [Matcher.sampleText1; Matcher.sampleText2; Matcher.sampleText1])
    as (_ & H & _).
  apply (H 0%nat 2%nat
           {| Dom.ref := [0; 0; 1]%nat;
              Dom.node := Dom.Elem "P" [Dom.TextN Matcher.sampleText1] |}
           {| Dom.ref := [1; 1]%nat;
              Dom.node := Dom.Elem "DIV"
                            [Dom.Elem "SPAN" [Dom.TextN Matcher.sampleText1]] |}).
  - lia.
  - vm_compute. reflexivity.
  - vm_compute. reflexivity.
Defined.

(** C4. For one block, with [usedElements] as it stands: the candidates
    are gone through in document order, those in [usedElements] and the
    containers are skipped; the first of the others whose normalized
    text is the normalized block text is taken with score 1 and ends the
    scan; without such a candidate the one with the highest similarity
    above 0.85 is taken; and when no similarity is above 0.85 nothing is
    taken and the block leaves no trace in the result. *)
Theorem first_exact_else_best_above_threshold
    (u : UnicodeData) (doc : Dom.Node) (found : list Dom.Element)
    (usedElements : gset Dom.ElemRef) (targetText : jstring) :
  let target := normalizeText u targetText in
  let open := filter (fun e => Matcher.eligible usedElements e = true)
                     (Matcher.candidates doc) in
  let r := Matcher.scanCandidates u usedElements target
             (Matcher.candidates doc) None 0%Q in
  let next := Matcher.matchBlock u doc (found, usedElements) targetText in
  (forall pre el post,
      open = pre ++ el :: post ->
      Matcher.exactMatch u target el ->
      Forall (fun e => ~ Matcher.exactMatch u target e) pre ->
      r = (Some el, 1%Q)
      /\ next = (found ++ [el], Matcher.markMatched doc el usedElements))
  /\ (Forall (fun e => ~ Matcher.exactMatch u target e) open ->
      (forall e, e ∈ open -> (Matcher.threshold < Matcher.scoreOf u target e)%Q ->
         exists best,
           r = (Some best, Matcher.scoreOf u target best)
           /\ best ∈ open
           /\ (Matcher.threshold < Matcher.scoreOf u target best)%Q
           /\ Forall (fun e' => (Matcher.scoreOf u target e'
                                 <= Matcher.scoreOf u target best)%Q) open
           /\ next = (found ++ [best], Matcher.markMatched doc best usedElements))
      /\ (Forall (fun e => (Matcher.scoreOf u target e <= Matcher.threshold)%Q) open ->
          r = (None, 0%Q) /\ next = (found, usedElements))).
Proof.
  intros target open r next.
  assert (Hnext : forall m s, r = (Some m, s) ->
            next = (found ++ [m], Matcher.markMatched doc m usedElements)).
  { intros m s Hr. subst next. unfold Matcher.matchBlock.
    fold target. fold r. by rewrite Hr. }
  split.
  - intros pre el post Hopen Hel Hpre.
    assert (Hr : r = (Some el, 1%Q)) by (by eapply scan_exact).
    split; [done|]. by eapply Hnext.
  - intros Hnone.
    destruct (scan_best u usedElements target (Matcher.candidates doc) None 0%Q Hnone)
      as (_ & Hall & Hres).
    fold r in Hall, Hres. fold open in Hall, Hres.
    split.
    + intros e He Hth.
      destruct Hres as [Hr|(best & Hr & Hin & Hbest)].
      * exfalso. rewrite Forall_forall in Hall. specialize (Hall e He Hth).
        rewrite Hr in Hall. simpl in Hall.
        assert (H0 : (Matcher.threshold < 0)%Q) by (eapply Qlt_le_trans; eauto).
        by vm_compute in H0.
      * exists best. split; [done|]. split; [done|]. split; [done|].
        split; [|by eapply Hnext].
        rewrite Hr in Hall. simpl in Hall. rewrite Forall_forall in Hall |- *.
        intros e' He'.
        destruct (Qlt_le_dec Matcher.threshold (Matcher.scoreOf u target e'))
          as [Hlt|Hle]; [by apply Hall|].
        eapply Qle_trans; [exact Hle|by apply Qlt_le_weak].
    + intros Hlow.
      destruct Hres as [Hr|(best & Hr & Hin & Hbest)].
      * split; [done|]. subst next. unfold Matcher.matchBlock.
        fold target. fold r. by rewrite Hr.
      * exfalso. rewrite Forall_forall in Hlow. specialize (Hlow best Hin).
        eapply Qlt_irrefl, Qlt_le_trans; eauto.
Qed.

Lemma first_exact_else_best_above_threshold_witness :
  Matcher.scanCandidates latin_ucd ∅ (normalizeText latin_ucd Matcher.sampleText1)
    (Matcher.candidates Matcher.samplePage) None 0%Q
  = (Some {| Dom.ref := [0; 0; 1]%nat;
             Dom.node := Dom.Elem "P" [Dom.TextN Matcher.sampleText1] |}, 1%Q)
  /\ Matcher.scanCandidates latin_ucd ∅ (normalizeText latin_ucd (utf16 "Ganz anderer Text hier"))
       (Matcher.candidates Matcher.samplePage) None 0%Q
     = (None, 0%Q).
Proof.
  split.
  - destruct (first_exact_else_best_above_threshold latin_ucd Matcher.samplePage
                [] ∅ Matcher.sampleText1) as [H _].
    refine (proj1 (H [] _ (drop 1 (filter (fun e => Matcher.eligible ∅ e = true)
                                     (Matcher.candidates Matcher.samplePage)))
                     _ _ _)).
    + vm_compute. reflexivity.
    + vm_compute. reflexivity.
    + constructor.
  - destruct (first_exact_else_best_above_threshold latin_ucd Matcher.samplePage
                [] ∅ (utf16 "Ganz anderer Text hier")) as [_ H].
    refine (proj1 (proj2 (H _) _)).
    + repeat constructor; vm_compute; discriminate.
    + repeat constructor; vm_compute; discriminate.
Defined.

(** ** The reversible rewrite *)

Section PageFacts.
Import Dom Page.
Variable u : UnicodeData.

Lemma getEl_insert (el : ElemRef) (x : ElState) (d : gmap ElemRef ElState) :
  getEl (<[el := x]> d) el = x.
Proof. unfold getEl. by rewrite lookup_insert_eq. Qed.

Lemma getEl_insert_ne (el e : ElemRef) (x : ElState) (d : gmap ElemRef ElState) :
  e <> el -> getEl (<[el := x]> d) e = getEl d e.
Proof. intros H. unfold getEl. by rewrite lookup_insert_ne. Qed.

Lemma applyStep_insert (page : Node) (d : gmap ElemRef ElState)
    (os : list jstring) (el : ElemRef) (b : Block) :
  applyStep u page (d, os) (el, b)
  = (<[el := appliedElement u b (textContent page d el) (getEl d el)]> d,
     os ++ [textContent page d el]).
Proof.
  unfold applyStep, setDataset, setClassList, setChildren, setListeners.
  cbv zeta. rewrite !getEl_insert, !insert_insert_eq. done.
Qed.

Lemma restoreStep_insert (sess : Session) (d : gmap ElemRef ElState)
    (i : nat) (el : ElemRef) :
  restoreStep sess d (i, el)
  = <[el := restoredElement (default [] (originals sess !! i)) (getEl d el)]> d.
Proof.
  unfold restoreStep, setTextContent, setDataset, setClassList, setChildren,
    setListeners.
  cbv zeta. rewrite !getEl_insert, !insert_insert_eq. done.
Qed.

(** *** Reading the text of an element depends on its subtree only *)

Lemma flatMapFrom_ext {A B} (f g : nat -> A -> list B) i l :
  (forall j x, l !! j = Some x -> f (i + j)%nat x = g (i + j)%nat x) ->
  flatMapFrom f i l = flatMapFrom g i l.
Proof.
  revert i. induction l as [|a l IH]; intros i H; simpl; [done|].
  rewrite (IH (S i)).
  - f_equal. specialize (H 0%nat a eq_refl). by rewrite Nat.add_0_r in H.
  - intros j x Hj. specialize (H (S j) x Hj). by rewrite Nat.add_succ_r in H.
Qed.

Lemma liveText_elem (d : gmap ElemRef ElState) (r : ElemRef) t kids :
  liveText d r (Elem t kids)
  = match d !! r ≫= content with
    | Some cs => flat_map childText cs
    | None => flatMapFrom (fun i k => liveText d (i :: r) k) 0%nat kids
    end.
Proof. reflexivity. Qed.

Lemma liveText_frame (d d' : gmap ElemRef ElState) (n : Node) :
  forall r : ElemRef,
    (forall down : ElemRef, d !! (down ++ r) = d' !! (down ++ r)) ->
    liveText d r n = liveText d' r n.
Proof.
  induction n as [s|t kids IH] using Node_induction; intros r Hagree; [done|].
  pose proof (Hagree []) as H0. change ([] ++ r) with r in H0.
  rewrite !liveText_elem, <- H0.
  destruct (d !! r ≫= content); [done|].
  apply flatMapFrom_ext. intros j k Hj. simpl.
  rewrite Forall_forall in IH.
  apply (IH k (list_elem_of_lookup_2 _ _ _ Hj)).
  intros down. specialize (Hagree (down ++ [j])).
  by rewrite <- !app_assoc in Hagree.
Qed.

Lemma textContent_frame (page : Node) (d d' : gmap ElemRef ElState)
    (el : ElemRef) :
  (forall down : ElemRef, d !! (down ++ el) = d' !! (down ++ el)) ->
  textContent page d el = textContent page d' el.
Proof.
  intros H. unfold textContent. destruct (nodeAt page el); [|done].
  by apply liveText_frame.
Qed.

Lemma below_cases (down e el : ElemRef) :
  down ++ e = el -> e = el \/ Matcher.isAncestorOf e el.
Proof.
  intros <-. destruct down as [|i down]; [by left|]. right. by exists (i :: down).
Qed.

Lemma textContent_insert_other (page : Node) (d : gmap ElemRef ElState)
    (el : ElemRef) (x : ElState) (e : ElemRef) :
  e <> el -> ~ Matcher.isAncestorOf e el ->
  textContent page (<[el := x]> d) e = textContent page d e.
Proof.
  intros Hne Hanc. apply textContent_frame. intros down.
  apply lookup_insert_ne. intros H. symmetry in H.
  apply below_cases in H as [H|H]; done.
Qed.

(** What an element reads after the script has set its children. *)
Lemma textContent_restored (page : Node) (d : gmap ElemRef ElState)
    (el : ElemRef) (orig : jstring) (e0 : ElState) :
  d !! el = Some (restoredElement orig e0) ->
  textContent page d el
  = match nodeAt page el with
    | Some (Elem _ _) => orig
    | Some (TextN s) => s
    | None => []
    end.
Proof.
  intros H. unfold textContent. destruct (nodeAt page el) as [[s|t ks]|]; [done| |done].
  rewrite liveText_elem, H. simpl. destruct orig; [done|]. simpl. by rewrite app_nil_r.
Qed.

Lemma textContent_shape (page : Node) (d : gmap ElemRef ElState)
    (el : ElemRef) :
  match nodeAt page el with
  | Some (Elem _ _) => True
  | Some (TextN s) => textContent page d el = s
  | None => textContent page d el = []
  end.
Proof. unfold textContent. by destruct (nodeAt page el) as [[s|t ks]|]. Qed.

(** *** The two loops *)

Lemma laterNotAbove_cons a l :
  laterNotAbove (a :: l) ->
  laterNotAbove l /\ forall b, b ∈ l -> b <> a /\ ~ Matcher.isAncestorOf b a.
Proof.
  intros H. split.
  - intros i j x y Hij Hi Hj. apply (H (S i) (S j)); [lia|done..].
  - intros b [j Hj]%list_elem_of_lookup. apply (H 0%nat (S j)); [lia|done..].
Qed.

Lemma laterNotAbove_NoDup l : laterNotAbove l -> NoDup l.
Proof.
  induction l as [|a l IH]; [constructor|].
  intros [Hl Ha]%laterNotAbove_cons. constructor; [|by apply IH].
  intros Hin. by destruct (Ha a Hin).
Qed.

Lemma apply_fold (page : Node) (ps : list (ElemRef * Block)) :
  forall (d : gmap ElemRef ElState) (os : list jstring), laterNotAbove ps.*1 ->
    exists d',
      foldl (applyStep u page) (d, os) ps
      = (d', os ++ (textContent page d <$> ps.*1))
      /\ forall e, e ∉ ps.*1 -> d' !! e = d !! e.
Proof.
  induction ps as [|[el b] ps IH]; intros d os Hord.
  - exists d. simpl. by rewrite app_nil_r.
  - rewrite fmap_cons in Hord. simpl in Hord.
    apply laterNotAbove_cons in Hord as [Hord Hel].
    change (foldl (applyStep u page) (d, os) ((el, b) :: ps))
      with (foldl (applyStep u page) (applyStep u page (d, os) (el, b)) ps).
    rewrite applyStep_insert.
    destruct (IH (<[el := appliedElement u b (textContent page d el) (getEl d el)]> d)
                 (os ++ [textContent page d el]) Hord) as (d' & Hfold & Hframe).
    exists d'. split.
    + rewrite Hfold. f_equal. rewrite <- app_assoc. f_equal.
      rewrite fmap_cons. simpl. f_equal.
      apply list_fmap_ext. intros j e Hj.
      destruct (Hel e (list_elem_of_lookup_2 _ _ _ Hj)) as [Hne Hanc].
      by apply textContent_insert_other.
    + intros e He. rewrite fmap_cons in He. simpl in He.
      apply not_elem_of_cons in He as [Hne He].
      rewrite (Hframe e He). by apply lookup_insert_ne.
Qed.

Lemma restore_fold (sess : Session) (ps : list (nat * ElemRef)) :
  forall d : gmap ElemRef ElState, NoDup ps.*2 ->
    let d' := foldl (restoreStep sess) d ps in
    (forall i el, (i, el) ∈ ps ->
       d' !! el = Some (restoredElement (default [] (originals sess !! i))
                                        (getEl d el)))
    /\ forall e, e ∉ ps.*2 -> d' !! e = d !! e.
Proof.
  induction ps as [|[i0 el0] ps IH]; intros d Hnd.
  - split; [|done]. intros i el H. by apply elem_of_nil in H.
  - rewrite fmap_cons in Hnd. simpl in Hnd. apply NoDup_cons in Hnd as [Hfresh Hnd].
    change (foldl (restoreStep sess) d ((i0, el0) :: ps))
      with (foldl (restoreStep sess) (restoreStep sess d (i0, el0)) ps).
    rewrite restoreStep_insert. cbv zeta.
    destruct (IH (<[el0 := restoredElement (default [] (originals sess !! i0))
                             (getEl d el0)]> d) Hnd) as [Hin Hout].
    split.
    + intros i el [[= -> ->]|Hel]%elem_of_cons.
      * rewrite (Hout el0 Hfresh). apply lookup_insert_eq.
      * rewrite (Hin i el Hel). rewrite getEl_insert_ne; [done|].
        intros ->. apply Hfresh. apply list_elem_of_fmap. by exists (i, el0).
    + intros e He. rewrite fmap_cons in He. simpl in He.
      apply not_elem_of_cons in He as [Hne He].
      rewrite (Hout e He). by apply lookup_insert_ne.
Qed.

Lemma imap_pair_snd (l : list ElemRef) : (imap pair l).*2 = l.
Proof.
  apply list_eq. intros i. rewrite list_lookup_fmap, list_lookup_imap.
  by destruct (l !! i).
Qed.

Lemma imap_pair_elem (l : list ElemRef) i el :
  l !! i = Some el -> (i, el) ∈ imap pair l.
Proof.
  intros H. apply list_elem_of_lookup. exists i.
  by rewrite list_lookup_imap, H.
Qed.
End PageFacts.

Section RestoreFacts.
Import Dom Page.
Variable u : UnicodeData.

(** The page and the session after [applyTranslations], then after
    [restoreOriginal]. *)
Lemma restore_apply_dom (els : list ElemRef) (blocks : list Block) (st : State) :
  laterNotAbove els ->
  let count := min (length els) (length blocks) in
  let st' := restoreOriginal (applyTranslations u els blocks st) in
  doc st' = doc st
  /\ translationState st' = None
  /\ (forall i e, (i < count)%nat -> els !! i = Some e ->
        exists e0, dom st' !! e
                   = Some (restoredElement (textContent (doc st) (dom st) e) e0))
  /\ (forall e, e ∉ take count els -> dom st' !! e = dom st !! e).
Proof.
  intros Hord count st'. subst st'. unfold applyTranslations. fold count.
  assert (Hfst : (zip (take count els) (take count blocks)).*1 = take count els).
  { apply fst_zip. rewrite !length_take. lia. }
  assert (Hord' : laterNotAbove (take count els)).
  { intros i j a b Hij Hi Hj.
    apply lookup_take_Some in Hi as [Hi _]. apply lookup_take_Some in Hj as [Hj _].
    by apply (Hord i j). }
  destruct (apply_fold u (doc st) (zip (take count els) (take count blocks))
              (dom st) []) as (d1 & Hfold & Hframe1).
  { by rewrite Hfst. }
  rewrite Hfold, Hfst. simpl app.
  unfold restoreOriginal. simpl translationState. cbv iota beta.
  set (sess := {| elements := take count els;
                  originals := textContent (doc st) (dom st) <$> take count els |}).
  destruct (restore_fold sess (imap pair (take count els)) d1) as [Hin Hout].
  { rewrite imap_pair_snd. by apply laterNotAbove_NoDup. }
  rewrite imap_pair_snd in Hout. rewrite Hfst in Hframe1.
  simpl. split; [done|]. split; [done|]. split.
  - intros i e Hi He.
    assert (Htake : take count els !! i = Some e).
    { by rewrite lookup_take_lt. }
    exists (getEl d1 e). rewrite (Hin i e (imap_pair_elem _ _ _ Htake)).
    simpl. by rewrite list_lookup_fmap, Htake.
  - intros e He. by rewrite (Hout e He), (Hframe1 e He).
Qed.
End RestoreFacts.

Lemma beyond_not_taken (els : list Dom.ElemRef) (count i : nat)
    (e down : Dom.ElemRef) :
  Page.laterNotAbove els -> (count <= i)%nat -> els !! i = Some e ->
  down ++ e ∉ take count els.
Proof.
  intros Hord Hi He [i' [Hi' Hlt]]%elem_of_take.
  destruct (Hord i' i (down ++ e) e ltac:(lia) Hi' He) as [Hne Hanc].
  destruct (below_cases down e (down ++ e) eq_refl); done.
Qed.

Lemma restore_apply_text (u : UnicodeData) (els : list Dom.ElemRef)
    (blocks : list Page.Block) (st : Page.State) :
  Page.laterNotAbove els ->
  let st' := Page.restoreOriginal (Page.applyTranslations u els blocks st) in
  forall e, e ∈ els ->
    Page.textContent (Page.doc st') (Page.dom st') e
    = Page.textContent (Page.doc st) (Page.dom st) e.
Proof.
  intros Hord st'.
  destruct (restore_apply_dom u els blocks st Hord) as (Hdoc & _ & Hin & Hout).
  fold st' in Hdoc, Hin, Hout.
  intros e [i He]%list_elem_of_lookup. rewrite Hdoc.
  destruct (decide (i < min (length els) (length blocks))%nat) as [Hlt|Hge].
  - destruct (Hin i e Hlt He) as [e0 Hdom].
    rewrite (textContent_restored _ _ _ _ _ Hdom).
    pose proof (textContent_shape (Page.doc st) (Page.dom st) e) as Hshape.
    destruct (Dom.nodeAt (Page.doc st) e) as [[s|t ks]|]; done.
  - apply textContent_frame. intros down. apply Hout.
    apply (beyond_not_taken els _ i); [done|lia|done].
Qed.

(** C2, as the code has it.  When no element of the list is listed twice
    or is an ancestor of an element listed before it (the matcher's
    results are such), restoring after [applyTranslations] gives every
    listed element the text content it had before the call; the first
    min(|E|, |B|) elements are left without the class [vakya-translated],
    without the stored original and context and without the click
    handler; the elements past them are as they were; and no session is
    left. *)
Theorem restore_after_apply (u : UnicodeData) (els : list Dom.ElemRef)
    (blocks : list Page.Block) (st : Page.State) :
  Page.laterNotAbove els ->
  let count := min (length els) (length blocks) in
  let st' := Page.restoreOriginal (Page.applyTranslations u els blocks st) in
  (forall e, e ∈ els ->
     Page.textContent (Page.doc st') (Page.dom st') e
     = Page.textContent (Page.doc st) (Page.dom st) e)
  /\ (forall i e, (i < count)%nat -> els !! i = Some e ->
        let state := Page.getEl (Page.dom st') e in
        ("vakya-translated"%string ∉ Page.classList state)
        /\ (Page.dataset state) !! "vakyaOriginal"%string = None
        /\ (Page.dataset state) !! "vakyaContext"%string = None
        /\ ("click"%string, handleSentenceClick) ∉ Page.listeners state)
  /\ (forall i e, (count <= i)%nat -> els !! i = Some e ->
        Page.dom st' !! e = Page.dom st !! e)
  /\ Page.translationState st' = None.
Proof.
  intros Hord count st'.
  destruct (restore_apply_dom u els blocks st Hord) as (Hdoc & Hnone & Hin & Hout).
  fold count in Hin, Hout. fold st' in Hdoc, Hnone, Hin, Hout.
  split; [|split; [|split]].
  - by apply restore_apply_text.
  - intros i e Hi He state. subst state.
    destruct (Hin i e Hi He) as [e0 Hdom].
    unfold Page.getEl. rewrite Hdom. simpl.
    split; [|split; [|split]].
    + unfold Page.classList_remove. rewrite list_elem_of_filter. by intros [? _].
    + rewrite lookup_delete_ne by done. apply lookup_delete_eq.
    + apply lookup_delete_eq.
    + unfold Page.removeEventListener. rewrite list_elem_of_filter. by intros [? _].
  - intros i e Hi He. apply Hout.
    apply (beyond_not_taken els count i e [] Hord Hi He).
  - done.
Qed.

Lemma restore_after_apply_witness :
  Page.textContent Matcher.samplePage
    (Page.dom (Page.restoreOriginal
                 (Page.applyTranslations latin_ucd
                    [Page.sampleParagraph; Page.sampleParagraph2]
                    [Page.sampleBlock1] Page.sampleState)))
    Page.sampleParagraph
  = Matcher.sampleText1.
Proof.
  refine (proj1 (restore_after_apply latin_ucd
                   [Page.sampleParagraph; Page.sampleParagraph2]
                   [Page.sampleBlock1] Page.sampleState _)
                Page.sampleParagraph _).
  - intros [|[|i]] [|[|j]] a b Hij Hi Hj; try lia; try done.
    injection Hi as <-. injection Hj as <-. split; [done|].
    intros (down & Hne & H). apply (f_equal length) in H.
    rewrite length_app in H. simpl in H. destruct down; [done|simpl in H; lia].
  - left.
Defined.

(** The claim read for every list of elements fails.  With the first
    paragraph listed twice and two blocks: turn 0 stores the paragraph's
    text and renders the first translation; turn 1 stores the text the
    paragraph has by then, the first translation, and renders the
    second; [restoreOriginal] writes the stored texts back in that
    order, so the paragraph ends on the first translation. *)
Lemma restore_after_apply_any_list_counterexample :
  ~ (forall (u : UnicodeData) (els : list Dom.ElemRef)
            (blocks : list Page.Block) (st : Page.State),
        blocks <> [] ->
        let st' := Page.restoreOriginal (Page.applyTranslations u els blocks st) in
        forall e, e ∈ els ->
          Page.textContent (Page.doc st') (Page.dom st') e
          = Page.textContent (Page.doc st) (Page.dom st) e).
Proof.
  intros H.
  specialize (H latin_ucd [Page.sampleParagraph; Page.sampleParagraph]
                [Page.sampleBlock1; Page.sampleBlock2] Page.sampleState
                ltac:(done) Page.sampleParagraph ltac:(left)).
  vm_compute in H. discriminate H.
Qed.

(** The lists the matcher returns, on whatever document, meet the
    condition of the statement above. *)
Lemma matcher_output_laterNotAbove (u : UnicodeData) (doc : Dom.Node)
    (textBlocks : list jstring) :
  Page.laterNotAbove
    (Dom.ref <$> Matcher.findOriginalElementsByText u doc textBlocks).
Proof.
  unfold Matcher.findOriginalElementsByText.
  destruct (matchBlocks_inv u doc textBlocks [] ∅ (MatchInv_start doc))
    as ([_ Hnd _ Hord] & _ & _).
  intros i j a b Hij Hi Hj.
  rewrite list_lookup_fmap in Hi, Hj.
  destruct (_ !! i) as [d|] eqn:Ed; [|done].
  destruct (_ !! j) as [d'|] eqn:Ed'; [|done].
  simpl in Hi, Hj. injection Hi as <-. injection Hj as <-. split.
  - intros Heq.
    assert (i = j); [|lia].
    eapply NoDup_lookup; [exact Hnd| |].
    + by rewrite list_lookup_fmap, Ed.
    + rewrite list_lookup_fmap, Ed'. simpl. by rewrite Heq.
  - by apply (Hord i j).
Qed.

(** C8. With a session active, [translatePage] only shows the notice
    "Page already translated" (with the restore button) and returns: the
    page, the state of every element, the session, the translator, the
    tooltip, the overlay, the interaction state and the timers are what
    they were, and the one session variable still holds the same
    session. *)
Theorem translatePage_rejected_when_active (u : UnicodeData)
    (parsed : option Page.Article) (scriptNodes : list Dom.Node)
    (st : Page.State) (sess : Page.Session) :
  Page.translationState st = Some sess ->
  let notice := {| Page.bar_message := Page.PageAlreadyTranslated;
                   Page.bar_type := Page.info;
                   Page.bar_restoreButton := true |} in
  let st' := (Page.translatePage u parsed scriptNodes st).1 in
  Page.translatePage u parsed scriptNodes st
  = (Page.set_floatingBar (Some notice) st, Page.Finished)
  /\ Page.activeFloatingBar st' = Some notice
  /\ Page.doc st' = Page.doc st
  /\ Page.dom st' = Page.dom st
  /\ Page.translationState st' = Some sess
  /\ Page.browserTranslator st' = Page.browserTranslator st
  /\ Page.browserTranslatorInitialized st' = Page.browserTranslatorInitialized st
  /\ Page.translatorLanguages st' = Page.translatorLanguages st
  /\ Page.activeTooltip st' = Page.activeTooltip st
  /\ Page.currentClickedWord st' = Page.currentClickedWord st
  /\ Page.activeOverlay st' = Page.activeOverlay st
  /\ Page.isModifierHeld st' = Page.isModifierHeld st
  /\ Page.hoveredSentence st' = Page.hoveredSentence st
  /\ Page.timers st' = Page.timers st.
Proof.
  intros Hsess notice st'.
  assert (E : Page.translatePage u parsed scriptNodes st
              = (Page.set_floatingBar (Some notice) st, Page.Finished)).
  { unfold Page.translatePage. rewrite Hsess.
    rewrite bool_decide_eq_true_2 by (by eexists).
    unfold Page.showFloatingBar, Page.hideFloatingBar. simpl.
    rewrite Hsess. rewrite bool_decide_eq_true_2 by (by eexists). done. }
  subst st'. rewrite E. simpl. rewrite Hsess. done.
Qed.

Lemma translatePage_rejected_when_active_witness :
  Page.dom (Page.translatePage latin_ucd None [] Page.translatedState).1
  = Page.dom Page.translatedState.
Proof.
  destruct (translatePage_rejected_when_active latin_ucd None []
              Page.translatedState
              {| Page.elements := [Page.sampleParagraph; Page.sampleParagraph2];
                 Page.originals := [Matcher.sampleText1; Matcher.sampleText2] |})
    as (_ & _ & _ & H & _).
  - vm_compute. reflexivity.
  - exact H.
Defined.

(** C9, on the code.  [restoreOriginal] closes the tooltip, and it never
    touches the sentence highlight: on the translated sample page, with
    the modifier held over the first paragraph and its original shown,
    restoring closes the tooltip but leaves [hoveredSentence] on the
    paragraph and the class [vakya-sentence-hover] on it. *)
Theorem restoreOriginal_keeps_sentence_hover :
  (forall st, Page.hoveredSentence (Page.restoreOriginal st)
              = Page.hoveredSentence st)
  /\ (forall st, is_Some (Page.translationState st) ->
                 Page.activeTooltip (Page.restoreOriginal st) = None)
  /\ is_Some (Page.translationState Page.hoveringState)
  /\ is_Some (Page.activeTooltip Page.hoveringState)
  /\ Page.hoveredSentence Page.hoveringState = Some Page.sampleParagraph
  /\ Page.activeTooltip (Page.restoreOriginal Page.hoveringState) = None
  /\ Page.hoveredSentence (Page.restoreOriginal Page.hoveringState)
     = Some Page.sampleParagraph
  /\ Page.classList (Page.getEl (Page.dom (Page.restoreOriginal Page.hoveringState))
                                Page.sampleParagraph)
     = ["vakya-sentence-hover"%string]
  /\ Page.textContent Matcher.samplePage
       (Page.dom (Page.restoreOriginal Page.hoveringState)) Page.sampleParagraph
     = Matcher.sampleText1.
Proof.
  split; [|split].
  - intros st. unfold Page.restoreOriginal.
    destruct (Page.translationState st); done.
  - intros st [sess Hsess]. unfold Page.restoreOriginal. rewrite Hsess. done.
  - repeat split; try (vm_compute; reflexivity); vm_compute; by eexists.
Qed.

(** ** The background worker *)

Section BackgroundFacts.
Import Background.
Variable batches : list (list jstring).
Variable outcome : nat -> FetchOutcome.

Lemma translateBatch_failed batch o :
  failed (translateBatch batch o) = batchFails o.
Proof. by destruct o. Qed.

Lemma translateBatch_fallback batch o :
  batchFails o = true -> blocks (translateBatch batch o) = untranslated batch.
Proof. by destruct o. Qed.

Lemma settle_fold (order : list nat) :
  forall pr,
    NoDup order ->
    (forall i, i ∈ order -> (i < length batches)%nat) ->
    length (results pr) = length batches ->
    let pr' := foldl (settle batches outcome) pr order in
    failedCount pr'
    = (failedCount pr
       + length (filter (fun i => batchFails (outcome i) = true) order))%nat
    /\ length (results pr') = length batches
    /\ (forall i batch, i ∈ order -> batches !! i = Some batch ->
          results pr' !! i
          = Some (Some (blocks (translateBatch batch (outcome i)))))
    /\ (forall i, i ∉ order -> results pr' !! i = results pr !! i).
Proof.
  induction order as [|k order IH]; intros pr Hnd Hlt Hlen.
  - simpl. split; [lia|]. split; [done|]. split; [|done].
    intros i batch Hi. by apply elem_of_nil in Hi.
  - apply NoDup_cons in Hnd as [Hk Hnd].
    assert (Hklt : (k < length batches)%nat) by (apply Hlt; left).
    destruct (lookup_lt_is_Some_2 batches k Hklt) as [bk Hbk].
    change (foldl (settle batches outcome) pr (k :: order))
      with (foldl (settle batches outcome) (settle batches outcome pr k) order).
    cbv zeta.
    destruct (IH (settle batches outcome pr k) Hnd) as (Hc & Hl & Hin & Hout).
    { intros i Hi. apply Hlt. by right. }
    { unfold settle. rewrite Hbk. simpl. by rewrite length_insert. }
    split; [|split; [done|split]].
    + rewrite Hc. unfold settle at 1. rewrite Hbk. simpl.
      rewrite translateBatch_failed.
      destruct (batchFails (outcome k)) eqn:E.
      * rewrite filter_cons_True by done. simpl. lia.
      * rewrite filter_cons_False by congruence. done.
    + intros i batch [->|Hi]%elem_of_cons Hb.
      * rewrite (Hout k Hk). unfold settle. rewrite Hbk. simpl.
        rewrite list_lookup_insert_eq by lia. congruence.
      * by apply Hin.
    + intros i [Hne Hi]%not_elem_of_cons. rewrite (Hout i Hi).
      unfold settle. rewrite Hbk. simpl. by rewrite list_lookup_insert_ne.
Qed.

Lemma settle_all (order : list nat) :
  order ≡ₚ seq 0 (length batches) ->
  let pr := foldl (settle batches outcome)
              {| failedCount := 0;
                 results := replicate (length batches) None |} order in
  failedCount pr
  = length (filter (fun i => batchFails (outcome i) = true)
                   (seq 0 (length batches)))
  /\ results pr
     = Some <$> imap (fun i batch => blocks (translateBatch batch (outcome i)))
                     batches.
Proof.
  intros Hperm.
  destruct (settle_fold order
              {| failedCount := 0; results := replicate (length batches) None |})
    as (Hc & Hl & Hin & _).
  { rewrite Hperm. apply NoDup_seq. }
  { intros i Hi. rewrite Hperm in Hi. apply elem_of_seq in Hi. lia. }
  { simpl. apply length_replicate. }
  cbv zeta. split.
  - rewrite Hc. simpl. by rewrite Hperm.
  - apply list_eq. intros i. rewrite list_lookup_fmap, list_lookup_imap.
    destruct (batches !! i) as [batch|] eqn:Hb.
    + simpl. apply Hin; [|done]. rewrite Hperm. apply elem_of_seq.
      apply lookup_lt_Some in Hb. lia.
    + simpl. apply lookup_ge_None. rewrite Hl. by apply lookup_ge_None.
Qed.
End BackgroundFacts.

Lemma makeBatches_concat (blocks : list jstring) :
  concat (Background.makeBatches blocks) = blocks.
Proof.
  assert (H : forall n (l : list jstring), (length l <= n)%nat ->
                concat (Background.makeBatches l) = l).
  { induction n as [|n IH]; intros l Hl.
    - destruct l; [done|simpl in Hl; lia].
    - destruct l as [|a [|b l]]; [done..|].
      simpl in Hl |- *. rewrite IH; [done|lia]. }
  by apply (H (length blocks)).
Qed.

(** C5. Once a key is configured and every request of a batch has ended,
    in whatever order, [handleTranslationRequest] returns (it does not
    throw): [totalBatches] is the number of batches, [failedBatches] the
    number of batches whose request failed, and the blocks are those of
    the batches in the order of the batches, a failed batch giving its
    own blocks, in their order, each with itself as its translation.
    The batches are the blocks cut in twos, in order. *)
Theorem failed_batches_fall_back_to_original
    (apiKey : jstring) (blocks : list jstring)
    (outcome : nat -> Background.FetchOutcome) (order : list nat) :
  apiKey <> [] ->
  order ≡ₚ seq 0 (length (Background.makeBatches blocks)) ->
  let batches := Background.makeBatches blocks in
  Background.handleTranslationRequest apiKey blocks outcome order
  = Background.Returns
      {| Background.result_blocks :=
           concat (imap (fun i batch =>
                           Background.blocks
                             (Background.translateBatch batch (outcome i)))
                        batches);
         Background.failedBatches :=
           length (filter (fun i => Background.batchFails (outcome i) = true)
                          (seq 0 (length batches)));
         Background.totalBatches := length batches |}
  /\ (forall i batch, batches !! i = Some batch ->
        Background.batchFails (outcome i) = true ->
        Background.blocks (Background.translateBatch batch (outcome i))
        = Background.untranslated batch)
  /\ concat batches = blocks.
Proof.
  intros Hkey Hperm batches. split; [|split].
  - unfold Background.handleTranslationRequest.
    destruct apiKey as [|c apiKey]; [done|].
    fold batches.
    destruct (settle_all batches outcome order Hperm) as [Hc Hr].
    cbv zeta in Hc, Hr. rewrite Hr, Hc.
    rewrite mapM_fmap_Some by done. done.
  - intros i batch _ Hfail. by apply translateBatch_fallback.
  - apply makeBatches_concat.
Qed.

Lemma failed_batches_fall_back_to_original_witness :
  Background.handleTranslationRequest (utf16 "sk-test") Background.sampleBlocks
    Background.sampleOutcome [1; 0]%nat
  = Background.Returns
      {| Background.result_blocks :=
           [ {| Background.original := Some (utf16 "Erster Absatz");
                Background.translated := utf16 "First paragraph" |};
             {| Background.original := Some (utf16 "Zweiter Absatz");
                Background.translated := utf16 "Second paragraph" |};
             {| Background.original := Some (utf16 "Dritter Absatz");
                Background.translated := utf16 "Dritter Absatz" |} ];
         Background.failedBatches := 1;
         Background.totalBatches := 2 |}.
Proof.
  refine (eq_trans
            (proj1 (failed_batches_fall_back_to_original (utf16 "sk-test")
                      Background.sampleBlocks Background.sampleOutcome
                      [1; 0]%nat _ _)) _).
  - discriminate.
  - simpl. apply perm_swap.
  - vm_compute. reflexivity.
Defined.

(** * Further properties of the content script *)

Section ApplyFacts.
Import Dom Page.
Variable u : UnicodeData.

Lemma apply_fold_elem (page : Node) (ps : list (ElemRef * Block)) :
  forall (d : gmap ElemRef ElState) (os : list jstring), laterNotAbove ps.*1 ->
    forall (i : nat) (e : ElemRef) (b : Block), ps !! i = Some (e, b) ->
      (foldl (applyStep u page) (d, os) ps).1 !! e
      = Some (appliedElement u b (textContent page d e) (getEl d e)).
Proof.
  induction ps as [|[a ba] l IH]; intros d os Hord i e b Hi; [done|].
  rewrite fmap_cons in Hord. simpl in Hord.
  apply laterNotAbove_cons in Hord as [Hl Ha].
  change (foldl (applyStep u page) (d, os) ((a, ba) :: l))
    with (foldl (applyStep u page) (applyStep u page (d, os) (a, ba)) l).
  rewrite applyStep_insert. destruct i as [|i].
  - injection Hi as -> ->.
    destruct (apply_fold u page l
                (<[e := appliedElement u b (textContent page d e) (getEl d e)]> d)
                (os ++ [textContent page d e]) Hl) as (d' & Hf & Hframe).
    rewrite Hf. simpl. rewrite Hframe.
    + by rewrite lookup_insert_eq.
    + intros Hin. by destruct (Ha e Hin).
  - simpl in Hi. rewrite (IH _ _ Hl i e b Hi).
    assert (Hin : e ∈ l.*1).
    { apply list_elem_of_fmap. exists (e, b). split; [done|].
      by apply (list_elem_of_lookup_2 _ i). }
    destruct (Ha e Hin) as [Hne Hanc].
    rewrite textContent_insert_other by done.
    by rewrite getEl_insert_ne.
Qed.

Lemma laterNotAbove_take (els : list ElemRef) (n : nat) :
  laterNotAbove els -> laterNotAbove (take n els).
Proof.
  intros Hord i j a b Hij Hi Hj.
  apply lookup_take_Some in Hi as [Hi _]. apply lookup_take_Some in Hj as [Hj _].
  by apply (Hord i j).
Qed.

(** The page and the session after [applyTranslations]. *)
Lemma applyTranslations_spec (els : list ElemRef) (blocks : list Block)
    (st : State) :
  laterNotAbove els ->
  let count := min (length els) (length blocks) in
  let st' := applyTranslations u els blocks st in
  translationState st'
  = Some {| elements := take count els;
            originals := textContent (doc st) (dom st) <$> take count els |}
  /\ (forall (i : nat) (e : ElemRef) (b : Block),
        els !! i = Some e -> blocks !! i = Some b ->
        dom st' !! e
        = Some (appliedElement u b (textContent (doc st) (dom st) e)
                               (getEl (dom st) e)))
  /\ (forall e : ElemRef, e ∉ take count els -> dom st' !! e = dom st !! e)
  /\ st' = set_translationState (translationState st') (set_dom (dom st') st).
Proof.
  intros Hord count st'. subst st'. unfold applyTranslations. fold count.
  assert (Hfst : (zip (take count els) (take count blocks)).*1 = take count els).
  { apply fst_zip. rewrite !length_take. lia. }
  pose proof (laterNotAbove_take els count Hord) as Hord'.
  pose proof (apply_fold_elem (doc st) (zip (take count els) (take count blocks))
                (dom st) []) as Helem.
  destruct (apply_fold u (doc st) (zip (take count els) (take count blocks))
              (dom st) []) as (d1 & Hfold & Hframe1).
  { by rewrite Hfst. }
  rewrite Hfold in *. rewrite Hfst in *. simpl app. simpl.
  split; [done|]. split; [|split; [exact Hframe1 | done]].
  intros i e b He Hb.
  assert (Hi : (i < count)%nat).
  { apply lookup_lt_Some in He. apply lookup_lt_Some in Hb. lia. }
  apply (Helem Hord' i e b).
  apply lookup_zip_with_Some. exists e, b.
  split; [done|]. split; by rewrite lookup_take_lt.
Qed.

Lemma render_text_content (text : jstring) :
  flat_map childText (Render.renderTranslatedBlock u text) = text.
Proof.
  rewrite flat_map_concat_map.
  change (map childText ?l) with (childText <$> l).
  rewrite render_texts, concat_filter_nonempty.
  apply split_ws_capture_concat.
Qed.

End ApplyFacts.

Lemma sample_laterNotAbove :
  Page.laterNotAbove [Page.sampleParagraph; Page.sampleParagraph2].
Proof.
  intros [|[|i]] [|[|j]] a b Hij Hi Hj; try lia; try done.
  injection Hi as <-. injection Hj as <-. split; [done|].
  intros (down & Hne & H). apply (f_equal length) in H.
  rewrite length_app in H. simpl in H. destruct down; [done|simpl in H; lia].
Qed.

(** X1.  When later elements of the list are neither earlier ones nor
    ancestors of earlier ones, [applyTranslations] rewrites the first
    [min (length els) (length blocks)] elements and no other: the session
    it opens holds these elements and, next to each, the text the element
    had before the call; each rewritten element carries that text as
    [vakyaOriginal], the block's original as [vakyaContext], the class
    [vakya-translated] and the click listener of its sentence; nothing
    but the page overlay and the session changes in the state. *)
Theorem applyTranslations_records_originals (u : UnicodeData)
    (els : list Dom.ElemRef) (blocks : list Page.Block) (st : Page.State) :
  Page.laterNotAbove els ->
  let count := min (length els) (length blocks) in
  let st' := Page.applyTranslations u els blocks st in
  let before := Page.textContent (Page.doc st) (Page.dom st) in
  Page.translationState st'
  = Some {| Page.elements := take count els;
            Page.originals := before <$> take count els |}
  /\ (forall (i : nat) (e : Dom.ElemRef) (b : Page.Block),
        els !! i = Some e -> blocks !! i = Some b ->
        let state := Page.getEl (Page.dom st') e in
        (Page.dataset state) !! "vakyaOriginal"%string = Some (before e)
        /\ (Page.dataset state) !! "vakyaContext"%string
           = Some (Page.original b)
        /\ ("vakya-translated"%string ∈ Page.classList state)
        /\ (("click"%string, handleSentenceClick) ∈ Page.listeners state))
  /\ (forall e : Dom.ElemRef,
        e ∉ take count els -> Page.dom st' !! e = Page.dom st !! e)
  /\ st' = Page.set_translationState (Page.translationState st')
             (Page.set_dom (Page.dom st') st).
Proof.
  intros Hord count st' before.
  pose proof (applyTranslations_spec u els blocks st Hord) as H.
  cbv zeta in H. destruct H as (Hsess & Hin & Hout & Hrest).
  subst st' before count.
  split; [exact Hsess|]. split; [|split; [exact Hout | exact Hrest]].
  intros i e b He Hb state. subst state. unfold Page.getEl.
  rewrite (Hin i e b He Hb). simpl.
  split; [|split; [|split]].
  - rewrite lookup_insert_ne by done. by rewrite lookup_insert_eq.
  - by rewrite lookup_insert_eq.
  - unfold Page.classList_add. case_bool_decide as Hc; [done|].
    apply elem_of_app. right. by apply list_elem_of_singleton.
  - unfold Page.addEventListener. case_bool_decide as Hc; [done|].
    apply elem_of_app. right. by apply list_elem_of_singleton.
Qed.

Lemma applyTranslations_records_originals_witness :
  Page.translationState Page.translatedState
  = Some {| Page.elements := [Page.sampleParagraph; Page.sampleParagraph2];
            Page.originals := [Matcher.sampleText1; Matcher.sampleText2] |}.
Proof.
  refine (eq_trans
            (proj1 (applyTranslations_records_originals latin_ucd
                      [Page.sampleParagraph; Page.sampleParagraph2]
                      [Page.sampleBlock1; Page.sampleBlock2]
                      Page.sampleState sample_laterNotAbove)) _).
  vm_compute. reflexivity.
Defined.

(** X2.  After [applyTranslations], under the same condition on the
    list, the text content of each rewritten element is the translated
    text of its block, character for character, or the block's original
    when the translation is empty. *)
Theorem translated_element_reads_translation (u : UnicodeData)
    (els : list Dom.ElemRef) (blocks : list Page.Block) (st : Page.State)
    (i : nat) (e : Dom.ElemRef) (b : Page.Block)
    (t : string) (kids : list Dom.Node) :
  Page.laterNotAbove els ->
  els !! i = Some e -> blocks !! i = Some b ->
  Dom.nodeAt (Page.doc st) e = Some (Dom.Elem t kids) ->
  let st' := Page.applyTranslations u els blocks st in
  Page.doc st' = Page.doc st
  /\ Page.textContent (Page.doc st') (Page.dom st') e
     = match Page.translated b with
       | [] => Page.original b
       | _ :: _ => Page.translated b
       end.
Proof.
  intros Hord He Hb Hnode st'.
  pose proof (applyTranslations_spec u els blocks st Hord) as H.
  cbv zeta in H. destruct H as (_ & Hin & _ & Hrest).
  subst st'. split; [by rewrite Hrest|].
  replace (Page.doc (Page.applyTranslations u els blocks st)) with (Page.doc st)
    by (by rewrite Hrest).
  unfold Page.textContent. rewrite Hnode, liveText_elem.
  rewrite (Hin i e b He Hb). simpl. apply render_text_content.
Qed.

Lemma translated_element_reads_translation_witness :
  Page.textContent Matcher.samplePage (Page.dom Page.translatedState)
    Page.sampleParagraph2
  = utf16 "The cat sleeps on the sofa all day.".
Proof.
  exact (proj2 (translated_element_reads_translation latin_ucd
                  [Page.sampleParagraph; Page.sampleParagraph2]
                  [Page.sampleBlock1; Page.sampleBlock2] Page.sampleState
                  1 Page.sampleParagraph2 Page.sampleBlock2
                  "P" [Dom.TextN Matcher.sampleText2]
                  sample_laterNotAbove eq_refl eq_refl eq_refl)).
Defined.

(** X3.  [restoreOriginal] on a session whose elements are distinct
    gives each of them the text recorded at its index (the empty text
    when none is recorded), leaves every other element as it is, closes
    the session and forgets the word translator; it shows the notice
    without a Restore button and sets the two-second timer.  A further
    [restoreOriginal] changes nothing. *)
Theorem restoreOriginal_restores_session_only (st : Page.State)
    (sess : Page.Session) :
  Page.translationState st = Some sess ->
  NoDup (Page.elements sess) ->
  let st' := Page.restoreOriginal st in
  (forall (i : nat) (e : Dom.ElemRef) (t : string) (kids : list Dom.Node),
      Page.elements sess !! i = Some e ->
      Dom.nodeAt (Page.doc st) e = Some (Dom.Elem t kids) ->
      Page.textContent (Page.doc st') (Page.dom st') e
      = default [] (Page.originals sess !! i))
  /\ (forall e : Dom.ElemRef,
        e ∉ Page.elements sess -> Page.dom st' !! e = Page.dom st !! e)
  /\ Page.translationState st' = None
  /\ Page.browserTranslator st' = None
  /\ Page.browserTranslatorInitialized st' = false
  /\ Page.translatorLanguages st' = None
  /\ Page.activeFloatingBar st'
     = Some {| Page.bar_message := Page.OriginalRestored;
               Page.bar_type := Page.info;
               Page.bar_restoreButton := false |}
  /\ Page.timers st' = Page.timers st ++ [(2000%nat, Page.HideFloatingBar)]
  /\ Page.restoreOriginal st' = st'.
Proof.
  intros Hs Hnd st'.
  destruct (restore_fold sess (imap pair (Page.elements sess)) (Page.dom st))
    as [Hin Hout].
  { by rewrite imap_pair_snd. }
  rewrite imap_pair_snd in Hout.
  assert (Heq : st' = Page.restoreOriginal st) by done. clearbody st'.
  unfold Page.restoreOriginal in Heq. rewrite Hs in Heq. simpl in Heq.
  subst st'. simpl.
  split; [|split; [exact Hout|]].
  - intros i e t kids He Hnode.
    unfold Page.textContent. rewrite Hnode, liveText_elem.
    rewrite (Hin i e (imap_pair_elem _ _ _ He)). simpl.
    destruct (default [] (Page.originals sess !! i)); simpl; [done|].
    by rewrite app_nil_r.
  - repeat (split; [done|]). reflexivity.
Qed.

Lemma restoreOriginal_restores_session_only_witness :
  Page.textContent Matcher.samplePage
    (Page.dom (Page.restoreOriginal Page.translatedState)) Page.sampleParagraph2
  = Matcher.sampleText2.
Proof.
  refine (proj1 (restoreOriginal_restores_session_only Page.translatedState
                   {| Page.elements := [Page.sampleParagraph; Page.sampleParagraph2];
                      Page.originals := [Matcher.sampleText1; Matcher.sampleText2] |}
                   _ _)
                1%nat Page.sampleParagraph2 "P"%string
                [Dom.TextN Matcher.sampleText2] eq_refl eq_refl).
  - vm_compute. reflexivity.
  - apply laterNotAbove_NoDup, sample_laterNotAbove.
Defined.

Section HoverFacts.
Import Dom Page Interaction.

Lemma classList_remove_elem (c x : string) (l : list string) :
  c ∈ classList_remove x l <-> c ∈ l /\ c <> x.
Proof.
  unfold classList_remove. rewrite list_elem_of_filter. tauto.
Qed.

Lemma classList_add_elem (c x : string) (l : list string) :
  c ∈ classList_add x l <-> c ∈ l \/ c = x.
Proof.
  unfold classList_add. case_bool_decide as Hx.
  - split; [tauto|]. intros [H| ->]; done.
  - rewrite elem_of_app, list_elem_of_singleton. tauto.
Qed.

Lemma getEl_setClassList (el e : ElemRef) (f : list string -> list string)
    (d : gmap ElemRef ElState) :
  classList (getEl (setClassList el f d) e)
  = if bool_decide (e = el) then f (classList (getEl d el))
    else classList (getEl d e).
Proof.
  unfold setClassList. case_bool_decide as He.
  - subst e. by rewrite getEl_insert.
  - by rewrite getEl_insert_ne.
Qed.

Lemma applyStep_classes (u : UnicodeData) (page : Node) (c : string)
    (e : ElemRef) (ps : list (ElemRef * Block)) :
  c <> "vakya-translated"%string ->
  forall (d : gmap ElemRef ElState) (os : list jstring),
    c ∈ classList (getEl (foldl (applyStep u page) (d, os) ps).1 e)
    <-> c ∈ classList (getEl d e).
Proof.
  intros Hc. induction ps as [|[el b] ps IH]; intros d os; [done|].
  change (foldl (applyStep u page) (d, os) ((el, b) :: ps))
    with (foldl (applyStep u page) (applyStep u page (d, os) (el, b)) ps).
  rewrite applyStep_insert, IH.
  destruct (decide (e = el)) as [->|Hne].
  - rewrite getEl_insert. simpl. rewrite classList_add_elem. tauto.
  - by rewrite getEl_insert_ne.
Qed.

Lemma restoreStep_classes (sess : Session) (c : string) (e : ElemRef)
    (ps : list (nat * ElemRef)) :
  c <> "vakya-translated"%string ->
  forall d : gmap ElemRef ElState,
    c ∈ classList (getEl (foldl (restoreStep sess) d ps) e)
    <-> c ∈ classList (getEl d e).
Proof.
  intros Hc. induction ps as [|[i el] ps IH]; intros d; [done|].
  change (foldl (restoreStep sess) d ((i, el) :: ps))
    with (foldl (restoreStep sess) (restoreStep sess d (i, el)) ps).
  rewrite restoreStep_insert, IH.
  destruct (decide (e = el)) as [->|Hne].
  - rewrite getEl_insert. simpl. rewrite classList_remove_elem. tauto.
  - by rewrite getEl_insert_ne.
Qed.

Lemma clearSentenceHover_none (st : State) :
  HoverInv st ->
  hoveredSentence (clearSentenceHover st) = None
  /\ forall e : ElemRef,
       "vakya-sentence-hover"%string
         ∉ classList (getEl (dom (clearSentenceHover st)) e).
Proof.
  intros Hinv. unfold clearSentenceHover.
  destruct (hoveredSentence st) as [el|] eqn:Hh.
  - simpl. split; [done|]. intros e. rewrite getEl_setClassList.
    case_bool_decide as He.
    + rewrite classList_remove_elem. tauto.
    + intros Hin. apply Hinv in Hin. congruence.
  - split; [done|]. intros e Hin. apply Hinv in Hin. congruence.
Qed.

Lemma updateSentenceHover_inv (target : option ElemRef) (st : State) :
  HoverInv st -> HoverInv (updateSentenceHoverAtPoint target st).
Proof.
  intros Hinv. unfold updateSentenceHoverAtPoint.
  destruct (clearSentenceHover_none st Hinv) as [Hnone Hno].
  destruct target as [el|].
  - case_bool_decide as Hsame; [done|].
    intros e. simpl. rewrite getEl_setClassList.
    case_bool_decide as He; [by subst e|].
    intros Hin. by destruct (Hno e).
  - intros e Hin. by destruct (Hno e).
Qed.

End HoverFacts.

(** X4.  At any time at most the element held in [hoveredSentence]
    carries the class [vakya-sentence-hover]: this holds before the
    script has touched the page and is kept by moving the pointer with
    the modifier held, by pressing and releasing the modifier, by
    [applyTranslations] and by [restoreOriginal]; once the modifier is
    released, or the window loses focus, no element carries the class. *)
Theorem sentence_hover_highlights_one_element (u : UnicodeData) :
  (forall st : Page.State, Page.dom st = ∅ -> Interaction.HoverInv st)
  /\ (forall (target : option Dom.ElemRef) (st : Page.State),
        Interaction.HoverInv st ->
        Interaction.HoverInv (Page.updateSentenceHoverAtPoint target st))
  /\ (forall (target : option Dom.ElemRef) (st : Page.State),
        Interaction.HoverInv st ->
        Interaction.HoverInv (Page.onModifierKeyDown target st))
  /\ (forall st : Page.State,
        Interaction.HoverInv st ->
        Page.hoveredSentence (Page.onModifierRelease st) = None
        /\ forall e : Dom.ElemRef,
             "vakya-sentence-hover"%string
               ∉ Page.classList (Page.getEl (Page.dom (Page.onModifierRelease st)) e))
  /\ (forall (els : list Dom.ElemRef) (blocks : list Page.Block)
             (st : Page.State),
        Interaction.HoverInv st ->
        Interaction.HoverInv (Page.applyTranslations u els blocks st))
  /\ (forall st : Page.State,
        Interaction.HoverInv st ->
        Interaction.HoverInv (Page.restoreOriginal st)).
Proof.
  split; [|split; [|split; [|split; [|split]]]].
  - intros st Hd e. unfold Page.getEl. rewrite Hd, lookup_empty. simpl.
    by intros ?%elem_of_nil.
  - apply updateSentenceHover_inv.
  - intros target st Hinv. unfold Page.onModifierKeyDown.
    destruct (Page.isModifierHeld st); [done|].
    by apply updateSentenceHover_inv.
  - intros st Hinv. unfold Page.onModifierRelease.
    by apply clearSentenceHover_none.
  - intros els blocks st Hinv e. unfold Page.applyTranslations.
    destruct (foldl _ _ _) as [d os] eqn:Hfold. simpl.
    replace d with (foldl (Page.applyStep u (Page.doc st)) (Page.dom st, [])
                      (zip (take (min (length els) (length blocks)) els)
                           (take (min (length els) (length blocks)) blocks))).1
      by (by rewrite Hfold).
    rewrite applyStep_classes by done. apply Hinv.
  - intros st Hinv e. unfold Page.restoreOriginal.
    destruct (Page.translationState st) as [sess|]; [|apply Hinv].
    simpl. rewrite restoreStep_classes by done. apply Hinv.
Qed.

Section ClickFacts.
Import Dom Page Interaction.

Lemma showWordTooltip_opens (span : SpanRef) (st : State) :
  currentClickedWord (showWordTooltip span st).1 = None
  /\ exists html : jstring,
       activeTooltip (showWordTooltip span st).1
       = Some {| tooltip_anchor := span.1; tooltip_html := html |}.
Proof.
  unfold showWordTooltip, translateOrOffer, offerAnalysis.
  destruct (negb (browserTranslatorInitialized (hideTooltip st))
            && bool_decide (is_Some (translatorLanguages (hideTooltip st)))).
  - simpl. eauto.
  - simpl. destruct (browserTranslator st); simpl; eauto.
Qed.

Lemma setTooltipHtml_clicked (content : jstring) (st : State) :
  currentClickedWord (setTooltipHtml content st) = currentClickedWord st.
Proof. unfold setTooltipHtml. by destruct (activeTooltip st). Qed.

Lemma offerAnalysis_clicked (span : SpanRef) (word : jstring) (st : State) :
  currentClickedWord (offerAnalysis span word st) = currentClickedWord st.
Proof. unfold offerAnalysis, setTooltipHtml. by destruct (activeTooltip st). Qed.

Lemma translateOrOffer_clicked (span : SpanRef) (word : jstring) (st : State) :
  currentClickedWord (translateOrOffer span word st).1 = currentClickedWord st.
Proof.
  unfold translateOrOffer. destruct (browserTranslator st); simpl.
  - unfold setTooltipHtml. by destruct (activeTooltip st).
  - apply offerAnalysis_clicked.
Qed.

Lemma bubble_held (el : ElemRef) (st : State) :
  isModifierHeld st = true ->
  ("click"%string, Render.handleSentenceClick) ∈ listeners (getEl (dom st) el) ->
  bubble el st = (showOriginalTooltip el st, true).
Proof.
  intros Hheld Hl. destruct el as [|i up]; simpl;
    rewrite (bool_decide_eq_true_2 _ Hl); unfold handleSentenceClick;
    unfold onSentenceClick; by rewrite Hheld.
Qed.

End ClickFacts.

(** X5.  A click on a word without the modifier always ends with a
    tooltip open for that word and with no word remembered as the clicked
    one, because [showWordTooltip] starts by [hideTooltip], which
    forgets it.  The later steps of the word flow and the other ways of
    closing or opening a tooltip do not set it either.  So the test for
    a second click on the same word never succeeds: clicking a word
    whose tooltip is open opens the tooltip again instead of closing
    it. *)
Theorem word_click_never_closes_tooltip :
  (forall (span : Interaction.SpanRef) (st : Page.State),
      Page.isModifierHeld st = false ->
      Page.currentClickedWord st = None ->
      let st' := (Interaction.handleWordClick span st).1.1 in
      Page.currentClickedWord st' = None
      /\ (exists html : jstring,
            Page.activeTooltip st'
            = Some {| Page.tooltip_anchor := span.1; Page.tooltip_html := html |})
      /\ (Interaction.handleWordClick span st).2 = true)
  /\ (forall (translator : option nat) (span : Interaction.SpanRef)
             (word : jstring) (st : Page.State),
        Page.currentClickedWord
          (Interaction.resumeInit translator span word st).1
        = Page.currentClickedWord st)
  /\ (forall (translation : option jstring) (span : Interaction.SpanRef)
             (word : jstring) (st : Page.State),
        Page.currentClickedWord
          (Interaction.resumeTranslate translation span word st)
        = Page.currentClickedWord st)
  /\ (forall (el : Dom.ElemRef) (st : Page.State),
        Page.currentClickedWord (Page.showOriginalTooltip el st) = None)
  /\ (forall st : Page.State,
        Page.currentClickedWord (Page.hideTooltip st) = None)
  /\ (forall (span : Interaction.SpanRef) (st : Page.State),
        Page.isModifierHeld st = false ->
        Page.currentClickedWord st = None ->
        let st1 := (Interaction.handleWordClick span st).1.1 in
        let st2 := (Interaction.handleWordClick span st1).1.1 in
        is_Some (Page.activeTooltip st1) /\ is_Some (Page.activeTooltip st2)).
Proof.
  assert (Hclick : forall (span : Interaction.SpanRef) (st : Page.State),
    Page.isModifierHeld st = false -> Page.currentClickedWord st = None ->
    (Interaction.handleWordClick span st).1.1
    = (Interaction.showWordTooltip span
         (Page.set_tooltip (Page.activeTooltip st) (Some span) st)).1
    /\ (Interaction.handleWordClick span st).2 = true).
  { intros span st Hheld Hnone. unfold Interaction.handleWordClick.
    rewrite Hheld, Hnone. by rewrite bool_decide_eq_false_2. }
  assert (Hheld' : forall (span : Interaction.SpanRef) (st : Page.State),
    Page.isModifierHeld (Interaction.showWordTooltip span st).1
    = Page.isModifierHeld st).
  { intros span st.
    unfold Interaction.showWordTooltip, Interaction.translateOrOffer,
      Interaction.offerAnalysis.
    destruct (negb _ && _); simpl; [done|].
    destruct (Page.browserTranslator st); done. }
  split; [|split; [|split; [|split; [|split]]]].
  - intros span st Hheld Hnone st'. subst st'.
    destruct (Hclick span st Hheld Hnone) as [-> Hstop].
    destruct (showWordTooltip_opens span
                (Page.set_tooltip (Page.activeTooltip st) (Some span) st))
      as [Hc Ht].
    done.
  - intros translator span word st. unfold Interaction.resumeInit.
    destruct translator as [t|]; simpl.
    + destruct (Page.activeTooltip st); [|done].
      by rewrite translateOrOffer_clicked.
    + destruct (Page.activeTooltip st); [|done].
      by rewrite translateOrOffer_clicked.
  - intros translation span word st. unfold Interaction.resumeTranslate.
    destruct (Page.activeTooltip st) eqn:Ht; [|done].
    destruct translation as [[|c t']|].
    + apply offerAnalysis_clicked.
    + apply setTooltipHtml_clicked.
    + apply offerAnalysis_clicked.
  - done.
  - done.
  - intros span st Hheld Hnone st1 st2. subst st1 st2.
    destruct (Hclick span st Hheld Hnone) as [Heq _].
    destruct (showWordTooltip_opens span
                (Page.set_tooltip (Page.activeTooltip st) (Some span) st))
      as [Hc [html Ht]].
    rewrite <- Heq in Hc, Ht.
    assert (Hheld1 : Page.isModifierHeld (Interaction.handleWordClick span st).1.1
                     = false).
    { rewrite Heq, Hheld'. done. }
    destruct (Hclick span _ Hheld1 Hc) as [Heq2 _].
    destruct (showWordTooltip_opens span
                (Page.set_tooltip
                   (Page.activeTooltip (Interaction.handleWordClick span st).1.1)
                   (Some span) (Interaction.handleWordClick span st).1.1))
      as [_ [html2 Ht2]].
    rewrite <- Heq2 in Ht2. rewrite Ht, Ht2. split; eauto.
Qed.

(** X6.  A click on a word span of an element [applyTranslations] has
    rewritten.  The word looked up is the key stored on the span, never
    the raw fragment, and it is not empty.  With the modifier held the
    listener of the word stands back and the listener of the element
    answers: the tooltip shows the text the element had before the
    translation, and no word lookup starts.  Without the modifier the
    listener of the word alone runs. *)
Theorem click_on_translated_word (u : UnicodeData)
    (els : list Dom.ElemRef) (blocks : list Page.Block) (st : Page.State)
    (i : nat) (e : Dom.ElemRef) (b : Page.Block) (j : nat)
    (sp : Render.WordSpan) :
  Page.laterNotAbove els ->
  els !! i = Some e -> blocks !! i = Some b ->
  let st' := Page.applyTranslations u els blocks st in
  Interaction.spanAt (Page.dom st') (e, j) = Some sp ->
  Interaction.wordOf (Page.dom st') (e, j)
  = stripNonWord u (Render.span_textContent sp)
  /\ Interaction.wordOf (Page.dom st') (e, j) <> []
  /\ (Page.isModifierHeld st = true ->
      Interaction.clickOnWord (e, j) st'
      = (Page.set_tooltip
           (Some {| Page.tooltip_anchor := e;
                    Page.tooltip_html
                    := Page.textContent (Page.doc st) (Page.dom st) e |})
           None st',
         Interaction.FlowDone))
  /\ (Page.isModifierHeld st = false ->
      Interaction.clickOnWord (e, j) st'
      = (Interaction.handleWordClick (e, j) st').1).
Proof.
  intros Hord He Hb st' Hspan.
  pose proof (applyTranslations_spec u els blocks st Hord) as H.
  cbv zeta in H. destruct H as (_ & Hin & _ & Hrest).
  specialize (Hin i e b He Hb). fold st' in Hin, Hrest.
  assert (Hheld : Page.isModifierHeld st' = Page.isModifierHeld st).
  { by rewrite Hrest. }
  assert (Hsp : exists f, sp = Render.makeSpan u f /\ hasLetter u f = true).
  { unfold Interaction.spanAt, Page.getEl in Hspan. simpl in Hspan.
    rewrite Hin in Hspan. simpl in Hspan.
    destruct (Render.renderTranslatedBlock u _ !! j) as [[sp'|]|] eqn:Hj;
      try done.
    injection Hspan as ->.
    apply list_elem_of_lookup_2 in Hj.
    apply render_span_inv in Hj as (f & -> & _ & _ & Hletter). eauto. }
  destruct Hsp as (f & -> & Hletter).
  pose proof (hasLetter_key_nonempty u f Hletter) as Hkey.
  assert (Hword : Interaction.wordOf (Page.dom st') (e, j) = stripNonWord u f).
  { unfold Interaction.wordOf. rewrite Hspan. simpl.
    by destruct (stripNonWord u f). }
  split; [exact Hword|]. split; [by rewrite Hword|]. split.
  - intros Hm. rewrite <- Hheld in Hm.
    unfold Interaction.clickOnWord. rewrite Hspan.
    rewrite bool_decide_eq_true_2 by (simpl; apply list_elem_of_singleton; done).
    unfold Interaction.handleWordClick. rewrite Hm.
    change ((e, j).1) with e.
    rewrite bubble_held; [|done|].
    + f_equal. unfold Page.showOriginalTooltip. simpl.
      destruct e as [|k up]; simpl; unfold Page.getEl; rewrite Hin; simpl;
        rewrite lookup_insert_ne by done; by rewrite lookup_insert_eq.
    + unfold Page.getEl. rewrite Hin. simpl.
      unfold Page.addEventListener. case_bool_decide as Hc; [done|].
      apply elem_of_app. right. by apply list_elem_of_singleton.
  - intros Hm. rewrite <- Hheld in Hm.
    unfold Interaction.clickOnWord. rewrite Hspan.
    rewrite bool_decide_eq_true_2 by (simpl; apply list_elem_of_singleton; done).
    unfold Interaction.handleWordClick. rewrite Hm.
    destruct (_ && _); [done|].
    by destruct (Interaction.showWordTooltip _ _).
Qed.

Lemma click_on_translated_word_witness :
  Interaction.wordOf (Page.dom Page.translatedState) (Page.sampleParagraph, 2%nat)
  = utf16 "dog".
Proof.
  refine (eq_trans
            (proj1 (click_on_translated_word latin_ucd
                      [Page.sampleParagraph; Page.sampleParagraph2]
                      [Page.sampleBlock1; Page.sampleBlock2] Page.sampleState
                      0 Page.sampleParagraph Page.sampleBlock1 2
                      (Render.makeSpan latin_ucd (utf16 "dog"))
                      sample_laterNotAbove eq_refl eq_refl _)) _).
  - vm_compute. reflexivity.
  - vm_compute. reflexivity.
Defined.

Section TranslatePageFacts.
Import Dom Page.
Variable u : UnicodeData.

Lemma apply_fold_length (page : Node) (ps : list (ElemRef * Block)) :
  forall (d : gmap ElemRef ElState) (os : list jstring),
    length (foldl (applyStep u page) (d, os) ps).2
    = (length os + length ps)%nat.
Proof.
  induction ps as [|[el b] ps IH]; intros d os; [simpl; lia|].
  change (foldl (applyStep u page) (d, os) ((el, b) :: ps))
    with (foldl (applyStep u page) (applyStep u page (d, os) (el, b)) ps).
  rewrite applyStep_insert, IH, length_app. simpl. lia.
Qed.

Lemma applyTranslations_session (els : list ElemRef) (blocks : list Block)
    (st : State) :
  let count := min (length els) (length blocks) in
  let st' := applyTranslations u els blocks st in
  (exists sess : Session,
      translationState st' = Some sess
      /\ elements sess = take count els
      /\ length (originals sess) = count)
  /\ st' = set_translationState (translationState st') (set_dom (dom st') st)
  /\ (count = 0%nat -> dom st' = dom st).
Proof.
  intros count st'. subst st'. unfold applyTranslations. fold count.
  pose proof (apply_fold_length (doc st)
                (zip (take count els) (take count blocks)) (dom st) []) as Hlen.
  destruct (foldl _ _ _) as [d os] eqn:Hfold. simpl in *.
  split; [|split; [done|]].
  - eexists. split; [done|]. split; [done|]. simpl.
    rewrite Hlen, length_zip, !length_take. lia.
  - intros H0. rewrite H0 in Hfold. simpl in Hfold. by injection Hfold as <- _.
Qed.

Lemma handleTranslationError_overlay (message : jstring) (st : State) :
  exists (hint : ErrorHint) (showSettings : bool),
    handleTranslationError message st
    = set_overlay
        (Some (TranslationError
                 (match message with
                  | [] => utf16 "Translation failed"
                  | _ :: _ => message
                  end) hint showSettings)) st
    /\ showSettings
       = match hint with
         | AddApiKey | KeyMayBeInvalid => true
         | _ => false
         end.
Proof.
  unfold handleTranslationError.
  repeat match goal with
         | |- context [if ?c then _ else _] => destruct c
         end; eauto.
Qed.

(** The loop on the blocks of the reply and the loop on blocks of two
    strings. *)
Lemma applyLoop_step (page : Node) (el : ElemRef) (block : ReceivedBlock)
    (text : jstring) (rest : list (ElemRef * ReceivedBlock))
    (acc : gmap ElemRef ElState * list jstring) :
  textToRender block = Some text ->
  applyLoop u page ((el, block) :: rest) acc
  = applyLoop u page rest (applyStep u page acc (el, asBlock block)).
Proof.
  intros Htext. destruct acc as [d os].
  cbn [applyLoop]. rewrite Htext. unfold applyStep. cbv zeta.
  replace (match translated (asBlock block) with
           | [] => original (asBlock block)
           | _ :: _ => translated (asBlock block)
           end) with text; [done|].
  unfold textToRender in Htext. unfold asBlock, contextOf. simpl.
  destruct (received_translated block); [|by injection Htext].
  destruct (received_original block); by try injection Htext.
Qed.

Lemma applyLoop_renderable (page : Node) (ps : list (ElemRef * ReceivedBlock)) :
  forall acc : gmap ElemRef ElState * list jstring,
    Forall (fun p => is_Some (textToRender p.2)) ps ->
    applyLoop u page ps acc
    = (foldl (applyStep u page) acc (prod_map id asBlock <$> ps), false).
Proof.
  induction ps as [|[el block] ps IH]; intros acc Hall; [done|].
  apply Forall_cons in Hall as [[text Htext] Hall].
  rewrite (applyLoop_step page el block text ps acc Htext).
  rewrite IH by done. done.
Qed.

Lemma applyLoop_throws (page : Node) (pre : list (ElemRef * ReceivedBlock))
    (el : ElemRef) (block : ReceivedBlock)
    (post : list (ElemRef * ReceivedBlock)) :
  forall acc : gmap ElemRef ElState * list jstring,
    Forall (fun p => is_Some (textToRender p.2)) pre ->
    textToRender block = None ->
    let before := foldl (applyStep u page) acc (prod_map id asBlock <$> pre) in
    applyLoop u page (pre ++ (el, block) :: post) acc
    = (<[el := strandedElement block (textContent page before.1 el)
                               (getEl before.1 el)]> before.1,
       before.2 ++ [textContent page before.1 el], true).
Proof.
  induction pre as [|[e0 b0] pre IH]; intros acc Hall Hnone before.
  - subst before. destruct acc as [d os]. simpl app. cbn [applyLoop].
    rewrite Hnone. simpl.
    unfold setTextContent, setChildren, setClassList, setDataset.
    cbv zeta. rewrite !getEl_insert, !insert_insert_eq. done.
  - apply Forall_cons in Hall as [[text Htext] Hall].
    rewrite <- app_comm_cons.
    rewrite (applyLoop_step page e0 b0 text _ acc Htext).
    by rewrite (IH _ Hall Hnone).
Qed.

Lemma zip_lookup_split {X Y : Type} (l : list X) (k : list Y) :
  forall (i : nat) (x : X) (y : Y),
    l !! i = Some x -> k !! i = Some y ->
    zip l k
    = zip (take i l) (take i k) ++ (x, y) :: zip (drop (S i) l) (drop (S i) k).
Proof.
  revert k. induction l as [|a l IH]; intros [|b k] [|i] x y Hl Hk; try done.
  - simpl in *. by injection Hl as ->; injection Hk as ->.
  - simpl in *. by rewrite (IH k i x y Hl Hk) at 1.
Qed.

Lemma zip_asBlock (els : list ElemRef) (blocks : list ReceivedBlock) :
  prod_map id asBlock <$> zip els blocks = zip els (asBlock <$> blocks).
Proof.
  revert blocks. induction els as [|e els IH]; intros [|b blocks]; try done.
  simpl. by rewrite <- IH.
Qed.

Lemma applyOrThrow_renderable (els : list ElemRef)
    (blocks : list ReceivedBlock) (st : State) :
  rendersText (min (length els) (length blocks)) blocks ->
  applyTranslationsOrThrow u els blocks st
  = (applyTranslations u els (asBlock <$> blocks) st, false).
Proof.
  intros Hall. unfold applyTranslationsOrThrow, applyTranslations.
  rewrite length_fmap.
  set (count := min (length els) (length blocks)) in *.
  rewrite applyLoop_renderable.
  - rewrite zip_asBlock, fmap_take.
    by destruct (foldl _ _ _) as [d os].
  - apply Forall_forall. intros [e b] Hin.
    apply elem_of_zip_r in Hin. simpl in *.
    unfold rendersText in Hall. rewrite Forall_forall in Hall. by apply Hall.
Qed.

(** With blocks that all have a text, the rest of [translatePage] is the
    rewrite of the page, the language pair and the notice. *)
Lemma resume_renderable (blocks : list ReceivedBlock)
    (failedBatches totalBatches : nat) (settings : Settings)
    (splitError : jstring) (els : list Element) (st : State) :
  rendersText (min (length els) (length blocks)) blocks ->
  let applied := applyTranslations u (ref <$> els) (asBlock <$> blocks)
                   (hideOverlay st) in
  let st1 := set_translator (browserTranslator applied)
               (browserTranslatorInitialized applied)
               (Some (targetLanguage settings, nativeLanguage settings))
               applied in
  translatePageResume u (ResponseOk blocks failedBatches totalBatches)
    settings splitError els st
  = if (0 <? failedBatches)%nat
    then showFloatingBar
           (TranslatedWithFailures (length els) failedBatches totalBatches)
           warning st1
    else showFloatingBar (TranslatedParagraphs (length els)) success st1.
Proof.
  intros Hall applied st1. subst st1 applied. unfold translatePageResume.
  rewrite applyOrThrow_renderable by (by rewrite length_fmap). done.
Qed.

Lemma resume_page (blocks : list ReceivedBlock)
    (failedBatches totalBatches : nat) (settings : Settings)
    (splitError : jstring) (els : list Element) (st : State) :
  rendersText (min (length els) (length blocks)) blocks ->
  let st' := translatePageResume u (ResponseOk blocks failedBatches totalBatches)
               settings splitError els st in
  let applied := applyTranslations u (ref <$> els) (asBlock <$> blocks)
                   (hideOverlay st) in
  is_Some (translationState st')
  /\ doc st' = doc st
  /\ dom st' = dom applied
  /\ doc (restoreOriginal st') = doc (restoreOriginal applied)
  /\ dom (restoreOriginal st') = dom (restoreOriginal applied)
  /\ translationState (restoreOriginal st') = None.
Proof.
  intros Hall st' applied. subst st' applied.
  rewrite resume_renderable by done.
  unfold applyTranslations.
  destruct (foldl _ _ _) as [d os].
  destruct (0 <? failedBatches)%nat; simpl; repeat split; eauto.
Qed.

(** After the rewrite of a list the matcher could have returned,
    [restoreOriginal] gives each element its text back. *)
Lemma restore_resume_text (blocks : list ReceivedBlock)
    (failedBatches totalBatches : nat) (settings : Settings)
    (splitError : jstring) (els : list Element) (st : State) :
  laterNotAbove (ref <$> els) ->
  rendersText (min (length els) (length blocks)) blocks ->
  let st' := restoreOriginal
               (translatePageResume u
                  (ResponseOk blocks failedBatches totalBatches)
                  settings splitError els st) in
  forall el : Element, el ∈ els ->
    textContent (doc st') (dom st') (ref el)
    = textContent (doc st) (dom st) (ref el).
Proof.
  intros Hord Hall st' el Hel. subst st'.
  destruct (resume_page blocks failedBatches totalBatches settings splitError
              els st Hall) as (_ & _ & _ & -> & -> & _).
  apply (restore_apply_text u (ref <$> els) (asBlock <$> blocks)
           (hideOverlay st) Hord).
  by apply list_elem_of_fmap_2.
Qed.

Lemma translatePage_awaiting (parsed : option Article)
    (scriptNodes : list Node) (st : State)
    (els : list Element) (texts : list jstring) :
  (translatePage u parsed scriptNodes st).2 = AwaitingTranslation els texts ->
  translatePage u parsed scriptNodes st
  = (showOverlay (Translating (length els)) st, AwaitingTranslation els texts)
  /\ translationState st = None
  /\ laterNotAbove (ref <$> els).
Proof.
  intros Hout. unfold translatePage in *.
  case_bool_decide as Hs; [done|].
  destruct (extractWithReadability parsed) as [content|]; [|done].
  destruct (length (extractTextBlocksFromReadability content) =? 0)%nat;
    [done|].
  destruct (length (Matcher.findOriginalElementsByText u _ _) =? 0)%nat;
    [done|].
  simpl in Hout. injection Hout as <- <-.
  split; [done|]. split.
  - destruct (translationState st); [|done]. destruct Hs. eauto.
  - apply matcher_output_laterNotAbove.
Qed.


End TranslatePageFacts.

(** X7.  Up to the request to the background worker, [translatePage]
    changes neither the page nor the session nor the tooltip: it only
    shows an overlay or a notice.  When it sends the request, no session
    was open, at least one element was matched, the overlay announces
    their number, the texts sent are the trimmed texts of the matched
    elements of the document (not the blocks of the article), one per
    element, and no matched element is another one or an ancestor of an
    earlier one.  When it stops before, it has shown the notice of a
    page already translated or one of the three error overlays. *)
Theorem translatePage_first_phase_reads_only (u : UnicodeData)
    (parsed : option Page.Article) (scriptNodes : list Dom.Node)
    (st : Page.State) :
  let st' := (Page.translatePage u parsed scriptNodes st).1 in
  let outcome := (Page.translatePage u parsed scriptNodes st).2 in
  Page.doc st' = Page.doc st
  /\ Page.dom st' = Page.dom st
  /\ Page.translationState st' = Page.translationState st
  /\ Page.activeTooltip st' = Page.activeTooltip st
  /\ Page.hoveredSentence st' = Page.hoveredSentence st
  /\ (forall (originalElements : list Dom.Element)
             (textsToTranslate : list jstring),
        outcome = Page.AwaitingTranslation originalElements textsToTranslate ->
        Page.translationState st = None
        /\ originalElements <> []
        /\ Page.activeOverlay st'
           = Some (Page.Translating (length originalElements))
        /\ textsToTranslate
           = (fun el => trim (Dom.textContent (Dom.node el))) <$> originalElements
        /\ Page.laterNotAbove (Dom.ref <$> originalElements))
  /\ (outcome = Page.Finished ->
        (is_Some (Page.translationState st)
         /\ option_map Page.bar_message (Page.activeFloatingBar st')
            = Some Page.PageAlreadyTranslated)
        \/ (Page.translationState st = None
            /\ (Page.activeOverlay st' = Some Page.NoContentFound
                \/ Page.activeOverlay st' = Some Page.NoReadableContent
                \/ Page.activeOverlay st' = Some Page.CouldNotMatchContent))).
Proof.
  intros st' outcome. subst st' outcome. unfold Page.translatePage.
  case_bool_decide as Hs.
  - simpl. do 5 (split; [done|]). split; [done|].
    intros _. left. split; [done|].
    unfold Page.showFloatingBar. simpl. done.
  - assert (Hnone : Page.translationState st = None).
    { destruct (Page.translationState st); [|done]. by destruct Hs. }
    destruct (Page.extractWithReadability parsed) as [content|].
    2:{ simpl. do 5 (split; [done|]). split; [done|]. intros _. right. auto. }
    destruct (length (Page.extractTextBlocksFromReadability content) =? 0)%nat.
    { simpl. do 5 (split; [done|]). split; [done|]. intros _. right. auto. }
    destruct (length (Matcher.findOriginalElementsByText u _ _) =? 0)%nat eqn:Hlen.
    { simpl. do 5 (split; [done|]). split; [done|]. intros _. right. auto. }
    simpl. do 5 (split; [done|]). split; [|done].
    intros els texts Heq. injection Heq as <- <-.
    split; [done|]. split; [|split; [done|split; [done|]]].
    + intros Hnil. rewrite Hnil in Hlen. done.
    + apply matcher_output_laterNotAbove.
Qed.

(** X8.  When the worker answers with an error, or the message cannot be
    sent, [translatePage] leaves the page, the session, the notice and
    the tooltip as they were and shows the error overlay with the
    message, or with [Translation failed] when the message is empty;
    the link to the settings is offered exactly with the two hints
    about the API key.  No session is opened by the failure, so the
    guard of a new [translatePage] decides as it did before. *)
Theorem translatePage_failure_changes_nothing (u : UnicodeData)
    (message : jstring) (thrown : bool) (settings : Page.Settings)
    (splitError : jstring) (originalElements : list Dom.Element)
    (st : Page.State) :
  let response := if thrown then Page.SendThrows message
                  else Page.ResponseNotOk message in
  let st' := Page.translatePageResume u response settings splitError
               originalElements st in
  (exists (hint : Page.ErrorHint) (showSettings : bool),
      st' = Page.set_overlay
              (Some (Page.TranslationError
                       (match message with
                        | [] => utf16 "Translation failed"
                        | _ :: _ => message
                        end) hint showSettings)) st
      /\ showSettings
         = match hint with
           | Page.AddApiKey | Page.KeyMayBeInvalid => true
           | _ => false
           end)
  /\ Page.doc st' = Page.doc st
  /\ Page.dom st' = Page.dom st
  /\ Page.translationState st' = Page.translationState st
  /\ Page.activeFloatingBar st' = Page.activeFloatingBar st
  /\ Page.activeTooltip st' = Page.activeTooltip st
  /\ Page.timers st' = Page.timers st.
Proof.
  intros response st'.
  assert (Heq : st' = Page.handleTranslationError message st).
  { subst st' response. by destruct thrown. }
  clearbody st'. subst st'.
  destruct (handleTranslationError_overlay message st)
    as (hint & showSettings & -> & Hshow).
  split; [eauto|]. done.
Qed.

(** X9.  When the worker answers with blocks of which every one that is
    applied has a text to render, [translatePage] opens a session, also
    when fewer blocks than elements came back or none at all: the
    session holds the first [min] elements, the overlay is gone, the
    language pair for the word translator is set from the target to the
    native language, and the notice, which counts the matched elements,
    carries the Restore button and never starts the timer that hides it;
    it is a warning exactly when a batch has failed.  From then on
    [translatePage] is refused. *)
Theorem translatePage_success_opens_session (u : UnicodeData)
    (blocks : list Page.ReceivedBlock) (failedBatches totalBatches : nat)
    (settings : Page.Settings) (splitError : jstring)
    (originalElements : list Dom.Element) (st : Page.State) :
  let count := min (length originalElements) (length blocks) in
  Page.rendersText count blocks ->
  let st' := Page.translatePageResume u
               (Page.ResponseOk blocks failedBatches totalBatches)
               settings splitError originalElements st in
  (exists sess : Page.Session,
      Page.translationState st' = Some sess
      /\ Page.elements sess = take count (Dom.ref <$> originalElements)
      /\ length (Page.originals sess) = count)
  /\ (count = 0%nat -> Page.dom st' = Page.dom st)
  /\ Page.activeOverlay st' = None
  /\ Page.translatorLanguages st'
     = Some (Page.targetLanguage settings, Page.nativeLanguage settings)
  /\ Page.activeFloatingBar st'
     = Some {| Page.bar_message :=
                 if (0 <? failedBatches)%nat
                 then Page.TranslatedWithFailures (length originalElements)
                        failedBatches totalBatches
                 else Page.TranslatedParagraphs (length originalElements);
               Page.bar_type :=
                 if (0 <? failedBatches)%nat then Page.warning
                 else Page.success;
               Page.bar_restoreButton := true |}
  /\ Page.timers st' = Page.timers st
  /\ forall (parsed : option Page.Article) (scriptNodes : list Dom.Node),
       (Page.translatePage u parsed scriptNodes st').2 = Page.Finished
       /\ Page.dom (Page.translatePage u parsed scriptNodes st').1 = Page.dom st'
       /\ option_map Page.bar_message
            (Page.activeFloatingBar (Page.translatePage u parsed scriptNodes st').1)
          = Some Page.PageAlreadyTranslated.
Proof.
  intros count Hall st'.
  pose proof (applyTranslations_session u (Dom.ref <$> originalElements)
                (Page.asBlock <$> blocks) (Page.hideOverlay st)) as H.
  cbv zeta in H. rewrite !length_fmap in H. fold count in H.
  destruct H as ((sess & Hsess & Hels & Hlen) & Hrest & Hzero).
  rewrite Hsess in Hrest.
  assert (HA : exists dA : gmap Dom.ElemRef Page.ElState,
             Page.applyTranslations u (Dom.ref <$> originalElements)
               (Page.asBlock <$> blocks) (Page.hideOverlay st)
             = Page.set_translationState (Some sess)
                 (Page.set_dom dA (Page.hideOverlay st))
             /\ (count = 0%nat -> dA = Page.dom st)).
  { eexists. split; [exact Hrest|]. exact Hzero. }
  destruct HA as (dA & HA & HdA). clear Hrest Hzero Hsess.
  subst st'. rewrite resume_renderable by done. rewrite HA.
  assert (Hsome : bool_decide (is_Some (Some sess)) = true).
  { apply bool_decide_eq_true_2. eauto. }
  destruct (0 <? failedBatches)%nat; unfold Page.showFloatingBar; simpl;
    rewrite ?Hsome; simpl.
  - split; [by exists sess|]. do 5 (split; [done|]).
    intros parsed scriptNodes. unfold Page.translatePage. simpl.
    rewrite ?Hsome. done.
  - split; [by exists sess|]. do 5 (split; [done|]).
    intros parsed scriptNodes. unfold Page.translatePage. simpl.
    rewrite ?Hsome. done.
Qed.

Lemma translatePage_success_opens_session_witness :
  Page.translatorLanguages
    (Page.translatePageResume latin_ucd (Page.ResponseOk Notions.sampleReply 0 1)
       Notions.sampleSettings [] Notions.sampleMatched Page.sampleState)
  = Some (utf16 "German", utf16 "English").
Proof.
  refine (proj1 (proj2 (proj2 (proj2
            (translatePage_success_opens_session latin_ucd Notions.sampleReply
               0 1 Notions.sampleSettings [] Notions.sampleMatched
               Page.sampleState _))))).
  vm_compute. repeat constructor; eauto.
Defined.

(** X22.  When the block at some index has neither a translation nor a
    string as its original, and the blocks before it have a text, the
    rewrite stops there with an error: the element of the page at that
    index is left marked as translated, with its text recorded in its dataset,
    but empty; no session is opened, so that [restoreOriginal] has
    nothing to restore; the error overlay shows the message of the
    error, and the elements after that index are untouched. *)
Theorem unrenderable_block_strands_page (u : UnicodeData)
    (blocks : list Page.ReceivedBlock) (failedBatches totalBatches : nat)
    (settings : Page.Settings) (splitError : jstring)
    (originalElements : list Dom.Element) (st : Page.State)
    (k : nat) (el : Dom.Element) (block : Page.ReceivedBlock)
    (tag : string) (kids : list Dom.Node) :
  Page.laterNotAbove (Dom.ref <$> originalElements) ->
  Page.translationState st = None ->
  originalElements !! k = Some el ->
  Dom.nodeAt (Page.doc st) (Dom.ref el) = Some (Dom.Elem tag kids) ->
  blocks !! k = Some block ->
  Page.textToRender block = None ->
  Page.rendersText k blocks ->
  let st' := Page.translatePageResume u
               (Page.ResponseOk blocks failedBatches totalBatches)
               settings splitError originalElements st in
  Page.translationState st' = None
  /\ Page.restoreOriginal st' = st'
  /\ (exists (hint : Page.ErrorHint) (showSettings : bool),
        Page.activeOverlay st'
        = Some (Page.TranslationError
                  (match splitError with
                   | [] => utf16 "Translation failed"
                   | _ :: _ => splitError
                   end) hint showSettings))
  /\ Page.dom st' !! Dom.ref el
     = Some (Page.strandedElement block
               (Page.textContent (Page.doc st) (Page.dom st) (Dom.ref el))
               (Page.getEl (Page.dom st) (Dom.ref el)))
  /\ Page.textContent (Page.doc st') (Page.dom st') (Dom.ref el) = []
  /\ (forall (j : nat) (later : Dom.Element),
        (k < j)%nat -> originalElements !! j = Some later ->
        Page.dom st' !! Dom.ref later = Page.dom st !! Dom.ref later).
Proof.
  intros Hord Hnone Hel Hnode Hblock Htext Hpre st'.
  set (els := Dom.ref <$> originalElements) in *.
  set (count := min (length els) (length blocks)).
  assert (Hk : (k < count)%nat).
  { apply lookup_lt_Some in Hel, Hblock. subst count els.
    rewrite length_fmap. lia. }
  assert (Hrefk : els !! k = Some (Dom.ref el)).
  { subst els. by rewrite list_lookup_fmap, Hel. }
  (* the pairs the loop goes through *)
  assert (Hzip : zip (take count els) (take count blocks)
                 = zip (take k els) (take k blocks)
                   ++ (Dom.ref el, block)
                   :: zip (drop (S k) (take count els))
                          (drop (S k) (take count blocks))).
  { rewrite (zip_lookup_split (take count els) (take count blocks) k
               (Dom.ref el) block) at 1
      by (by rewrite lookup_take_lt).
    by rewrite !take_take, !Nat.min_l by lia. }
  assert (Hallpre : Forall (fun p => is_Some (Page.textToRender p.2))
                           (zip (take k els) (take k blocks))).
  { apply Forall_forall. intros [e b] Hin. apply elem_of_zip_r in Hin.
    unfold Page.rendersText in Hpre. rewrite Forall_forall in Hpre.
    by apply Hpre. }
  pose proof (applyLoop_throws u (Page.doc st) _ (Dom.ref el) block
                (zip (drop (S k) (take count els))
                     (drop (S k) (take count blocks)))
                (Page.dom st, []) Hallpre Htext) as Hloop.
  cbv zeta in Hloop. rewrite <- Hzip in Hloop.
  rewrite zip_asBlock in Hloop.
  (* the page before the turn that throws *)
  assert (Hfst : (zip (take k els) (Page.asBlock <$> take k blocks)).*1
                 = take k els).
  { apply fst_zip. rewrite length_fmap, !length_take.
    apply lookup_lt_Some in Hrefk, Hblock. lia. }
  destruct (apply_fold u (Page.doc st)
              (zip (take k els) (Page.asBlock <$> take k blocks))
              (Page.dom st) []) as (d1 & Hfold & Hframe).
  { rewrite Hfst. by apply laterNotAbove_take. }
  rewrite Hfst in Hframe. rewrite Hfold in Hloop. simpl in Hloop.
  assert (Hout : forall (i : nat) (e down : Dom.ElemRef),
             (k <= i)%nat -> els !! i = Some e ->
             d1 !! (down ++ e) = Page.dom st !! (down ++ e)).
  { intros i e down Hi He. apply Hframe.
    by apply (beyond_not_taken els k i). }
  assert (Htxt : Page.textContent (Page.doc st) d1 (Dom.ref el)
                 = Page.textContent (Page.doc st) (Page.dom st) (Dom.ref el)).
  { apply textContent_frame. intros down. by apply (Hout k). }
  assert (Hget : Page.getEl d1 (Dom.ref el)
                 = Page.getEl (Page.dom st) (Dom.ref el)).
  { unfold Page.getEl.
    pose proof (Hout k (Dom.ref el) [] (le_n k) Hrefk) as H0.
    rewrite app_nil_l in H0. by rewrite H0. }
  rewrite Htxt, Hget in Hloop.
  (* the state the error handler gets *)
  assert (Heq : st' = Page.handleTranslationError splitError
                        (Page.set_dom
                           (<[Dom.ref el :=
                                Page.strandedElement block
                                  (Page.textContent (Page.doc st) (Page.dom st)
                                     (Dom.ref el))
                                  (Page.getEl (Page.dom st) (Dom.ref el))]> d1)
                           (Page.hideOverlay st))).
  { subst st'. unfold Page.translatePageResume, Page.applyTranslationsOrThrow.
    fold els. fold count.
    change (Page.doc (Page.hideOverlay st)) with (Page.doc st).
    change (Page.dom (Page.hideOverlay st)) with (Page.dom st).
    by rewrite Hloop. }
  clearbody st'. subst st'.
  destruct (handleTranslationError_overlay splitError
              (Page.set_dom
                 (<[Dom.ref el :=
                      Page.strandedElement block
                        (Page.textContent (Page.doc st) (Page.dom st)
                           (Dom.ref el))
                        (Page.getEl (Page.dom st) (Dom.ref el))]> d1)
                 (Page.hideOverlay st)))
    as (hint & showSettings & -> & _).
  simpl. split; [done|]. split.
  { unfold Page.restoreOriginal. simpl. by rewrite Hnone. }
  split; [eauto|]. split; [by rewrite lookup_insert_eq|]. split.
  - unfold Page.textContent.
    rewrite Hnode, liveText_elem, lookup_insert_eq. done.
  - intros j later Hj Hlater.
    assert (Hrefj : els !! j = Some (Dom.ref later)).
    { subst els. by rewrite list_lookup_fmap, Hlater. }
    destruct (Hord k j (Dom.ref el) (Dom.ref later) Hj Hrefk Hrefj) as [Hne _].
    rewrite lookup_insert_ne by done.
    pose proof (Hout j (Dom.ref later) [] ltac:(lia) Hrefj) as H0.
    by rewrite app_nil_l in H0.
Qed.

Lemma unrenderable_block_strands_page_witness :
  Page.textContent Matcher.samplePage
    (Page.dom
       (Page.translatePageResume latin_ucd
          (Page.ResponseOk Notions.sampleBrokenReply 0 1)
          Notions.sampleSettings (utf16 "text is undefined")
          Notions.sampleMatched Page.sampleState))
    Page.sampleParagraph2
  = [].
Proof.
  refine (proj1 (proj2 (proj2 (proj2 (proj2
            (unrenderable_block_strands_page latin_ucd
               Notions.sampleBrokenReply 0 1 Notions.sampleSettings
               (utf16 "text is undefined") Notions.sampleMatched
               Page.sampleState 1
               {| Dom.ref := Page.sampleParagraph2;
                  Dom.node := Dom.Elem "P" [Dom.TextN Matcher.sampleText2] |}
               {| Page.received_original := Page.OriginalAbsent;
                  Page.received_translated := [] |}
               "P"%string [Dom.TextN Matcher.sampleText2]
               _ eq_refl _ eq_refl eq_refl eq_refl _)))))).
  - apply matcher_output_laterNotAbove.
  - vm_compute. reflexivity.
  - vm_compute. repeat constructor; eauto.
Defined.

Section RetryFacts.
Import Messaging.
Context {A : Type}.

Lemma attemptFrom_spec (send : nat -> SendOutcome A) (retries : nat) :
  forall remaining attempt : nat,
    (attempt + remaining = S retries)%nat -> (0 < remaining)%nat ->
    exists k : nat,
      (attempt <= k <= retries)%nat
      /\ (forall j : nat, (attempt <= j < k)%nat ->
            rejectsWithConnectionError (send j) = true)
      /\ ((k < retries)%nat -> rejectsWithConnectionError (send k) = false)
      /\ attemptFrom send retries attempt remaining
         = (completionOf (send k),
            (fun j => (100 * (j + 1))%nat) <$> seq attempt (k - attempt)).
Proof.
  induction remaining as [|remaining IH]; intros attempt Hsum Hpos; [lia|].
  simpl. destruct (send attempt) as [response|message] eqn:Hsend.
  - exists attempt. rewrite Hsend, Nat.sub_diag. simpl.
    repeat split; try lia; done.
  - destruct (isConnectionError message && (attempt <? retries)%nat) eqn:Hc.
    + apply andb_true_iff in Hc as [Hconn Hlt]. apply Nat.ltb_lt in Hlt.
      destruct (IH (S attempt)) as (k & Hk & Hbefore & Hat & Heq); [lia..|].
      exists k. rewrite Heq.
      split; [lia|]. split; [|split; [exact Hat|]].
      * intros j Hj. destruct (decide (j = attempt)) as [->|Hne].
        -- by rewrite Hsend.
        -- apply Hbefore. lia.
      * replace (k - attempt)%nat with (S (k - S attempt)) by lia.
        done.
    + exists attempt. rewrite Hsend, Nat.sub_diag. simpl.
      split; [lia|]. split; [intros j Hj; lia|]. split; [|done].
      intros Hlt. apply Nat.ltb_lt in Hlt. rewrite Hlt, andb_true_r in Hc.
      done.
Qed.

End RetryFacts.

(** X10.  [sendMessageWithRetry] ends at the first attempt [k] that is
    answered or rejected with another error than a connection error, or
    at attempt [retries] when there is none before: it returns that
    answer or throws that error, and never falls out of its loop without
    either.  It has sent [k + 1 <= retries + 1] messages, every earlier
    one rejected with a connection error, and has waited
    [100 * (j + 1)] milliseconds after attempt [j]. *)
Theorem sendMessageWithRetry_stops_at_first_answer {A : Type}
    (send : nat -> Messaging.SendOutcome A) (retries : nat) :
  exists k : nat,
    (k <= retries)%nat
    /\ (forall j : nat, (j < k)%nat ->
          Messaging.rejectsWithConnectionError (send j) = true)
    /\ ((k < retries)%nat ->
          Messaging.rejectsWithConnectionError (send k) = false)
    /\ Messaging.sendMessageWithRetry send retries
       = (Messaging.completionOf (send k),
          (fun j => (100 * (j + 1))%nat) <$> seq 0 k)
    /\ (Messaging.sendMessageWithRetry send retries).1
       <> Messaging.ReturnsUndefined.
Proof.
  destruct (attemptFrom_spec send retries (S retries) 0%nat)
    as (k & Hk & Hbefore & Hat & Heq); [lia..|].
  rewrite Nat.sub_0_r in Heq.
  exists k. split; [lia|]. split; [|split; [exact Hat|split; [exact Heq|]]].
  - intros j Hj. apply Hbefore. lia.
  - unfold Messaging.sendMessageWithRetry. rewrite Heq. simpl.
    by destruct (send k).
Qed.

Section WorkerFacts.
Import Background.

Lemma makeBatches_slices (blocks : list jstring) :
  makeBatches blocks
  = (fun i => take 2 (drop (2 * i) blocks))
      <$> seq 0 ((length blocks + 1) / 2).
Proof.
  assert (H : forall (n : nat) (l : list jstring), (length l <= n)%nat ->
             makeBatches l
             = (fun i => take 2 (drop (2 * i) l)) <$> seq 0 ((length l + 1) / 2)).
  { induction n as [|n IH]; intros l Hl.
    - destruct l; [done|simpl in Hl; lia].
    - destruct l as [|a [|b l]]; [done..|].
      simpl in Hl.
      change (makeBatches (a :: b :: l)) with ([a; b] :: makeBatches l).
      replace ((length (a :: b :: l) + 1) / 2)%nat
        with (S ((length l + 1) / 2)).
      2:{ simpl length.
          replace (S (S (length l)) + 1)%nat with (length l + 1 + 1 * 2)%nat
            by lia.
          rewrite Nat.div_add by lia. lia. }
      rewrite IH by lia.
      change (seq 0 (S ((length l + 1) / 2)))
        with (0%nat :: seq 1 ((length l + 1) / 2)).
      rewrite fmap_cons. f_equal.
      rewrite <- fmap_S_seq, <- list_fmap_compose.
      apply list_fmap_ext. intros i x _. unfold compose.
      replace (2 * S x)%nat with (S (S (2 * x))) by lia. reflexivity. }
  by apply (H (length blocks)).
Qed.

Lemma filter_all {X : Type} (P : X -> Prop) `{!forall x, Decision (P x)}
    (l : list X) :
  Forall P l -> filter P l = l.
Proof.
  induction 1 as [|x l Hx Hl IH]; [done|].
  rewrite filter_cons_True by done. by rewrite IH.
Qed.

Lemma all_fail_count (outcome : nat -> FetchOutcome) (n : nat) :
  (forall i : nat, (i < n)%nat -> batchFails (outcome i) = true) ->
  length (filter (fun i => batchFails (outcome i) = true) (seq 0 n)) = n.
Proof.
  intros Hall. rewrite filter_all.
  - by rewrite length_seq.
  - apply Forall_forall. intros i Hi. apply elem_of_seq in Hi.
    apply Hall. lia.
Qed.

Lemma concat_untranslated (batches : list (list jstring)) :
  concat (untranslated <$> batches) = untranslated (concat batches).
Proof.
  induction batches as [|b l IH]; [done|].
  rewrite fmap_cons, !concat_cons, IH. unfold untranslated.
  by rewrite fmap_app.
Qed.

Lemma handleTranslationRequest_returns (apiKey : jstring)
    (blocks : list jstring) (outcome : nat -> FetchOutcome) (order : list nat) :
  apiKey <> [] ->
  order ≡ₚ seq 0 (length (makeBatches blocks)) ->
  handleTranslationRequest apiKey blocks outcome order
  = Returns
      {| result_blocks :=
           concat (imap (fun i batch => Background.blocks
                                          (translateBatch batch (outcome i)))
                        (makeBatches blocks));
         failedBatches :=
           length (filter (fun i => batchFails (outcome i) = true)
                          (seq 0 (length (makeBatches blocks))));
         totalBatches := length (makeBatches blocks) |}.
Proof.
  intros Hkey Hperm. unfold handleTranslationRequest.
  destruct apiKey as [|c apiKey]; [done|].
  destruct (settle_all (makeBatches blocks) outcome order Hperm) as [Hc Hr].
  cbv zeta in Hc, Hr. rewrite Hr, Hc.
  rewrite mapM_fmap_Some by done. done.
Qed.

End WorkerFacts.

Lemma length_concat_imap {X Y : Type} (l : list (list X)) :
  forall f : nat -> list X -> list Y,
    (forall (i : nat) (x : list X), l !! i = Some x -> length (f i x) = length x) ->
    length (concat (imap f l)) = length (concat l).
Proof.
  induction l as [|x l IH]; intros f Hf; [done|].
  rewrite imap_cons, !concat_cons, !length_app.
  rewrite (Hf 0%nat x eq_refl). f_equal.
  apply IH. intros i y Hy. apply (Hf (S i) y Hy).
Qed.

(** X11.  The batches of the worker are the slices
    [blocks.slice(2 i, 2 i + 2)] of the blocks, for [i] from 0: there
    are [ceil (n / 2)] of them for [n] blocks, each holds two blocks,
    but for the last one, which holds one when [n] is odd; none is
    empty. *)
Theorem batches_are_slices_of_two (blocks : list jstring) :
  let batches := Background.makeBatches blocks in
  length batches = ((length blocks + 1) / 2)%nat
  /\ (forall i : nat, (i < length batches)%nat ->
        batches !! i = Some (take 2 (drop (2 * i) blocks)))
  /\ (forall (i : nat) (batch : list jstring), batches !! i = Some batch ->
        length batch = min 2 (length blocks - 2 * i)
        /\ (1 <= length batch)%nat).
Proof.
  intros batches. subst batches. rewrite makeBatches_slices.
  rewrite length_fmap, length_seq.
  assert (Hdiv : forall i : nat, (i < (length blocks + 1) / 2)%nat ->
                   (2 * i < length blocks)%nat).
  { intros i Hi.
    pose proof (Nat.div_mod_eq (length blocks + 1) 2) as Hd.
    pose proof (Nat.mod_upper_bound (length blocks + 1) 2) as Hm. lia. }
  split; [done|]. split.
  - intros i Hi. rewrite list_lookup_fmap, lookup_seq_lt by done. done.
  - intros i batch Hi. rewrite list_lookup_fmap in Hi.
    destruct (seq 0 ((length blocks + 1) / 2) !! i) as [k|] eqn:Hk; [|done].
    apply lookup_seq in Hk as [-> Hlt]. simpl in Hi. injection Hi as <-.
    rewrite length_take, length_drop. specialize (Hdiv i Hlt). lia.
Qed.

(** X12.  When the key is set and the request of every batch fails, the
    worker still answers: with every block, in order, as its own
    translation, and with as many failed batches as there are
    batches. *)
Theorem all_batches_failing_returns_the_originals
    (apiKey : jstring) (blocks : list jstring)
    (outcome : nat -> Background.FetchOutcome) (order : list nat) :
  apiKey <> [] ->
  order ≡ₚ seq 0 (length (Background.makeBatches blocks)) ->
  (forall i : nat, (i < length (Background.makeBatches blocks))%nat ->
     Background.batchFails (outcome i) = true) ->
  Background.handleTranslationRequest apiKey blocks outcome order
  = Background.Returns
      {| Background.result_blocks := Background.untranslated blocks;
         Background.failedBatches := length (Background.makeBatches blocks);
         Background.totalBatches := length (Background.makeBatches blocks) |}.
Proof.
  intros Hkey Hperm Hall.
  rewrite handleTranslationRequest_returns by done.
  rewrite all_fail_count by done. do 2 f_equal.
  rewrite (imap_ext _ (const Background.untranslated)).
  - rewrite imap_const, concat_untranslated. by rewrite makeBatches_concat.
  - intros i batch Hi. apply translateBatch_fallback, Hall.
    by apply lookup_lt_Some in Hi.
Qed.

Lemma all_batches_failing_returns_the_originals_witness :
  Background.handleTranslationRequest (utf16 "sk-test") Background.sampleBlocks
    (fun _ => Background.HttpError 500) [1; 0]%nat
  = Background.Returns
      {| Background.result_blocks :=
           Background.untranslated Background.sampleBlocks;
         Background.failedBatches := 2;
         Background.totalBatches := 2 |}.
Proof.
  apply (all_batches_failing_returns_the_originals (utf16 "sk-test")
           Background.sampleBlocks (fun _ => Background.HttpError 500)
           [1; 0]%nat).
  - discriminate.
  - simpl. apply perm_swap.
  - reflexivity.
Defined.

(** X13.  When the key is set and every batch that is answered is
    answered with as many blocks as it holds, the worker returns exactly
    one block for each block it was sent, whichever batches fail and in
    whichever order the requests end. *)
Theorem worker_returns_one_block_per_input
    (apiKey : jstring) (blocks : list jstring)
    (outcome : nat -> Background.FetchOutcome) (order : list nat) :
  apiKey <> [] ->
  order ≡ₚ seq 0 (length (Background.makeBatches blocks)) ->
  (forall (i : nat) (batch : list jstring) (reply : list Background.ReplyBlock),
     Background.makeBatches blocks !! i = Some batch ->
     outcome i = Background.Reply reply -> length reply = length batch) ->
  exists r : Background.TranslationResult,
    Background.handleTranslationRequest apiKey blocks outcome order
    = Background.Returns r
    /\ length (Background.result_blocks r) = length blocks
    /\ (Background.failedBatches r <= Background.totalBatches r)%nat.
Proof.
  intros Hkey Hperm Hreply.
  rewrite handleTranslationRequest_returns by done.
  eexists. split; [done|]. simpl. split.
  - rewrite length_concat_imap.
    + by rewrite makeBatches_concat.
    + intros i batch Hi. unfold Background.translateBatch.
      destruct (outcome i) eqn:Ho; simpl; rewrite ?length_fmap; try done.
      by apply (Hreply i).
  - etrans; [apply length_filter|]. by rewrite length_seq.
Qed.

Lemma worker_returns_one_block_per_input_witness :
  exists r : Background.TranslationResult,
    Background.handleTranslationRequest (utf16 "sk-test")
      Background.sampleBlocks Background.sampleOutcome [1; 0]%nat
    = Background.Returns r
    /\ length (Background.result_blocks r) = 3%nat
    /\ (Background.failedBatches r <= Background.totalBatches r)%nat.
Proof.
  apply (worker_returns_one_block_per_input (utf16 "sk-test")
           Background.sampleBlocks Background.sampleOutcome [1; 0]%nat).
  - discriminate.
  - simpl. apply perm_swap.
  - intros [|[|i]] batch reply Hb Ho; try done.
    injection Hb as <-. injection Ho as <-. reflexivity.
Defined.

Section PromptFacts.
Import Background Prompt.

Lemma decimalDigits_digits (fuel n : nat) :
  forallb isDigit (decimalDigits fuel n) = true.
Proof.
  revert n. induction fuel as [|fuel IH]; intros n; [done|].
  simpl. rewrite forallb_app. apply andb_true_iff. split.
  - destruct (n <? 10)%nat; [done|apply IH].
  - simpl. rewrite andb_true_r. unfold isDigit.
    pose proof (Nat.mod_upper_bound n 10). apply andb_true_iff.
    split; apply N.leb_le; lia.
Qed.

Lemma decimal_nonempty (n : nat) : decimal n <> [].
Proof.
  unfold decimal. simpl. intros H. apply app_eq_nil in H as [_ H]. done.
Qed.

Lemma decimalDigits_value (fuel : nat) :
  forall n : nat, (n < fuel)%nat ->
    foldl (fun acc c => (10 * acc + N.to_nat (c - 48))%nat) 0%nat
          (decimalDigits fuel n) = n.
Proof.
  induction fuel as [|fuel IH]; intros n Hn; [lia|].
  cbn [decimalDigits]. rewrite foldl_app. cbn [foldl].
  replace (N.to_nat (48 + N.of_nat (n mod 10) - 48)) with (n mod 10)%nat by lia.
  destruct (n <? 10)%nat eqn:Hlt.
  - apply Nat.ltb_lt in Hlt. cbn [foldl]. rewrite Nat.mod_small by done. lia.
  - apply Nat.ltb_ge in Hlt. rewrite IH.
    + pose proof (Nat.div_mod_eq n 10). lia.
    + pose proof (Nat.div_lt n 10). lia.
Qed.

Lemma startsWith_app (needle post : jstring) :
  startsWith needle (needle ++ post) = true.
Proof.
  induction needle as [|c needle IH]; [by destruct post|].
  simpl. by rewrite N.eqb_refl, IH.
Qed.

Lemma includes_unfold (needle hay : jstring) :
  includes needle hay
  = startsWith needle hay
    || match hay with
       | [] => false
       | _ :: hay' => includes needle hay'
       end.
Proof. by destruct hay. Qed.

Lemma includes_app (needle pre post : jstring) :
  includes needle (pre ++ needle ++ post) = true.
Proof.
  induction pre as [|c pre IH].
  - rewrite app_nil_l, includes_unfold. by rewrite startsWith_app.
  - rewrite includes_unfold. rewrite <- app_comm_cons, IH. apply orb_true_r.
Qed.

Lemma join_lookup (sep : jstring) (pieces : list jstring) (i : nat)
    (x : jstring) :
  pieces !! i = Some x ->
  exists pre post : jstring, join sep pieces = pre ++ x ++ post.
Proof.
  revert i. induction pieces as [|y l IH]; intros i Hi; [done|].
  destruct i as [|i].
  - injection Hi as ->. destruct l as [|z l].
    + exists [], []. simpl. by rewrite app_nil_r.
    + exists [], (sep ++ join sep (z :: l)). done.
  - simpl in Hi. destruct (IH i Hi) as (pre & post & Heq).
    destruct l as [|z l]; [done|].
    exists (y ++ sep ++ pre), post.
    change (join sep (y :: z :: l)) with (y ++ sep ++ join sep (z :: l)).
    rewrite Heq. by rewrite <- !app_assoc.
Qed.

End PromptFacts.

(** X14.  The line [buildPrompt] writes for the block at [index] is
    [#], the decimal digits of [index + 1], a colon, a space and the
    block, and every such line is part of the prompt.  The cleaning of a
    reply undoes the numbering: from such a line it gives back the
    block without its leading whitespace, hence the block itself when
    it starts with none. *)
Theorem numbered_block_is_cleaned_to_block (index : nat) (block : jstring) :
  Background.stripNumberPrefix (Prompt.numberBlock index block)
  = trimStart block
  /\ (startsWithSpace block = false ->
      Background.stripNumberPrefix (Prompt.numberBlock index block) = block)
  /\ forallb isDigit (Prompt.decimal (index + 1)) = true
  /\ foldl (fun acc c => (10 * acc + N.to_nat (c - 48))%nat) 0%nat
           (Prompt.decimal (index + 1)) = (index + 1)%nat
  /\ forall (blocks : list jstring) (settings : Prompt.WorkerSettings),
       blocks !! index = Some block ->
       includes (Prompt.numberBlock index block)
                (Prompt.buildPrompt blocks settings) = true.
Proof.
  assert (Hstrip : Background.stripNumberPrefix (Prompt.numberBlock index block)
                   = trimStart block).
  { unfold Background.stripNumberPrefix, Prompt.numberBlock.
    change (utf16 ": " ++ block) with (58 :: 32 :: block).
    rewrite span_app; [|apply decimalDigits_digits|done].
    pose proof (decimal_nonempty (index + 1)) as Hne.
    destruct (Prompt.decimal (index + 1)) as [|d ds]; [done|].
    unfold trimStart. simpl. by destruct (span isWhiteSpace block). }
  split; [exact Hstrip|]. split; [|split; [|split]].
  - intros Hs. rewrite Hstrip. unfold trimStart.
    destruct block as [|c block]; [done|]. simpl in *. by rewrite Hs.
  - apply decimalDigits_digits.
  - apply decimalDigits_value. lia.
  - intros blocks settings Hi. unfold Prompt.buildPrompt.
    destruct (join_lookup [10; 10] (imap Prompt.numberBlock blocks) index
                (Prompt.numberBlock index block)) as (pre & post & ->).
    { by rewrite list_lookup_imap, Hi. }
    rewrite !app_assoc. rewrite <- app_assoc. apply includes_app.
Qed.

Section MatcherSoundness.
Import Dom Matcher Notions.
Variable u : UnicodeData.
Variable doc : Node.

Lemma scan_accepts (used : gset ElemRef) (target : jstring)
    (cands : list Element) :
  forall (best : option Element) (bs : Q) (m : Element) (s : Q),
    scanCandidates u used target cands best bs = (Some m, s) ->
    Some m = best
    \/ (m ∈ cands /\ eligible used m = true
        /\ (exactMatch u target m \/ (threshold < scoreOf u target m)%Q)).
Proof.
  induction cands as [|el rest IH]; intros best bs m s Hscan.
  - simpl in Hscan. left. by injection Hscan as <- _.
  - destruct (eligible used el) eqn:Hel.
    + rewrite scan_visit in Hscan by done.
      case_bool_decide as Hex.
      * injection Hscan as <- _. right.
        split; [apply elem_of_cons; by left|]. split; [done|by left].
      * destruct (Qgtb (scoreOf u target el) threshold
                  && Qgtb (scoreOf u target el) bs) eqn:Hgt.
        -- apply IH in Hscan as [Hbest|(Hin & He & Hacc)].
           ++ injection Hbest as ->. right.
              split; [apply elem_of_cons; by left|]. split; [done|].
              right. apply andb_true_iff in Hgt as [Hgt _].
              by apply Qgtb_true.
           ++ right. split; [apply elem_of_cons; by right|]. done.
        -- apply IH in Hscan as [Hbest|(Hin & He & Hacc)]; [by left|].
           right. split; [apply elem_of_cons; by right|]. done.
    + rewrite scan_skip in Hscan by done.
      apply IH in Hscan as [Hbest|(Hin & He & Hacc)]; [by left|].
      right. split; [apply elem_of_cons; by right|]. done.
Qed.

Lemma matchBlocks_sound (blocks : list jstring) :
  forall (found : list Element) (used : gset ElemRef),
    exists (rest : list Element) (bs : list jstring),
      (foldl (matchBlock u doc) (found, used) blocks).1 = found ++ rest
      /\ bs `sublist_of` blocks
      /\ Forall2 (accepts u) bs rest
      /\ Forall (fun m => m ∈ candidates doc /\ isContainerElement m = false)
                rest.
Proof.
  induction blocks as [|b blocks IH]; intros found used.
  - exists [], []. simpl. rewrite app_nil_r. repeat split; constructor.
  - change (foldl (matchBlock u doc) (found, used) (b :: blocks))
      with (foldl (matchBlock u doc) (matchBlock u doc (found, used) b) blocks).
    destruct (matchBlock_cases u doc found used b)
      as [[-> _]|(m & s & Hscan & -> & Hcand & Hfresh)].
    + destruct (IH found used) as (rest & bs & Heq & Hsub & Hacc & Hall).
      exists rest, bs. split; [done|]. split; [by apply sublist_cons|done].
    + destruct (IH (found ++ [m]) (markMatched doc m used))
        as (rest & bs & Heq & Hsub & Hacc & Hall).
      exists (m :: rest), (b :: bs).
      apply scan_accepts in Hscan as [|(_ & Hel & Hm)]; [done|].
      split; [by rewrite Heq, <- app_assoc|].
      split; [by apply sublist_skip|]. split.
      * constructor; [exact Hm|exact Hacc].
      * constructor; [|exact Hall]. split; [done|].
        unfold eligible in Hel. apply andb_true_iff in Hel as [_ Hc].
        by apply negb_true_iff in Hc.
Qed.

End MatcherSoundness.

(** X15.  What [findOriginalElementsByText] returns, it returns for a
    reason: the elements found pair off, in order, with some of the text
    blocks, in their order, each element having the normalized text of
    its block or a similarity to it above 0.85.  Every element found is
    one the selector finds in the page, with one of its tags, and is no
    container of long blocks; there are at most as many as blocks. *)
Theorem matched_elements_answer_blocks_in_order (u : UnicodeData)
    (doc : Dom.Node) (textBlocks : list jstring) :
  let found := Matcher.findOriginalElementsByText u doc textBlocks in
  (exists bs : list jstring,
      bs `sublist_of` textBlocks /\ Forall2 (Notions.accepts u) bs found)
  /\ (forall m : Dom.Element, m ∈ found ->
        Dom.nodeAt doc (Dom.ref m) = Some (Dom.node m)
        /\ Dom.hasTag Matcher.candidateTags (Dom.node m) = true
        /\ Matcher.isContainerElement m = false)
  /\ (length found <= length textBlocks)%nat.
Proof.
  intros found. subst found. unfold Matcher.findOriginalElementsByText.
  destruct (matchBlocks_sound u doc textBlocks [] ∅)
    as (rest & bs & Heq & Hsub & Hacc & Hall).
  rewrite Heq, app_nil_l. split; [by exists bs|]. split.
  - intros m Hm. rewrite Forall_forall in Hall.
    destruct (Hall m Hm) as [Hcand Hcont].
    destruct (candidates_spec doc m Hcand) as [Hnode Htag]. done.
  - rewrite <- (Forall2_length _ _ _ Hacc). by apply sublist_length.
Qed.

Section TrimFacts.

Lemma trimStart_head (s : jstring) : startsWithSpace (trimStart s) = false.
Proof.
  unfold trimStart. destruct (span isWhiteSpace s) as [a b] eqn:Hs.
  apply span_spec in Hs as (_ & _ & Hb). simpl.
  by destruct b.
Qed.

Lemma trimStart_fixed (s : jstring) :
  startsWithSpace s = false -> trimStart s = s.
Proof.
  intros Hs. unfold trimStart. destruct s as [|c s]; [done|].
  simpl in *. by rewrite Hs.
Qed.

Lemma trimStart_keeps_last (l : jstring) (c : N) :
  isWhiteSpace c = false -> exists y : jstring, trimStart (l ++ [c]) = y ++ [c].
Proof.
  intros Hc. induction l as [|d l IH].
  - exists []. unfold trimStart. simpl. by rewrite Hc.
  - destruct (isWhiteSpace d) eqn:Hd.
    + destruct IH as [y Hy]. exists y. rewrite <- Hy.
      unfold trimStart. simpl. rewrite Hd.
      by destruct (span isWhiteSpace (l ++ [c])).
    + exists (d :: l). unfold trimStart. simpl. by rewrite Hd.
Qed.

Lemma trim_ends (s : jstring) :
  startsWithSpace (trim s) = false /\ startsWithSpace (rev (trim s)) = false.
Proof.
  unfold trim. rewrite rev_involutive. split; [|apply trimStart_head].
  pose proof (trimStart_head s) as Hh.
  destruct (trimStart s) as [|c x]; [done|].
  simpl in Hh. simpl rev.
  destruct (trimStart_keeps_last (rev x) c Hh) as [y ->].
  rewrite rev_app_distr. simpl. exact Hh.
Qed.

Lemma trim_fixed (s : jstring) :
  startsWithSpace s = false -> startsWithSpace (rev s) = false -> trim s = s.
Proof.
  intros Hs Hr. unfold trim.
  rewrite (trimStart_fixed s Hs), (trimStart_fixed (rev s) Hr).
  apply rev_involutive.
Qed.

Lemma trim_idempotent (s : jstring) : trim (trim s) = trim s.
Proof. destruct (trim_ends s). by apply trim_fixed. Qed.

End TrimFacts.

(** X16.  Every text block [extractTextBlocksFromReadability] returns is
    the trimmed text of an element of the article with one of the nine
    readable tags, is longer than 30 code units, and neither starts nor
    ends with whitespace, so that trimming it again changes nothing. *)
Theorem extracted_blocks_are_long_and_trimmed (content : Dom.Node)
    (text : jstring) :
  text ∈ Page.extractTextBlocksFromReadability content ->
  (30 < length text)%nat
  /\ startsWithSpace text = false
  /\ startsWithSpace (rev text) = false
  /\ trim text = text
  /\ exists el : Dom.Element,
       el ∈ Dom.querySelectorAll Page.readableTags content
       /\ text = trim (Dom.textContent (Dom.node el)).
Proof.
  intros Hin. unfold Page.extractTextBlocksFromReadability in Hin.
  apply list_elem_of_filter in Hin as [Hlen Hin].
  apply list_elem_of_fmap in Hin as (el & -> & Hel).
  destruct (trim_ends (Dom.textContent (Dom.node el))) as [Hs He].
  split; [done|]. split; [done|]. split; [done|].
  split; [apply trim_idempotent|]. by exists el.
Qed.

Lemma extracted_blocks_are_long_and_trimmed_witness :
  trim Matcher.sampleText1 = Matcher.sampleText1.
Proof.
  refine (proj1 (proj2 (proj2 (proj2
            (extracted_blocks_are_long_and_trimmed Matcher.samplePage
               Matcher.sampleText1 _))))).
  apply (list_elem_of_lookup_2 _ 0%nat). vm_compute. reflexivity.
Defined.

Section RatioFacts.

Lemma ratio_eq_one (i n : nat) :
  (0 < n)%nat ->
  (inject_Z (Z.of_nat i) / inject_Z (Z.of_nat n) == 1)%Q <-> i = n.
Proof.
  intros Hn. destruct n as [|n]; [lia|].
  unfold Qdiv, Qinv, Qmult, Qeq, inject_Z.
  change (Z.of_nat (S n)) with (Z.pos (Pos.of_succ_nat n)). cbn. lia.
Qed.

Lemma ratio_eq_zero (i n : nat) :
  (0 < n)%nat ->
  (inject_Z (Z.of_nat i) / inject_Z (Z.of_nat n) == 0)%Q <-> i = 0%nat.
Proof.
  intros Hn. destruct n as [|n]; [lia|].
  unfold Qdiv, Qinv, Qmult, Qeq, inject_Z.
  change (Z.of_nat (S n)) with (Z.pos (Pos.of_succ_nat n)). cbn. lia.
Qed.

Lemma ratio_above_threshold (i n : nat) :
  (0 < n)%nat ->
  (Matcher.threshold < inject_Z (Z.of_nat i) / inject_Z (Z.of_nat n))%Q
  <-> (85 * n < 100 * i)%nat.
Proof.
  intros Hn. destruct n as [|n]; [lia|].
  unfold Matcher.threshold, Qdiv, Qinv, Qmult, Qlt, inject_Z.
  change (Z.of_nat (S n)) with (Z.pos (Pos.of_succ_nat n)). cbn. lia.
Qed.

Lemma size_union_inter (A B : gset jstring) :
  size (A ∪ B) = (size A + size B - size (A ∩ B))%nat
  /\ (size (A ∩ B) <= size A)%nat /\ (size (A ∩ B) <= size B)%nat.
Proof.
  pose proof (subseteq_size (A ∩ B) A (intersection_subseteq_l A B)) as Ha.
  pose proof (subseteq_size (A ∩ B) B (intersection_subseteq_r A B)) as Hb.
  split; [|done].
  rewrite size_union_alt, size_difference_alt.
  rewrite (comm_L (∩) B A). lia.
Qed.

Lemma size_zero_L (X : gset jstring) : size X = 0%nat <-> X = ∅.
Proof.
  split; intros H.
  - by apply leibniz_equiv, size_empty_iff.
  - rewrite H. apply size_empty.
Qed.

End RatioFacts.

(** X17.  [textSimilarity] sees of its two texts only the sets of their
    tokens longer than two code units, a token being a non-empty run of
    characters that are no whitespace with whitespace or an end of the
    text on either side: order, repetition and shorter tokens do not
    count.  It is 1 exactly when the two texts have the same long
    tokens and at least one, 0 exactly when they share none, and it
    passes the threshold of the matcher exactly when the shared long
    tokens, times 100, outnumber all the long tokens of both, times
    85. *)
Theorem similarity_depends_on_long_word_sets (a b : jstring) :
  (forall s w : jstring, w ∈ wordSet s <-> longToken s w)
  /\ (forall a' b' : jstring,
        (forall w : jstring, longToken a' w <-> longToken a w) ->
        (forall w : jstring, longToken b' w <-> longToken b w) ->
        textSimilarity a' b' = textSimilarity a b)
  /\ ((textSimilarity a b == 1)%Q
      <-> (forall w : jstring, longToken a w <-> longToken b w)
          /\ exists w : jstring, longToken a w)
  /\ ((textSimilarity a b == 0)%Q
      <-> ~ exists w : jstring, longToken a w /\ longToken b w)
  /\ (Matcher.Qgtb (textSimilarity a b) Matcher.threshold = true
      <-> (85 * size (wordSet a ∪ wordSet b)
           < 100 * size (wordSet a ∩ wordSet b))%nat).
Proof.
  assert (Hsame : forall x y : jstring,
             (forall w : jstring, longToken x w <-> longToken y w)
             <-> wordSet x = wordSet y).
  { intros x y. split.
    - intros H. apply set_eq. intros w. by rewrite !wordSet_tokens.
    - intros H w. by rewrite <- !wordSet_tokens, H. }
  assert (Hsome : forall x : jstring,
             (exists w : jstring, longToken x w) <-> wordSet x <> ∅).
  { intros x. split.
    - intros [w Hw] H0. apply wordSet_tokens in Hw. rewrite H0 in Hw.
      by apply not_elem_of_empty in Hw.
    - intros Hne. apply set_choose_L in Hne as [w Hw].
      exists w. by apply wordSet_tokens. }
  assert (Hshare : (~ exists w : jstring, longToken a w /\ longToken b w)
                   <-> wordSet a ∩ wordSet b = ∅).
  { split.
    - intros Hno. apply set_eq. intros w. split.
      + intros [Ha Hb]%elem_of_intersection. exfalso. apply Hno.
        exists w. by rewrite <- !wordSet_tokens.
      + by intros ?%not_elem_of_empty.
    - intros H0 (w & Ha & Hb).
      apply wordSet_tokens in Ha, Hb.
      apply (not_elem_of_empty (C := gset jstring) w). rewrite <- H0.
      by apply elem_of_intersection. }
  split; [exact wordSet_tokens|].
  rewrite Hshare. rewrite (Hsame a b), (Hsome a).
  destruct (size_union_inter (wordSet a) (wordSet b)) as (Hu & Hia & Hib).
  split; [|split; [|split]].
  - intros a' b' Ha Hb. apply Hsame in Ha, Hb.
    rewrite !textSimilarity_unfold. by rewrite Ha, Hb.
  - rewrite textSimilarity_unfold.
    destruct ((size (wordSet a) =? 0) || (size (wordSet b) =? 0))%nat eqn:He.
    + split; [intros H; by vm_compute in H|].
      intros [Heq Hne]. exfalso. apply Hne.
      apply orb_true_iff in He as [He|He]; apply Nat.eqb_eq in He.
      * by apply wordSet_empty_size.
      * rewrite Heq. by apply wordSet_empty_size.
    + apply orb_false_iff in He as [Ha Hb].
      apply Nat.eqb_neq in Ha, Hb. unfold jaccard.
      rewrite ratio_eq_one by lia. split.
      * intros Hsz.
        assert (H1 : wordSet a ∩ wordSet b = wordSet a).
        { apply set_subseteq_size_eq; [apply intersection_subseteq_l|lia]. }
        assert (H2 : wordSet a ∩ wordSet b = wordSet b).
        { apply set_subseteq_size_eq; [apply intersection_subseteq_r|lia]. }
        split; [congruence|].
        intros Hempty. apply wordSet_empty_size in Hempty. lia.
      * intros [Heq _]. rewrite <- Heq, (idemp_L (∩)). lia.
  - rewrite textSimilarity_unfold.
    destruct ((size (wordSet a) =? 0) || (size (wordSet b) =? 0))%nat eqn:He.
    + split; [|done]. intros _. apply size_zero_L.
      apply orb_true_iff in He as [He|He]; apply Nat.eqb_eq in He; lia.
    + apply orb_false_iff in He as [Ha Hb].
      apply Nat.eqb_neq in Ha, Hb. unfold jaccard.
      rewrite ratio_eq_zero by lia. apply size_zero_L.
  - rewrite Qgtb_true, textSimilarity_unfold, Hu.
    destruct ((size (wordSet a) =? 0) || (size (wordSet b) =? 0))%nat eqn:He.
    + apply orb_true_iff in He as [He|He]; apply Nat.eqb_eq in He;
        (split; [intros H; by vm_compute in H|lia]).
    + apply orb_false_iff in He as [Ha Hb].
      apply Nat.eqb_neq in Ha, Hb. unfold jaccard.
      apply ratio_above_threshold. lia.
Qed.

Section SpacedFacts.
Import Notions.

Lemma spaced_wordlike_app (piece t : jstring) :
  forallb notWhiteSpace piece = true -> spaced (piece ++ t) = spaced t.
Proof.
  intros Hp. induction piece as [|c piece IH]; [done|].
  simpl in Hp. apply andb_true_iff in Hp as [Hc Hp].
  unfold notWhiteSpace in Hc. apply negb_true_iff in Hc.
  simpl. rewrite Hc. simpl. by apply IH.
Qed.

Lemma spaced_app_r (a b : jstring) : spaced (a ++ b) = true -> spaced b = true.
Proof.
  induction a as [|c a IH]; [done|]. simpl.
  intros H. apply andb_true_iff in H as [_ H]. by apply IH.
Qed.

Lemma spaced_app_l (a b : jstring) : spaced (a ++ b) = true -> spaced a = true.
Proof.
  induction a as [|c a IH]; [done|]. simpl.
  intros H. apply andb_true_iff in H as [Hc H].
  rewrite (IH H), andb_true_r.
  destruct (isWhiteSpace c); [|done].
  apply andb_true_iff in Hc as [-> Hn]. simpl.
  destruct a as [|d a]; [done|]. exact Hn.
Qed.

Lemma span_ws_rest (s run rest : jstring) :
  span isWhiteSpace s = (run, rest) -> startsWithSpace rest = false.
Proof.
  intros Hs. apply span_spec in Hs as (_ & _ & Hr). by destruct rest.
Qed.

Lemma collapseWs_unfold (fuel : nat) (s : jstring) :
  collapseWs fuel s
  = let '(piece, rest) := span notWhiteSpace s in
    match rest with
    | [] => piece
    | _ :: _ =>
        let '(_, rest') := span isWhiteSpace rest in
        match fuel with
        | O => piece
        | S fuel' => piece ++ 32 :: collapseWs fuel' rest'
        end
    end.
Proof. by destruct fuel. Qed.

Lemma collapseWs_head (fuel : nat) (s : jstring) :
  startsWithSpace s = false -> startsWithSpace (collapseWs fuel s) = false.
Proof.
  intros Hs. destruct s as [|c s]; [by destruct fuel|].
  simpl in Hs.
  assert (Hspan : exists piece rest,
             span notWhiteSpace (c :: s) = (c :: piece, rest)).
  { simpl. unfold notWhiteSpace at 1. rewrite Hs. simpl.
    destruct (span notWhiteSpace s) as [a b]. eauto. }
  destruct Hspan as (piece & rest & Hspan).
  rewrite collapseWs_unfold, Hspan.
  destruct rest as [|d rest]; [exact Hs|].
  destruct (span isWhiteSpace (d :: rest)).
  destruct fuel; exact Hs.
Qed.

Lemma collapseWs_spaced (fuel : nat) :
  forall s : jstring, (length s <= fuel)%nat -> spaced (collapseWs fuel s) = true.
Proof.
  induction fuel as [|fuel IH]; intros s Hlen.
  - destruct s; [done|simpl in Hlen; lia].
  - simpl. destruct (span notWhiteSpace s) as [piece rest] eqn:Hp.
    apply span_spec in Hp as (-> & Hpiece & Hrest).
    destruct rest as [|c rest].
    + rewrite <- (app_nil_r piece). by rewrite spaced_wordlike_app.
    + destruct (span isWhiteSpace (c :: rest)) as [run rest'] eqn:Hr.
      pose proof (span_ws_rest _ _ _ Hr) as Hhead.
      apply notWhiteSpace_false in Hrest.
      pose proof (span_rest_shorter c rest run rest' Hrest Hr) as Hshort.
      rewrite spaced_wordlike_app by done. simpl.
      rewrite (collapseWs_head fuel rest' Hhead). simpl.
      apply IH. rewrite length_app in Hlen. simpl in Hlen. lia.
Qed.

Lemma collapseWs_fixed (fuel : nat) :
  forall s : jstring,
    (length s <= fuel)%nat -> spaced s = true -> collapseWs fuel s = s.
Proof.
  induction fuel as [|fuel IH]; intros s Hlen Hsp.
  - destruct s; [done|simpl in Hlen; lia].
  - simpl. destruct (span notWhiteSpace s) as [piece rest] eqn:Hp.
    apply span_spec in Hp as (-> & Hpiece & Hrest).
    destruct rest as [|c rest]; [by rewrite app_nil_r|].
    apply notWhiteSpace_false in Hrest.
    apply spaced_app_r in Hsp. simpl in Hsp. rewrite Hrest in Hsp.
    apply andb_true_iff in Hsp as [Hc Hsp].
    apply andb_true_iff in Hc as [Hc Hnext].
    apply N.eqb_eq in Hc. subst c. apply negb_true_iff in Hnext.
    assert (Hr : span isWhiteSpace (32 :: rest) = ([32], rest)).
    { simpl. destruct rest as [|d rest]; [done|].
      simpl in Hnext. simpl. by rewrite Hnext. }
    rewrite Hr. rewrite IH; [done| |done].
    rewrite length_app in Hlen. simpl in Hlen. lia.
Qed.

Lemma trimStart_suffix (s : jstring) :
  exists a : jstring, s = a ++ trimStart s.
Proof.
  unfold trimStart. destruct (span isWhiteSpace s) as [a b] eqn:Hs.
  apply span_spec in Hs as (-> & _). by exists a.
Qed.

Lemma trim_infix (s : jstring) :
  exists a b : jstring, s = a ++ trim s ++ b.
Proof.
  unfold trim. destruct (trimStart_suffix s) as [a Ha].
  destruct (trimStart_suffix (rev (trimStart s))) as [b Hb].
  exists a, (rev b). rewrite <- rev_app_distr, <- Hb, rev_involutive. exact Ha.
Qed.

Lemma trim_spaced (s : jstring) : spaced s = true -> spaced (trim s) = true.
Proof.
  intros Hs. destruct (trim_infix s) as (a & b & Heq).
  rewrite Heq in Hs. apply spaced_app_r in Hs. by apply spaced_app_l in Hs.
Qed.

(** The text [replace(/\s+/g, ' ').trim()] gives. *)
Lemma squeeze_normal (s : jstring) :
  let t := trim (replace_ws_space s) in
  spaced t = true
  /\ startsWithSpace t = false
  /\ startsWithSpace (rev t) = false.
Proof.
  intros t. subst t. destruct (trim_ends (replace_ws_space s)) as [H1 H2].
  split; [|done]. apply trim_spaced. by apply collapseWs_spaced.
Qed.

Lemma normal_fixed (t : jstring) :
  spaced t = true -> startsWithSpace t = false ->
  startsWithSpace (rev t) = false ->
  trim (replace_ws_space t) = t.
Proof.
  intros Hsp Hs He. unfold replace_ws_space.
  rewrite collapseWs_fixed by done. by apply trim_fixed.
Qed.

Lemma squeeze_idempotent (s : jstring) :
  trim (replace_ws_space (trim (replace_ws_space s)))
  = trim (replace_ws_space s).
Proof.
  destruct (squeeze_normal s) as (Hsp & Hs & He). by apply normal_fixed.
Qed.

Lemma asciiLower_space (c : N) : isWhiteSpace (asciiLower c) = isWhiteSpace c.
Proof.
  unfold asciiLower.
  destruct ((65 <=? c) && (c <=? 90)) eqn:Hc; [|done].
  apply andb_true_iff in Hc as [H1 H2].
  apply N.leb_le in H1, H2. unfold isWhiteSpace.
  repeat match goal with
         | |- context [(?a <=? ?b)] =>
             destruct (N.leb_spec a b); try lia
         | |- context [(?a =? ?b)] =>
             destruct (N.eqb_spec a b); try lia
         end; done.
Qed.

Lemma asciiLower_spaced (t : jstring) :
  spaced (map asciiLower t) = spaced t
  /\ startsWithSpace (map asciiLower t) = startsWithSpace t.
Proof.
  induction t as [|c t [IH1 IH2]]; [done|].
  split; [|simpl; apply asciiLower_space].
  simpl. rewrite asciiLower_space, IH1, IH2.
  destruct (isWhiteSpace c) eqn:Hc; [|done].
  f_equal. f_equal. unfold asciiLower.
  destruct ((65 <=? c) && (c <=? 90)) eqn:Hup; [|done].
  apply andb_true_iff in Hup as [H1 H2]. apply N.leb_le in H1, H2.
  destruct (N.eqb_spec (c + 32) 32), (N.eqb_spec c 32); try lia; done.
Qed.

Lemma asciiLower_idempotent (s : jstring) :
  map asciiLower (map asciiLower s) = map asciiLower s.
Proof.
  rewrite map_map. apply map_ext. intros c. unfold asciiLower.
  destruct ((65 <=? c) && (c <=? 90)) eqn:Hc; [|by rewrite Hc].
  apply andb_true_iff in Hc as [H1 H2]. apply N.leb_le in H1, H2.
  destruct (N.leb_spec 65 (c + 32)), (N.leb_spec (c + 32) 90); simpl; try lia;
    done.
Qed.

Lemma asciiLower_normal (s : jstring) :
  trim (replace_ws_space s) = s ->
  trim (replace_ws_space (map asciiLower s)) = map asciiLower s.
Proof.
  intros Hs. destruct (squeeze_normal s) as (Hsp & Hst & He).
  cbv zeta in Hsp, Hst, He. rewrite Hs in Hsp, Hst, He.
  destruct (asciiLower_spaced s) as [H1 H2].
  destruct (asciiLower_spaced (rev s)) as [_ H3].
  apply normal_fixed.
  - by rewrite H1.
  - by rewrite H2.
  - rewrite <- map_rev. by rewrite H3.
Qed.

End SpacedFacts.

(** X18.  The whitespace part of [normalizeText] gives a text in which
    every whitespace character is a single space between two others,
    and which neither starts nor ends with whitespace; on such a text it
    changes nothing.  With a lower-casing that is idempotent and takes
    such texts to such texts, [normalizeText] is idempotent: a text
    already normalized is its own normal form. *)
Theorem normalizeText_idempotent (u : UnicodeData) (text : jstring) :
  (forall s : jstring, toLowerCase u (toLowerCase u s) = toLowerCase u s) ->
  (forall s : jstring,
      trim (replace_ws_space s) = s ->
      trim (replace_ws_space (toLowerCase u s)) = toLowerCase u s) ->
  normalizeText u (normalizeText u text) = normalizeText u text
  /\ (let t := trim (replace_ws_space text) in
      Notions.spaced t = true
      /\ startsWithSpace t = false
      /\ startsWithSpace (rev t) = false
      /\ trim (replace_ws_space t) = t).
Proof.
  intros Hidem Hkeep. split.
  - unfold normalizeText.
    rewrite (Hkeep _ (squeeze_idempotent text)). apply Hidem.
  - destruct (squeeze_normal text) as (Hsp & Hs & He).
    cbv zeta. repeat (split; [done|]). apply squeeze_idempotent.
Qed.

Lemma normalizeText_idempotent_witness :
  normalizeText latin_ucd (normalizeText latin_ucd (utf16 "  Der  Hund "))
  = normalizeText latin_ucd (utf16 "  Der  Hund ").
Proof.
  exact (proj1 (normalizeText_idempotent latin_ucd (utf16 "  Der  Hund ")
                  asciiLower_idempotent asciiLower_normal)).
Defined.

(** X19.  From end to end: when [translatePage] has matched elements and
    sent their texts, whatever else the script had put in the document,
    and the worker answers with blocks of which every one that is
    applied has a text to render, then rewriting the page and restoring
    it afterwards gives every matched element of the page the text it
    had before [translatePage], and leaves no session. *)
Theorem translate_then_restore_gives_back_texts (u : UnicodeData)
    (parsed : option Page.Article) (scriptNodes : list Dom.Node)
    (st : Page.State)
    (originalElements : list Dom.Element) (textsToTranslate : list jstring)
    (blocks : list Page.ReceivedBlock) (failedBatches totalBatches : nat)
    (settings : Page.Settings) (splitError : jstring) :
  (Page.translatePage u parsed scriptNodes st).2
  = Page.AwaitingTranslation originalElements textsToTranslate ->
  Page.rendersText (min (length originalElements) (length blocks)) blocks ->
  let st1 := (Page.translatePage u parsed scriptNodes st).1 in
  let st2 := Page.translatePageResume u
               (Page.ResponseOk blocks failedBatches totalBatches)
               settings splitError originalElements st1 in
  let st3 := Page.restoreOriginal st2 in
  (forall (el : Dom.Element) (tag : string) (kids : list Dom.Node),
     el ∈ originalElements ->
     Dom.nodeAt (Page.doc st) (Dom.ref el) = Some (Dom.Elem tag kids) ->
     Page.textContent (Page.doc st3) (Page.dom st3) (Dom.ref el)
     = Page.textContent (Page.doc st) (Page.dom st) (Dom.ref el))
  /\ is_Some (Page.translationState st2)
  /\ Page.translationState st3 = None.
Proof.
  intros Hout Hall st1 st2 st3.
  destruct (translatePage_awaiting u parsed scriptNodes st _ _ Hout)
    as (Hfirst & Hnone & Hord).
  assert (Hst1 : st1 = Page.showOverlay
                         (Page.Translating (length originalElements)) st).
  { subst st1. by rewrite Hfirst. }
  destruct (resume_page u blocks failedBatches totalBatches settings splitError
              originalElements st1 Hall) as (Hsess & _ & _ & _ & _ & Hclosed).
  split; [|split; [exact Hsess|exact Hclosed]].
  intros el tag kids Hel _. subst st3 st2.
  rewrite (restore_resume_text u blocks failedBatches totalBatches settings
             splitError originalElements st1 Hord Hall el Hel).
  by rewrite Hst1.
Qed.

Lemma translate_then_restore_gives_back_texts_witness :
  Page.translationState
    (Page.restoreOriginal
       (Page.translatePageResume latin_ucd
          (Page.ResponseOk Notions.sampleReply 1 1) Notions.sampleSettings []
          Notions.sampleMatchedAgain
          (Page.translatePage latin_ucd (Some Notions.sampleArticle)
             [Notions.sampleOverlay] Page.sampleState).1))
  = None.
Proof.
  refine (proj2 (proj2
            (translate_then_restore_gives_back_texts latin_ucd
               (Some Notions.sampleArticle) [Notions.sampleOverlay]
               Page.sampleState Notions.sampleMatchedAgain
               ((fun el => trim (Dom.textContent (Dom.node el)))
                  <$> Notions.sampleMatchedAgain)
               Notions.sampleReply 1 1 Notions.sampleSettings [] _ _))).
  - vm_compute. reflexivity.
  - vm_compute. repeat constructor; eauto.
Defined.

Lemma click_awaits_translation (span : Interaction.SpanRef)
    (translator : nat) (st : Page.State) :
  Page.isModifierHeld st = false ->
  Page.currentClickedWord st = None ->
  Page.browserTranslator st = Some translator ->
  Page.browserTranslatorInitialized st = true ->
  Interaction.handleWordClick span st
  = (Page.set_tooltip
       (Some {| Page.tooltip_anchor := span.1;
                Page.tooltip_html
                := Interaction.viewText
                     (Interaction.TranslatingWord
                        (Interaction.wordOf (Page.dom st) span)) |})
       None st,
     Interaction.AwaitTranslate span (Interaction.wordOf (Page.dom st) span),
     true).
Proof.
  intros Hheld Hnone Htr Hinit. unfold Interaction.handleWordClick.
  rewrite Hheld, Hnone. rewrite bool_decide_eq_false_2 by done.
  cbn [andb]. unfold Interaction.showWordTooltip. simpl.
  rewrite Hinit. cbn [negb andb].
  unfold Interaction.translateOrOffer. simpl. rewrite Htr. done.
Qed.

(** X20.  An answer that comes late goes to whatever tooltip is open.
    When a word is clicked while the translation of another word is
    still awaited, the tooltip of the second word is the open one, and
    the translation of the first word, when it arrives, replaces its
    content; the same answer does nothing when no tooltip is open. *)
Theorem late_translation_lands_in_open_tooltip
    (first second : Interaction.SpanRef) (translation : jstring)
    (translator : nat) (st : Page.State) :
  Page.isModifierHeld st = false ->
  Page.currentClickedWord st = None ->
  Page.browserTranslator st = Some translator ->
  Page.browserTranslatorInitialized st = true ->
  translation <> [] ->
  let word1 := Interaction.wordOf (Page.dom st) first in
  let word2 := Interaction.wordOf (Page.dom st) second in
  let st1 := (Interaction.handleWordClick first st).1.1 in
  let st2 := (Interaction.handleWordClick second st1).1.1 in
  let st3 := Interaction.resumeTranslate (Some translation) first word1 st2 in
  (Interaction.handleWordClick first st).1.2
  = Interaction.AwaitTranslate first word1
  /\ Page.activeTooltip st2
     = Some {| Page.tooltip_anchor := second.1;
               Page.tooltip_html
               := Interaction.viewText (Interaction.TranslatingWord word2) |}
  /\ Page.activeTooltip st3
     = Some {| Page.tooltip_anchor := second.1;
               Page.tooltip_html
               := Interaction.viewText
                    (Interaction.WordTranslation word1 translation) |}
  /\ Interaction.resumeTranslate (Some translation) first word1
       (Page.hideTooltip st2)
     = Page.hideTooltip st2.
Proof.
  intros Hheld Hnone Htr Hinit Hne word1 word2 st1 st2 st3.
  subst word1 word2 st1 st2 st3.
  destruct translation as [|c translation]; [done|].
  rewrite (click_awaits_translation first translator st) by done.
  cbn [fst snd].
  rewrite (click_awaits_translation second translator) by done.
  done.
Qed.

Lemma late_translation_lands_in_open_tooltip_witness :
  Page.activeTooltip
    (Interaction.resumeTranslate (Some (utf16 "the")) (Page.sampleParagraph, 0%nat)
       (utf16 "The")
       (Interaction.handleWordClick (Page.sampleParagraph, 2%nat)
          (Interaction.handleWordClick (Page.sampleParagraph, 0%nat)
             (Page.set_translator (Some 1%nat) true None Page.translatedState)).1.1).1.1)
  = Some {| Page.tooltip_anchor := Page.sampleParagraph;
            Page.tooltip_html := utf16 "The" ++ 10 :: utf16 "the" ++ 10
                                 :: utf16 "Analyze Word" |}.
Proof.
  exact (proj1 (proj2 (proj2
           (late_translation_lands_in_open_tooltip
              (Page.sampleParagraph, 0%nat) (Page.sampleParagraph, 2%nat)
              (utf16 "the") 1%nat
              (Page.set_translator (Some 1%nat) true None Page.translatedState)
              eq_refl eq_refl eq_refl eq_refl
              (fun H => eq_ind (utf16 "the")
                          (fun l => match l with [] => False | _ :: _ => True end)
                          I [] H))))).
Defined.


